(** * Evaluation scheduler of the dependency graph (depsgraph_eval.cc)

    A shallow embedding of the evaluation entry points of
    [source/blender/depsgraph/intern/depsgraph_eval.cc]: the readiness
    pre-pass ([calculate_pending_func], [calculate_pending_parents]), the
    scheduler ([schedule_node], [schedule_children], [schedule_graph]), the
    worker loop ([deg_task_run_func]) and the drivers
    ([DEG_evaluate_on_refresh_ex] and its two callers).

    The code runs on a pool of threads.  Each thread is a stack of pending
    instructions; one step of the pass lets one thread perform one access to
    the shared node fields ([num_links_pending], [scheduled]), together with
    the thread-local computation around it.  The relation [step] is the
    interleaving of these steps and of the pool handing a pushed task to a
    worker. *)

From Stdlib Require Import ZArith Lia Floats.
From stdpp Require Import base list relations.

(** ** Data model *)

(** Modelled from the spec: [DEPSOP_FLAG_NEEDS_UPDATE] and
    [DEPSREL_FLAG_CYCLIC] are enumerators of depsnode_operation.h and
    depsgraph.h.  Each is one bit of a flag word, the node's "needs update"
    and the relation's "cyclic"; the bit is taken to be [(1 << 0)]. *)
Definition DEPSOP_FLAG_NEEDS_UPDATE : Z := Z.shiftl 1 0.
Definition DEPSREL_FLAG_CYCLIC : Z := Z.shiftl 1 0.

(** [uint32_t] arithmetic wraps around. *)
Definition uint32 (z : Z) : Z := (z mod 2 ^ 32)%Z.

(** The callback bound to an operation ([node->evaluate]).  What it does to
    the scene is outside this file; it is identified by a number and its
    invocation is recorded in the trace of the pass. *)
Record DepsEvalOperationCb := { cb_id : nat }.

(** [IDDepsNode]: only [layers] is read here. *)
Record IDDepsNode := { id_layers : Z }.

(** [ComponentDepsNode]: only [owner] is read here. *)
Record ComponentDepsNode := { comp_owner : IDDepsNode }.

(** A [DepsNode *]: an operation is named by its position in
    [graph->operations]; any other node ([node->type] different from
    [DEPSNODE_TYPE_OPERATION], such as the time source) carries no further
    data here. *)
Inductive DepsNodePtr :=
| OperationPtr (i : nat)
| OtherPtr.

(** [DepsRelation].  [to] is always read through the cast
    [(OperationDepsNode * )rel->to], guarded by
    [BLI_assert(child->type == DEPSNODE_TYPE_OPERATION)]: it is an
    operation index. *)
Record DepsRelation := {
  rel_from : DepsNodePtr;
  rel_to : nat;
  rel_flag : Z;
}.

(** [OperationDepsNode]. *)
Record OperationDepsNode := {
  op_owner : ComponentDepsNode;
  op_flag : Z;
  evaluate : option DepsEvalOperationCb;
  num_links_pending : Z;
  scheduled : bool;
  op_done : Z;
  inlinks : list DepsRelation;
  outlinks : list DepsRelation;
}.

Record TimeSourceDepsNode := { cfra : float }.

(** [Depsgraph].  [time_source] is what [graph->find_time_source()]
    returns: [None] is the null pointer. *)
Record Depsgraph := {
  operations : list OperationDepsNode;
  entry_tags : list nat;
  time_source : option TimeSourceDepsNode;
  graph_layers : Z;
}.

Record EvaluationContext := {
  mode : Z;
  ctime : float;
}.

#[global] Instance DepsEvalOperationCb_eq_dec : EqDecision DepsEvalOperationCb.
Proof. solve_decision. Defined.
#[global] Instance IDDepsNode_eq_dec : EqDecision IDDepsNode.
Proof. solve_decision. Defined.
#[global] Instance ComponentDepsNode_eq_dec : EqDecision ComponentDepsNode.
Proof. solve_decision. Defined.
#[global] Instance DepsNodePtr_eq_dec : EqDecision DepsNodePtr.
Proof. solve_decision. Defined.
#[global] Instance DepsRelation_eq_dec : EqDecision DepsRelation.
Proof. solve_decision. Defined.
#[global] Instance OperationDepsNode_eq_dec : EqDecision OperationDepsNode.
Proof. solve_decision. Defined.

(** Field updates. *)
Definition set_num_links_pending (v : Z) (n : OperationDepsNode) : OperationDepsNode :=
  {| op_owner := op_owner n; op_flag := op_flag n; evaluate := evaluate n;
     num_links_pending := v; scheduled := scheduled n; op_done := op_done n;
     inlinks := inlinks n; outlinks := outlinks n |}.

Definition set_scheduled (v : bool) (n : OperationDepsNode) : OperationDepsNode :=
  {| op_owner := op_owner n; op_flag := op_flag n; evaluate := evaluate n;
     num_links_pending := num_links_pending n; scheduled := v; op_done := op_done n;
     inlinks := inlinks n; outlinks := outlinks n |}.

Definition set_done (v : Z) (n : OperationDepsNode) : OperationDepsNode :=
  {| op_owner := op_owner n; op_flag := op_flag n; evaluate := evaluate n;
     num_links_pending := num_links_pending n; scheduled := scheduled n; op_done := v;
     inlinks := inlinks n; outlinks := outlinks n |}.

Definition set_operations (ops : list OperationDepsNode) (g : Depsgraph) : Depsgraph :=
  {| operations := ops; entry_tags := entry_tags g;
     time_source := time_source g; graph_layers := graph_layers g |}.

Definition set_entry_tags (tags : list nat) (g : Depsgraph) : Depsgraph :=
  {| operations := operations g; entry_tags := tags;
     time_source := time_source g; graph_layers := graph_layers g |}.

Definition set_time_source (ts : option TimeSourceDepsNode) (g : Depsgraph) : Depsgraph :=
  {| operations := operations g; entry_tags := entry_tags g;
     time_source := ts; graph_layers := graph_layers g |}.

(** A zero-filled node, read where an index names no operation. *)
Definition blank_node : OperationDepsNode :=
  {| op_owner := {| comp_owner := {| id_layers := 0 |} |}; op_flag := 0;
     evaluate := None; num_links_pending := 0; scheduled := false; op_done := 0;
     inlinks := []; outlinks := [] |}.

Definition node_at (g : Depsgraph) (i : nat) : OperationDepsNode :=
  default blank_node (operations g !! i).

Definition update_node (g : Depsgraph) (i : nat)
    (f : OperationDepsNode → OperationDepsNode) : Depsgraph :=
  set_operations (alter f i (operations g)) g.

(** [(node->flag & DEPSOP_FLAG_NEEDS_UPDATE) != 0] *)
Definition needs_update (n : OperationDepsNode) : bool :=
  negb (Z.land (op_flag n) DEPSOP_FLAG_NEEDS_UPDATE =? 0)%Z.

(** [(node->owner->owner->layers & layers) != 0] *)
Definition in_layers (layers : Z) (n : OperationDepsNode) : bool :=
  negb (Z.land (id_layers (comp_owner (op_owner n))) layers =? 0)%Z.

(** [(rel->flag & DEPSREL_FLAG_CYCLIC) == 0] *)
Definition non_cyclic (rel : DepsRelation) : bool :=
  (Z.land (rel_flag rel) DEPSREL_FLAG_CYCLIC =? 0)%Z.

(** Modelled from the spec: [OperationDepsNode::is_noop()] is declared in
    depsnode_operation.h.  A node is a NOOP when it carries no executable
    work: no callback is bound to it. *)
Definition is_noop (n : OperationDepsNode) : bool :=
  match evaluate n with None => true | Some _ => false end.

(** ** Readiness pre-pass *)

(** The test on one incoming relation in [calculate_pending_func]. *)
Definition counts_as_pending (layers : Z) (g : Depsgraph) (rel : DepsRelation) : bool :=
  match rel_from rel with
  | OperationPtr f =>
      non_cyclic rel &&
      (let from := node_at g f in in_layers layers from && needs_update from)
  | OtherPtr => false
  end.

Definition calculate_pending_func (layers : Z) (g : Depsgraph) (i : nat) : Depsgraph :=
  let node := node_at g i in
  let node := set_num_links_pending 0 node in
  let node := set_scheduled false node in
  let node :=
    if in_layers layers node && needs_update node then
      fold_left
        (λ node rel,
           if counts_as_pending layers g rel
           then set_num_links_pending (uint32 (num_links_pending node + 1)) node
           else node)
        (inlinks node) node
    else node in
  update_node g i (λ _, node).

(** Modelled from the spec: [BLI_task_parallel_range] belongs to the task
    library.  It calls [func] once for every index of the range; with
    [use_threading] the calls are spread over threads, which is rendered
    here by an arbitrary order [order] of the indices.  That nothing is lost
    by taking the calls one at a time is shown on [range_run] below, where
    the calls run on threads one access at a time. *)
Definition BLI_task_parallel_range (order : list nat) (start stop : nat)
    (func : Depsgraph → nat → Depsgraph) (use_threading : bool)
    (g : Depsgraph) : Depsgraph :=
  fold_left func (if use_threading then order else seq start (stop - start)) g.

Definition calculate_pending_parents (order : list nat) (g : Depsgraph)
    (layers : Z) : Depsgraph :=
  let num_operations := length (operations g) in
  let do_threads := 256 <? num_operations in
  BLI_task_parallel_range order 0 num_operations
    (calculate_pending_func layers) do_threads g.

(** *** The pre-pass on threads, one access at a time *)

(** The points of [calculate_pending_func] between two accesses to the
    fields of the nodes. *)
Inductive PendingInstr :=
| PZeroPending (node : nat)
    (* node->num_links_pending = 0 *)
| PUnschedule (node : nat)
    (* node->scheduled = false *)
| PTestNode (node : nat)
    (* if ((id_node->layers & layers) != 0 && (node->flag & ...) != 0) *)
| PInlinks (node : nat) (rels : list DepsRelation)
    (* the loop over node->inlinks: the tests on one relation and the read
       of ++node->num_links_pending *)
| PStorePending (node : nat) (v : Z) (rels : list DepsRelation).
    (* the write of ++node->num_links_pending *)

Definition pending_node (p : PendingInstr) : nat :=
  match p with
  | PZeroPending i | PUnschedule i | PTestNode i | PInlinks i _
  | PStorePending i _ _ => i
  end.

Definition pending_step (layers : Z) (g : Depsgraph) (p : PendingInstr)
    : Depsgraph * option PendingInstr :=
  match p with
  | PZeroPending i => (update_node g i (set_num_links_pending 0), Some (PUnschedule i))
  | PUnschedule i => (update_node g i (set_scheduled false), Some (PTestNode i))
  | PTestNode i =>
      let node := node_at g i in
      if in_layers layers node && needs_update node
      then (g, Some (PInlinks i (inlinks node)))
      else (g, None)
  | PInlinks i [] => (g, None)
  | PInlinks i (rel :: rest) =>
      if counts_as_pending layers g rel
      then (g, Some (PStorePending i (uint32 (num_links_pending (node_at g i) + 1)) rest))
      else (g, Some (PInlinks i rest))
  | PStorePending i v rest =>
      (update_node g i (set_num_links_pending v), Some (PInlinks i rest))
  end.

(** Modelled from the spec: the threads of [BLI_task_parallel_range].  Each
    thread takes an index that no thread has taken yet, whichever, and
    calls [func] on it; [rs_next] holds the indices not taken yet,
    [rs_threads] the point each thread has reached in its call. *)
Record RangeState := {
  rs_graph : Depsgraph;
  rs_next : list nat;
  rs_threads : list (option PendingInstr);
}.

Inductive RangeChoice :=
| TakeIndex (tid slot : nat)   (* thread [tid] takes the index in [slot] *)
| RunCall (tid : nat).         (* thread [tid] performs its next access *)

Definition range_step (layers : Z) (c : RangeChoice) (st : RangeState)
    : option RangeState :=
  match c with
  | TakeIndex tid slot =>
      match rs_threads st !! tid, rs_next st !! slot with
      | Some None, Some i =>
          Some {| rs_graph := rs_graph st;
                  rs_next := delete slot (rs_next st);
                  rs_threads := <[tid := Some (PZeroPending i)]> (rs_threads st) |}
      | _, _ => None
      end
  | RunCall tid =>
      match rs_threads st !! tid with
      | Some (Some p) =>
          let r := pending_step layers (rs_graph st) p in
          Some {| rs_graph := r.1; rs_next := rs_next st;
                  rs_threads := <[tid := r.2]> (rs_threads st) |}
      | _ => None
      end
  end.

Fixpoint range_run (layers : Z) (cs : list RangeChoice) (st : RangeState)
    : option RangeState :=
  match cs with
  | [] => Some st
  | c :: cs =>
      match range_step layers c st with
      | Some st' => range_run layers cs st'
      | None => None
      end
  end.

Definition range_start (threads : nat) (g : Depsgraph) : RangeState :=
  {| rs_graph := g; rs_next := seq 0 (length (operations g));
     rs_threads := replicate threads None |}.

Definition range_done (st : RangeState) : Prop :=
  rs_next st = [] ∧ Forall (λ t, t = None) (rs_threads st).

#[global] Instance range_done_dec st : Decision (range_done st).
Proof. unfold range_done. apply _. Defined.

(** ** Threads, pool and trace *)

Inductive Assertion :=
| AssertNotNoop       (* BLI_assert(!node->is_noop() && ...) *)
| AssertEvaluate      (* BLI_assert(node->evaluate) *)
| AssertLinksPending. (* BLI_assert(node->num_links_pending > 0) *)

(** What a pass does that can be observed from outside the node fields. *)
Inductive Event :=
| EvTaskStarted (node : nat)     (* DepsgraphDebug::task_started *)
| EvEvaluate (node : nat)        (* node->evaluate(state->eval_ctx) *)
| EvTaskCompleted (node : nat)   (* DepsgraphDebug::task_completed *)
| EvPush (node : nat)            (* BLI_task_pool_push_from_thread(.., node, ..) *)
| EvEvalBegin                    (* DepsgraphDebug::eval_begin *)
| EvEvalEnd                      (* DepsgraphDebug::eval_end *)
| EvAssertFailed (a : Assertion) (node : nat).

#[global] Instance Assertion_eq_dec : EqDecision Assertion.
Proof. solve_decision. Defined.
#[global] Instance Event_eq_dec : EqDecision Event.
Proof. solve_decision. Defined.

(** The points of the code at which a thread can be between two accesses
    to shared fields. *)
Inductive Instr :=
| IScheduleGraph (rest : list nat)
    (* schedule_graph: the operations still to visit *)
| IScheduleNode (node : nat) (dec_parents : bool)
    (* schedule_node: entry *)
| INodePending (node : nat)
    (* schedule_node: if (node->num_links_pending == 0) *)
| INodeClaim (node : nat)
    (* schedule_node: atomic_fetch_and_or_uint8(&node->scheduled, true) *)
| IScheduleChildren (rels : list DepsRelation)
    (* schedule_children: the outgoing relations still to visit *)
| ITaskEntry (node : nat)
    (* deg_task_run_func: entry, the two assertions *)
| ITaskLoop (node : nat)
    (* deg_task_run_func: top of while (true), the call of evaluate *)
| ITaskLinks (node : nat)
    (* deg_task_run_func: if (node->outlinks.size() == 1), child->scheduled *)
| ITaskDec (rel : DepsRelation)
    (* deg_task_run_func: atomic_sub_uint32 on the only child *)
| ITaskPending (child : nat)
    (* deg_task_run_func: if (child->num_links_pending == 0) *)
| ITaskClaim (child : nat).
    (* deg_task_run_func: atomic_fetch_and_or_uint8(&child->scheduled, true) *)

#[global] Instance Instr_eq_dec : EqDecision Instr.
Proof. solve_decision. Defined.

(** The outcome of one instruction: the graph after it, the instructions
    the thread runs next (before the rest of its stack), the tasks pushed
    to the pool and the events. *)
Record StepResult := {
  sr_graph : Depsgraph;
  sr_cont : list Instr;
  sr_push : list nat;
  sr_events : list Event;
}.

Definition silent (g : Depsgraph) (cont : list Instr) : StepResult :=
  {| sr_graph := g; sr_cont := cont; sr_push := []; sr_events := [] |}.

(** [BLI_assert(c)]: the condition is evaluated and a failure recorded; as
    in a release build, execution goes on.  The assertion on
    [num_links_pending] is evaluated in the step of the decrement that
    follows it. *)
Definition BLI_assert (c : bool) (a : Assertion) (node : nat) : list Event :=
  if c then [] else [EvAssertFailed a node].

(** [atomic_sub_uint32(&node->num_links_pending, 1)] *)
Definition atomic_sub_pending (n : OperationDepsNode) : OperationDepsNode :=
  set_num_links_pending (uint32 (num_links_pending n - 1)) n.

(** [atomic_fetch_and_or_uint8((uint8_t * )&node->scheduled, (uint8_t)true)]:
    the value stored; the value returned is the one read before. *)
Definition atomic_or_scheduled (n : OperationDepsNode) : OperationDepsNode :=
  set_scheduled (scheduled n || true) n.

Definition instr_step (layers : Z) (g : Depsgraph) (i : Instr) : StepResult :=
  match i with
  (* schedule_graph *)
  | IScheduleGraph [] => silent g []
  | IScheduleGraph (node :: rest) =>
      silent g [IScheduleNode node false; IScheduleGraph rest]
  (* schedule_node *)
  | IScheduleNode node dec_parents =>
      let n := node_at g node in
      if needs_update n && in_layers layers n then
        if dec_parents then
          {| sr_graph := update_node g node atomic_sub_pending;
             sr_cont := [INodePending node];
             sr_push := [];
             sr_events :=
               BLI_assert (0 <? num_links_pending n)%Z AssertLinksPending node |}
        else silent g [INodePending node]
      else silent g []
  | INodePending node =>
      if (num_links_pending (node_at g node) =? 0)%Z
      then silent g [INodeClaim node]
      else silent g []
  | INodeClaim node =>
      let n := node_at g node in
      let is_scheduled := scheduled n in
      let g' := update_node g node atomic_or_scheduled in
      if negb is_scheduled then
        if is_noop n then
          (* skip NOOP node, schedule children right away *)
          silent g' [IScheduleChildren (outlinks n)]
        else
          (* children are scheduled once this task is completed *)
          {| sr_graph := g'; sr_cont := []; sr_push := [node];
             sr_events := [EvPush node] |}
      else silent g' []
  (* schedule_children *)
  | IScheduleChildren [] => silent g []
  | IScheduleChildren (rel :: rest) =>
      let child := rel_to rel in
      if scheduled (node_at g child) then
        (* Happens when having cyclic dependencies. *)
        silent g [IScheduleChildren rest]
      else
        silent g [IScheduleNode child (non_cyclic rel); IScheduleChildren rest]
  (* deg_task_run_func *)
  | ITaskEntry node =>
      let n := node_at g node in
      {| sr_graph := g; sr_cont := [ITaskLoop node]; sr_push := [];
         sr_events :=
           BLI_assert (negb (is_noop n)) AssertNotNoop node ++
           BLI_assert (bool_decide (is_Some (evaluate n))) AssertEvaluate node |}
  | ITaskLoop node =>
      let n := node_at g node in
      {| sr_graph := g; sr_cont := [ITaskLinks node]; sr_push := [];
         sr_events :=
           match evaluate n with
           | Some _ => [EvTaskStarted node; EvEvaluate node; EvTaskCompleted node]
           | None => []
           end |}
  | ITaskLinks node =>
      let n := node_at g node in
      match outlinks n with
      | [rel] =>
          let child := rel_to rel in
          let c := node_at g child in
          if negb (scheduled c) then
            if negb (needs_update c && in_layers layers c) then
              (* Node does not need an update: leave the thread. *)
              silent g []
            else silent g [ITaskDec rel]
          else
            (* single child was already scheduled *)
            silent g []
      | _ => silent g [IScheduleChildren (outlinks n)]
      end
  | ITaskDec rel =>
      let child := rel_to rel in
      if non_cyclic rel then
        {| sr_graph := update_node g child atomic_sub_pending;
           sr_cont := [ITaskPending child];
           sr_push := [];
           sr_events :=
             BLI_assert (0 <? num_links_pending (node_at g child))%Z
               AssertLinksPending child |}
      else silent g [ITaskPending child]
  | ITaskPending child =>
      if (num_links_pending (node_at g child) =? 0)%Z
      then silent g [ITaskClaim child]
      else silent g []
  | ITaskClaim child =>
      let is_scheduled := scheduled (node_at g child) in
      let g' := update_node g child atomic_or_scheduled in
      if negb is_scheduled then
        (* Node was not scheduled, switch to it! *)
        silent g' [ITaskLoop child]
      else silent g' []
  end.

(** The state of a pass between two steps.  [ps_pool] holds the tasks
    pushed and not yet taken by a worker; [ps_threads] holds one stack per
    thread, the calling thread first; [ps_trace] is in order of occurrence. *)
Record PassState := {
  ps_graph : Depsgraph;
  ps_pool : list nat;
  ps_threads : list (list Instr);
  ps_trace : list Event;
}.

(** Modelled from the spec: the task pool belongs to the task library.  A
    task pushed with [BLI_task_pool_push_from_thread] is run by some thread
    of the pool as a call of [deg_task_run_func]; tasks may be taken in any
    order and by any number of threads, and a worker may take a task as soon
    as it is pushed.  A pool that holds the tasks back until
    [BLI_task_pool_work_and_wait] has fewer runs, those of [seeds_first]
    below. *)
Inductive Choice :=
| RunThread (tid : nat)     (* thread [tid] performs its next instruction *)
| StartTask (slot : nat).   (* a worker takes the task in [slot] of the pool *)

Definition sched_step (layers : Z) (c : Choice) (st : PassState) : option PassState :=
  match c with
  | RunThread tid =>
      match ps_threads st !! tid with
      | Some (i :: k) =>
          let r := instr_step layers (ps_graph st) i in
          Some {| ps_graph := sr_graph r;
                  ps_pool := ps_pool st ++ sr_push r;
                  ps_threads := <[tid := sr_cont r ++ k]> (ps_threads st);
                  ps_trace := ps_trace st ++ sr_events r |}
      | _ => None
      end
  | StartTask slot =>
      match ps_pool st !! slot with
      | Some node =>
          Some {| ps_graph := ps_graph st;
                  ps_pool := delete slot (ps_pool st);
                  ps_threads := ps_threads st ++ [[ITaskEntry node]];
                  ps_trace := ps_trace st |}
      | None => None
      end
  end.

Definition step (layers : Z) (st st' : PassState) : Prop :=
  ∃ c, sched_step layers c st = Some st'.

(** A run under an explicit schedule. *)
Fixpoint run_schedule (layers : Z) (cs : list Choice) (st : PassState) : option PassState :=
  match cs with
  | [] => Some st
  | c :: cs =>
      match sched_step layers c st with
      | Some st' => run_schedule layers cs st'
      | None => None
      end
  end.

(** [schedule_graph] on the calling thread, with an empty pool. *)
Definition schedule_graph (g : Depsgraph) : PassState :=
  {| ps_graph := g; ps_pool := [];
     ps_threads := [[IScheduleGraph (seq 0 (length (operations g)))]];
     ps_trace := [] |}.

(** [BLI_task_pool_work_and_wait] returns when no task is left and every
    thread is done. *)
Definition drained (st : PassState) : Prop :=
  ps_pool st = [] ∧ Forall (λ k, k = []) (ps_threads st).

#[global] Instance drained_dec st : Decision (drained st).
Proof. unfold drained. apply _. Defined.

(** ** Drivers *)

Inductive Outcome :=
| Returned (eval_ctx : EvaluationContext) (graph : Depsgraph) (trace : list Event)
| NullDereference.
    (* [time_src->cfra] or [tsrc->cfra] through a null pointer: undefined *)

Definition set_ctime (t : float) (eval_ctx : EvaluationContext) : EvaluationContext :=
  {| mode := mode eval_ctx; ctime := t |}.

(** The loop [node->done = 0] over [graph->operations]. *)
Definition clear_done (g : Depsgraph) : Depsgraph :=
  set_operations (set_done 0 <$> operations g) g.

(** Modelled from the spec: [DEG_graph_clear_tags] is defined with the
    tagging code.  It clears the update tags that remain on the graph, after
    which [DEG_needs_eval] answers false. *)
Definition DEG_graph_clear_tags (g : Depsgraph) : Depsgraph :=
  set_entry_tags [] g.

(** The pass proper, from [calculate_pending_parents] to
    [BLI_task_pool_work_and_wait]: [order] is the order in which the
    pre-pass visits the operations when it runs on threads, [schedule] the
    interleaving of the threads.  [None]: [schedule] is not a complete run
    of the pool (it names a thread that cannot move, or stops before the
    pool is drained).  With [G_DEBUG_DEPSGRAPH_NO_THREADS] the pool runs
    one task at a time: fewer schedules, all of them among these. *)
Definition evaluate_pass (order : list nat) (schedule : list Choice)
    (graph : Depsgraph) (layers : Z) : option PassState :=
  let graph := calculate_pending_parents order graph layers in
  let graph := clear_done graph in
  match run_schedule layers schedule (schedule_graph graph) with
  | Some st => if decide (drained st) then Some st else None
  | None => None
  end.

Definition DEG_evaluate_on_refresh_ex (order : list nat) (schedule : list Choice)
    (eval_ctx : EvaluationContext) (graph : Depsgraph) (layers : Z)
    : option Outcome :=
  (* Nothing to update, early out. *)
  if decide (length (entry_tags graph) = 0) then
    Some (Returned eval_ctx graph [])
  else
    (* Set time for the current graph evaluation context. *)
    match time_source graph with
    | None => Some NullDereference
    | Some time_src =>
        let eval_ctx := set_ctime (cfra time_src) eval_ctx in
        match evaluate_pass order schedule graph layers with
        | Some st =>
            Some (Returned eval_ctx
                    (* Clear any uncleared tags - just in case. *)
                    (DEG_graph_clear_tags (ps_graph st))
                    (EvEvalBegin :: ps_trace st ++ [EvEvalEnd]))
        | None => None
        end
    end.

Section Entrypoints.
(** Collaborators of the two callers, defined elsewhere: the tagging of
    the time source, the flush of pending updates, and the frame of the
    scene (here the value [BKE_scene_frame_get(scene)] returns). *)
Variable tag_update : Depsgraph → Depsgraph.
Variable DEG_graph_flush_updates : Depsgraph → Depsgraph.

Definition DEG_evaluate_on_refresh (order : list nat) (schedule : list Choice)
    (eval_ctx : EvaluationContext) (graph : Depsgraph) (scene_frame : float)
    : option Outcome :=
  (* Update time on primary timesource. *)
  match time_source graph with
  | None => Some NullDereference
  | Some _ =>
      let graph := set_time_source (Some {| cfra := scene_frame |}) graph in
      DEG_evaluate_on_refresh_ex order schedule eval_ctx graph (graph_layers graph)
  end.

Definition DEG_evaluate_on_framechange (order : list nat) (schedule : list Choice)
    (eval_ctx : EvaluationContext) (graph : Depsgraph) (ctime : float)
    (layers : Z) : option Outcome :=
  (* Update time on primary timesource. *)
  match time_source graph with
  | None => Some NullDereference
  | Some _ =>
      let graph := set_time_source (Some {| cfra := ctime |}) graph in
      let graph := tag_update graph in
      let graph := DEG_graph_flush_updates graph in
      (* Perform recalculation updates. *)
      DEG_evaluate_on_refresh_ex order schedule eval_ctx graph layers
  end.
End Entrypoints.

Definition DEG_needs_eval (graph : Depsgraph) : bool :=
  negb (length (entry_tags graph) =? 0).

(** ** Vocabulary of the statements *)

(** A node takes part in a pass when it is tagged for update and its
    owning ID is on one of the layers of the pass. *)
Definition eligible (layers : Z) (n : OperationDepsNode) : bool :=
  needs_update n && in_layers layers n.

Definition count `{EqDecision A} (x : A) (l : list A) : nat :=
  length (filter (λ y, y = x) l).

(** The relations of a graph, each held twice: among the [outlinks] of its
    source and among the [inlinks] of its target.  [relations_of g rels]
    says that [rels] is that set for [g], and that every relation joins
    operations of the graph. *)
Definition relations_of (g : Depsgraph) (rels : list DepsRelation) : Prop :=
  Forall (λ r, rel_to r < length (operations g) ∧
               match rel_from r with
               | OperationPtr p => p < length (operations g)
               | OtherPtr => True
               end) rels ∧
  Forall (λ i, outlinks (node_at g i) ≡ₚ filter (λ r, rel_from r = OperationPtr i) rels ∧
               inlinks (node_at g i) ≡ₚ filter (λ r, rel_to r = i) rels)
         (seq 0 (length (operations g))).

#[global] Instance relations_of_dec g rels : Decision (relations_of g rels).
Proof.
  unfold relations_of. apply and_dec; apply Forall_dec; intros x; [|apply _].
  destruct (rel_from x); apply _.
Defined.

(** Every [num_links_pending] can hold the number of incoming relations. *)
Definition links_fit (g : Depsgraph) : Prop :=
  Forall (λ n, (Z.of_nat (length (inlinks n)) < 2 ^ 32)%Z) (operations g).

(** The early out of the driver reads [entry_tags], the scheduler reads the
    flags of the nodes.  The two agree when a graph whose tag set is empty
    has no node that needs update. *)
Definition tags_recorded (g : Depsgraph) : Prop :=
  entry_tags g = [] → Forall (λ n, needs_update n = false) (operations g).

(** No relation carries [DEPSREL_FLAG_CYCLIC]. *)
Definition no_cyclic_relations (g : Depsgraph) : Prop :=
  Forall (λ n, Forall (λ r, non_cyclic r = true) (outlinks n)) (operations g).

(** The relations that do not carry [DEPSREL_FLAG_CYCLIC] close no cycle:
    they go up along some rank of the operations. *)
Definition cycles_flagged (g : Depsgraph) : Prop :=
  ∃ rank : nat → nat,
    Forall (λ p, Forall (λ r, non_cyclic r = true → rank p < rank (rel_to r))
                   (outlinks (node_at g p)))
           (seq 0 (length (operations g))).

(** What the pre-pass leaves untouched. *)
Definition same_static (n n' : OperationDepsNode) : Prop :=
  op_owner n = op_owner n' ∧ op_flag n = op_flag n' ∧ evaluate n = evaluate n' ∧
  inlinks n = inlinks n' ∧ outlinks n = outlinks n'.

Definition pend (g : Depsgraph) (c : nat) : Z := num_links_pending (node_at g c).
Definition sched (g : Depsgraph) (c : nat) : bool := scheduled (node_at g c).

(** A relation that makes its target wait: it does not carry
    [DEPSREL_FLAG_CYCLIC] and starts at an operation that takes part in the
    pass. *)
Definition counted_relation (layers : Z) (g : Depsgraph) (r : DepsRelation) : Prop :=
  non_cyclic r = true ∧
  match rel_from r with
  | OperationPtr f => eligible layers (node_at g f) = true
  | OtherPtr => False
  end.

#[global] Instance counted_relation_dec layers g r :
  Decision (counted_relation layers g r).
Proof. unfold counted_relation. destruct (rel_from r); apply _. Defined.

(** The dependencies of [c] that the pass waits for. *)
Definition waits_for (layers : Z) (g : Depsgraph) (c p : nat) : Prop :=
  ∃ r, r ∈ inlinks (node_at g c) ∧ rel_from r = OperationPtr p ∧
       counted_relation layers g r.

(** What the pre-pass is to leave in a node. *)
Definition prepass_pending (layers : Z) (g : Depsgraph) (n : OperationDepsNode) : Z :=
  if eligible layers n
  then Z.of_nat (length (filter (counted_relation layers g) (inlinks n)))
  else 0%Z.

Definition prepass_node (layers : Z) (g : Depsgraph) (n : OperationDepsNode)
    : OperationDepsNode :=
  set_scheduled false (set_num_links_pending (uint32 (prepass_pending layers g n)) n).

(** ** The invariant of the pre-pass on threads *)

Definition count_link (layers : Z) (g : Depsgraph) (node : OperationDepsNode)
    (rel : DepsRelation) : OperationDepsNode :=
  if counts_as_pending layers g rel
  then set_num_links_pending (uint32 (num_links_pending node + 1)) node
  else node.

Definition count_links (layers : Z) (g : Depsgraph) (node : OperationDepsNode)
    : OperationDepsNode :=
  if in_layers layers node && needs_update node
  then fold_left (count_link layers g) (inlinks node) node
  else node.

(** What is left of a call of [calculate_pending_func], as a function of
    the node. *)
Definition finish_call (layers : Z) (g : Depsgraph) (p : PendingInstr)
    (node : OperationDepsNode) : OperationDepsNode :=
  match p with
  | PZeroPending _ =>
      count_links layers g (set_scheduled false (set_num_links_pending 0 node))
  | PUnschedule _ => count_links layers g (set_scheduled false node)
  | PTestNode _ => count_links layers g node
  | PInlinks _ rels => fold_left (count_link layers g) rels node
  | PStorePending _ v rels =>
      fold_left (count_link layers g) rels (set_num_links_pending v node)
  end.

Definition in_flight (st : RangeState) : list PendingInstr :=
  rs_threads st ≫= option_list.

Record RangeInv (layers : Z) (g0 g : Depsgraph) (next : list nat)
    (I : list PendingInstr) : Prop := {
  rinv_fields : set_operations [] g = set_operations [] g0;
  rinv_length : length (operations g) = length (operations g0);
  rinv_static : ∀ c, same_static (node_at g0 c) (node_at g c);
  rinv_nodup : NoDup (next ++ (pending_node <$> I));
  rinv_range : ∀ i, i ∈ next ++ (pending_node <$> I) → i < length (operations g0);
  rinv_next : ∀ i, i ∈ next → node_at g i = node_at g0 i;
  rinv_calls : Forall (λ p, finish_call layers g0 p (node_at g (pending_node p)) =
                            prepass_node layers g0 (node_at g0 (pending_node p))) I;
  rinv_done : ∀ i, i < length (operations g0) →
    i ∉ next ++ (pending_node <$> I) →
    node_at g i = prepass_node layers g0 (node_at g0 i);
}.

Definition range_inv (layers : Z) (g0 : Depsgraph) (st : RangeState) : Prop :=
  RangeInv layers g0 (rs_graph st) (rs_next st) (in_flight st).

Definition call_weight (g0 : Depsgraph) (p : PendingInstr) : nat :=
  match p with
  | PZeroPending i => 4 + 2 * length (inlinks (node_at g0 i))
  | PUnschedule i => 3 + 2 * length (inlinks (node_at g0 i))
  | PTestNode i => 2 + 2 * length (inlinks (node_at g0 i))
  | PInlinks _ rels => 1 + 2 * length rels
  | PStorePending _ _ rels => 2 + 2 * length rels
  end.

Definition range_measure (g0 : Depsgraph) (st : RangeState) : nat :=
  sum_list_with (λ i, 5 + 2 * length (inlinks (node_at g0 i))) (rs_next st) +
  sum_list_with (call_weight g0) (in_flight st).

Definition range_next_choice (st : RangeState) : option RangeChoice :=
  match list_find (λ t, t ≠ None) (rs_threads st) with
  | Some (tid, _) => Some (RunCall tid)
  | None => match rs_next st with
            | _ :: _ => Some (TakeIndex 0 0)
            | [] => None
            end
  end.

Fixpoint range_default_schedule (layers : Z) (fuel : nat) (st : RangeState)
    : list RangeChoice :=
  match fuel with
  | 0 => []
  | S fuel =>
      match range_next_choice st with
      | Some c =>
          match range_step layers c st with
          | Some st' => c :: range_default_schedule layers fuel st'
          | None => []
          end
      | None => []
      end
  end.

(** ** The invariant of a pass *)

(** The instructions of a state, the tasks of the pool seen as calls of
    [deg_task_run_func] that have not begun. *)
Definition all_instrs (st : PassState) : list Instr :=
  (ITaskEntry <$> ps_pool st) ++ mjoin (ps_threads st).

(** A decrement of [num_links_pending] that is still to come is a token for
    its target: one per relation without [DEPSREL_FLAG_CYCLIC] whose source
    takes part in the pass. *)
Definition rel_token (r : DepsRelation) : list nat :=
  if non_cyclic r then [rel_to r] else [].

Definition node_tokens (g0 : Depsgraph) (p : nat) : list nat :=
  outlinks (node_at g0 p) ≫= rel_token.

(** Tokens in the hands of a thread. *)
Definition instr_tokens (g0 : Depsgraph) (i : Instr) : list nat :=
  match i with
  | IScheduleNode c true => [c]
  | IScheduleChildren rs => rs ≫= rel_token
  | ITaskEntry p | ITaskLoop p | ITaskLinks p => node_tokens g0 p
  | ITaskDec r => rel_token r
  | _ => []
  end.

(** Tokens of the nodes that take part and are not claimed yet. *)
Definition unclaimed_tokens (layers : Z) (rels : list DepsRelation)
    (g : Depsgraph) : list nat :=
  rels ≫= (λ r,
    match rel_from r with
    | OperationPtr p =>
        if eligible layers (node_at g p) && negb (sched g p)
        then rel_token r else []
    | OtherPtr => []
    end).

(** Calls of [evaluate] that are still to come. *)
Definition instr_runs (g0 : Depsgraph) (i : Instr) : list nat :=
  match i with
  | ITaskEntry c | ITaskLoop c => if is_noop (node_at g0 c) then [] else [c]
  | _ => []
  end.

(** The nodes a thread is about to test for readiness. *)
Definition instr_watch (i : Instr) : list nat :=
  match i with
  | IScheduleGraph rest => rest
  | IScheduleNode c _ | INodePending c | INodeClaim c
  | ITaskPending c | ITaskClaim c => [c]
  | _ => []
  end.

(** What a thread knows at each point. *)
Definition instr_ok (layers : Z) (g0 g : Depsgraph) (i : Instr) : Prop :=
  match i with
  | INodePending c | ITaskPending c => eligible layers (node_at g0 c) = true
  | INodeClaim c | ITaskClaim c =>
      eligible layers (node_at g0 c) = true ∧ pend g c = 0%Z
  | ITaskDec r => eligible layers (node_at g0 (rel_to r)) = true
  | ITaskEntry c => sched g c = true ∧ is_noop (node_at g0 c) = false
  | ITaskLoop c | ITaskLinks c => sched g c = true
  | _ => True
  end.

Record Inv (layers : Z) (g0 : Depsgraph) (rels : list DepsRelation)
    (g : Depsgraph) (I : list Instr) (t : list Event) : Prop := {
  inv_static : ∀ c, same_static (node_at g0 c) (node_at g c);
  inv_range : ∀ c, (0 ≤ pend g c < 2 ^ 32)%Z;
  inv_sched_eligible : ∀ c, sched g c = true → eligible layers (node_at g0 c) = true;
  inv_sched_zero : ∀ c, sched g c = true → pend g c = 0%Z;
  inv_idle : ∀ c, eligible layers (node_at g0 c) = false → pend g c = 0%Z;
  inv_tokens : ∀ c, eligible layers (node_at g0 c) = true →
    pend g c = Z.of_nat (count c (unclaimed_tokens layers rels g ++ (I ≫= instr_tokens g0)));
  inv_instrs : Forall (instr_ok layers g0 g) I;
  inv_runs : ∀ c,
    count c (I ≫= instr_runs g0) + count (EvEvaluate c) t =
    if sched g c && negb (is_noop (node_at g0 c)) then 1 else 0;
  inv_watch : ∀ c, eligible layers (node_at g0 c) = true →
    sched g c = true ∨ (0 < pend g c)%Z ∨ c ∈ I ≫= instr_watch;
  inv_asserts : ∀ a c, EvAssertFailed a c ∉ t;
  inv_pushed : ∀ c, EvPush c ∈ t →
    sched g c = true ∧ is_noop (node_at g0 c) = false;
}.

(** The part of the invariant that asks nothing of the graph.  [g1] is the
    graph at the start of [schedule_graph]. *)
Definition instr_checked (layers : Z) (g1 g : Depsgraph) (i : Instr) : Prop :=
  match i with
  | INodePending c | ITaskPending c | INodeClaim c | ITaskClaim c =>
      eligible layers (node_at g1 c) = true
  | ITaskDec r => eligible layers (node_at g1 (rel_to r)) = true
  | ITaskEntry c => sched g c = true ∧ is_noop (node_at g1 c) = false
  | ITaskLoop c | ITaskLinks c => sched g c = true
  | _ => True
  end.

Record Basic (layers : Z) (g1 g : Depsgraph) (I : list Instr) (t : list Event)
    : Prop := {
  basic_static : ∀ c, same_static (node_at g1 c) (node_at g c);
  basic_sched : ∀ c, sched g c = true → eligible layers (node_at g1 c) = true;
  basic_idle : ∀ c, eligible layers (node_at g1 c) = false → node_at g c = node_at g1 c;
  basic_instrs : Forall (instr_checked layers g1 g) I;
  basic_evaluated : ∀ c, EvEvaluate c ∈ t →
    sched g c = true ∧ is_noop (node_at g1 c) = false;
  basic_pushed : ∀ c, EvPush c ∈ t →
    sched g c = true ∧ is_noop (node_at g1 c) = false;
  basic_asserts : ∀ c,
    (EvAssertFailed AssertNotNoop c ∉ t) ∧ (EvAssertFailed AssertEvaluate c ∉ t);
}.

(** The trace respects the dependencies: when [c] is pushed or evaluated,
    every node it waits for has been evaluated, if it has a callback. *)
Definition ordered (layers : Z) (g0 : Depsgraph) (t : list Event) : Prop :=
  ∀ k e c p,
    t !! k = Some e → e = EvPush c ∨ e = EvEvaluate c →
    waits_for layers g0 c p → is_noop (node_at g0 p) = false →
    ∃ j, j < k ∧ t !! j = Some (EvEvaluate p).

(** The invariants on a state of the pass. *)
Definition state_inv (layers : Z) (g0 : Depsgraph) (rels : list DepsRelation)
    (st : PassState) : Prop :=
  Inv layers g0 rels (ps_graph st) (all_instrs st) (ps_trace st).

Definition state_ordered (layers : Z) (g0 : Depsgraph) (rels : list DepsRelation)
    (st : PassState) : Prop :=
  state_inv layers g0 rels st ∧ ordered layers g0 (ps_trace st).

Definition state_basic (layers : Z) (g1 : Depsgraph) (st : PassState) : Prop :=
  Basic layers g1 (ps_graph st) (all_instrs st) (ps_trace st).

(** A call of [deg_task_run_func] is the whole stack of its thread: the
    function is only entered as a task of the pool. *)
Definition is_task_instr (i : Instr) : bool :=
  match i with
  | ITaskEntry _ | ITaskLoop _ | ITaskLinks _ | ITaskDec _
  | ITaskPending _ | ITaskClaim _ => true
  | _ => false
  end.

Definition thread_shape (k : list Instr) : Prop :=
  (∃ i, k = [i]) ∨ Forall (λ j, is_task_instr j = false) k.

(** ** A measure that every step decreases *)

Definition max_out (g0 : Depsgraph) : nat :=
  foldr Nat.max 0 (length ∘ outlinks <$> operations g0).

Definition instr_weight (g0 : Depsgraph) (i : Instr) : nat :=
  match i with
  | IScheduleGraph rest => 1 + 4 * length rest
  | IScheduleNode _ _ => 3
  | INodePending _ => 2
  | INodeClaim _ => 1
  | IScheduleChildren rs => 1 + 4 * length rs
  | ITaskEntry c => 6 + 4 * length (outlinks (node_at g0 c))
  | ITaskLoop c => 5 + 4 * length (outlinks (node_at g0 c))
  | ITaskLinks c => 4 + 4 * length (outlinks (node_at g0 c))
  | ITaskDec _ => 3
  | ITaskPending _ => 2
  | ITaskClaim _ => 1
  end.

Definition unclaimed (g : Depsgraph) : nat :=
  length (filter (λ n, scheduled n = false) (operations g)).

Definition measure (g0 g : Depsgraph) (I : list Instr) : nat :=
  (8 + 4 * max_out g0) * unclaimed g + sum_list_with (instr_weight g0) I.

Definition pass_measure (g0 : Depsgraph) (st : PassState) : nat :=
  measure g0 (ps_graph st) (all_instrs st) + length (ps_pool st).

(** The graph at the start of [schedule_graph]. *)
Definition pass_start (layers : Z) (g0 : Depsgraph) (order : list nat) : Depsgraph :=
  clear_done (calculate_pending_parents order g0 layers).

(** A scheduler that always finds a move while one is left. *)
Definition next_choice (st : PassState) : option Choice :=
  match list_find (λ k, k ≠ []) (ps_threads st) with
  | Some (tid, _) => Some (RunThread tid)
  | None => match ps_pool st with
            | _ :: _ => Some (StartTask 0)
            | [] => None
            end
  end.

Fixpoint default_schedule (layers : Z) (fuel : nat) (st : PassState) : list Choice :=
  match fuel with
  | 0 => []
  | S fuel =>
      match next_choice st with
      | Some c =>
          match sched_step layers c st with
          | Some st' => c :: default_schedule layers fuel st'
          | None => []
          end
      | None => []
      end
  end.

(** ** What the scheduler reads of a graph *)

(** The scheduler reads a relation for its ends and for whether it carries
    [DEPSREL_FLAG_CYCLIC]; it reads a node for whether it takes part in the
    pass, whether a callback is bound to it, its two scheduling fields and
    its relations.  The skeleton of a graph keeps that and nothing else. *)
Definition skel_rel (r : DepsRelation) : DepsRelation :=
  {| rel_from := rel_from r; rel_to := rel_to r;
     rel_flag := if non_cyclic r then 0 else DEPSREL_FLAG_CYCLIC |}.

Definition skel_node (layers : Z) (n : OperationDepsNode) : OperationDepsNode :=
  {| op_owner :=
       {| comp_owner := {| id_layers := if eligible layers n then 1 else 0 |} |};
     op_flag := if eligible layers n then DEPSOP_FLAG_NEEDS_UPDATE else 0;
     evaluate := match evaluate n with
                 | Some _ => Some {| cb_id := 0 |}
                 | None => None
                 end;
     num_links_pending := num_links_pending n; scheduled := scheduled n;
     op_done := op_done n;
     inlinks := skel_rel <$> inlinks n; outlinks := skel_rel <$> outlinks n |}.

Definition skel_graph (layers : Z) (g : Depsgraph) : Depsgraph :=
  {| operations := skel_node layers <$> operations g; entry_tags := [];
     time_source := None; graph_layers := 0 |}.

Definition skel_instr (i : Instr) : Instr :=
  match i with
  | IScheduleChildren rs => IScheduleChildren (skel_rel <$> rs)
  | ITaskDec r => ITaskDec (skel_rel r)
  | _ => i
  end.

Definition skel_state (layers : Z) (st : PassState) : PassState :=
  {| ps_graph := skel_graph layers (ps_graph st); ps_pool := ps_pool st;
     ps_threads := (λ k : list Instr, skel_instr <$> k) <$> ps_threads st;
     ps_trace := ps_trace st |}.

Definition skel_result (layers : Z) (r : StepResult) : StepResult :=
  {| sr_graph := skel_graph layers (sr_graph r); sr_cont := skel_instr <$> sr_cont r;
     sr_push := sr_push r; sr_events := sr_events r |}.

(** ** Graphs of the examples *)

Definition mk_relation (from to : nat) (flag : Z) : DepsRelation :=
  {| rel_from := OperationPtr from; rel_to := to; rel_flag := flag |}.

Definition with_links (ins outs : list DepsRelation) (n : OperationDepsNode)
    : OperationDepsNode :=
  {| op_owner := op_owner n; op_flag := op_flag n; evaluate := evaluate n;
     num_links_pending := num_links_pending n; scheduled := scheduled n;
     op_done := op_done n; inlinks := ins; outlinks := outs |}.

(** A node on layer 1 with flag [flag], whose scheduling fields are stale
    from an earlier pass. *)
Definition stale_node (flag : Z) (cb : option nat) (ins outs : list DepsRelation)
    : OperationDepsNode :=
  {| op_owner := {| comp_owner := {| id_layers := 1 |} |};
     op_flag := flag;
     evaluate := (λ i, {| cb_id := i |}) <$> cb;
     num_links_pending := 5; scheduled := true; op_done := 1;
     inlinks := ins; outlinks := outs |}.

Definition tagged_node := stale_node DEPSOP_FLAG_NEEDS_UPDATE.

Definition graph_of (ops : list OperationDepsNode) : Depsgraph :=
  {| operations := ops; entry_tags := [0];
     time_source := Some {| cfra := 1 |}; graph_layers := 1 |}.

Definition some_context : EvaluationContext := {| mode := 0; ctime := 0 |}.

(** A -> B -> C -> D *)
Definition chain4_rels : list DepsRelation :=
  [mk_relation 0 1 0; mk_relation 1 2 0; mk_relation 2 3 0].

Definition chain4 : Depsgraph :=
  graph_of [tagged_node (Some 0) [] [mk_relation 0 1 0];
            tagged_node (Some 1) [mk_relation 0 1 0] [mk_relation 1 2 0];
            tagged_node (Some 2) [mk_relation 1 2 0] [mk_relation 2 3 0];
            tagged_node (Some 3) [mk_relation 2 3 0] []].

(** A -> B -> C -> D on any four nodes [a], [b], [c], [d] of any graph
    [g]. *)
Definition chain (a b c d : OperationDepsNode) (flag_ab flag_bc flag_cd : Z)
    (g : Depsgraph) : Depsgraph :=
  set_operations
    [with_links [] [mk_relation 0 1 flag_ab] a;
     with_links [mk_relation 0 1 flag_ab] [mk_relation 1 2 flag_bc] b;
     with_links [mk_relation 1 2 flag_bc] [mk_relation 2 3 flag_cd] c;
     with_links [mk_relation 2 3 flag_cd] [] d] g.

(** A -> B, A -> C, B -> D, C -> D *)
Definition diamond_rels : list DepsRelation :=
  [mk_relation 0 1 0; mk_relation 0 2 0; mk_relation 1 3 0; mk_relation 2 3 0].

Definition diamond4 : Depsgraph :=
  graph_of [tagged_node (Some 0) [] [mk_relation 0 1 0; mk_relation 0 2 0];
            tagged_node (Some 1) [mk_relation 0 1 0] [mk_relation 1 3 0];
            tagged_node (Some 2) [mk_relation 0 2 0] [mk_relation 2 3 0];
            tagged_node (Some 3) [mk_relation 1 3 0; mk_relation 2 3 0] []].

(** A star of 300 operations, enough for the pre-pass to use threads:
    operation 0 feeds every other one. *)
Definition star : Depsgraph :=
  graph_of (tagged_node (Some 0) [] ((λ i, mk_relation 0 i 0) <$> seq 1 299) ::
            ((λ i, tagged_node (Some i) [mk_relation 0 i 0] []) <$> seq 1 299)).

(** A -> B where B is a NOOP *)
Definition noop_chain : Depsgraph :=
  graph_of [tagged_node (Some 0) [] [mk_relation 0 1 0];
            tagged_node None [mk_relation 0 1 0] []].

(** A -> B where B is on layer 2, tagged or not *)
Definition off_layer (flag : Z) : Depsgraph :=
  graph_of [tagged_node (Some 0) [] [mk_relation 0 1 0];
            {| op_owner := {| comp_owner := {| id_layers := 2 |} |};
               op_flag := flag; evaluate := Some {| cb_id := 1 |};
               num_links_pending := 5; scheduled := false; op_done := 1;
               inlinks := [mk_relation 0 1 0]; outlinks := [] |}].

(** A <-> B: two nodes [a] and [b] of any graph [g], joined by a relation
    each way. *)
Definition two_cycle (a b : OperationDepsNode) (flag_ab flag_ba : Z)
    (g : Depsgraph) : Depsgraph :=
  set_operations
    [with_links [mk_relation 1 0 flag_ba] [mk_relation 0 1 flag_ab] a;
     with_links [mk_relation 0 1 flag_ab] [mk_relation 1 0 flag_ba] b] g.

(** The calling thread runs [schedule_graph] to its end before any worker
    takes a task. *)
Definition seeds_first (layers : Z) (st0 : PassState) (schedule : list Choice) : Prop :=
  ∃ n rest st1,
    schedule = replicate n (RunThread 0) ++ rest ∧
    run_schedule layers (replicate n (RunThread 0)) st0 = Some st1 ∧
    ps_threads st1 !! 0 = Some [].

(** All the runs from a state, by enumeration. *)
Definition choices (st : PassState) : list Choice :=
  (RunThread <$> seq 0 (length (ps_threads st))) ++
  (StartTask <$> seq 0 (length (ps_pool st))).

Definition successors (layers : Z) (st : PassState) : list PassState :=
  omap (λ c, sched_step layers c st) (choices st).

Fixpoint all_runs (layers : Z) (fuel : nat) (P : PassState → bool)
    (st : PassState) : bool :=
  match fuel with
  | 0 => false
  | S fuel =>
      match successors layers st with
      | [] => P st
      | sts => forallb (all_runs layers fuel P) sts
      end
  end.

(** The tasks pushed and the callbacks run, in order. *)
Definition pushed (t : list Event) : list nat :=
  t ≫= (λ e, match e with EvPush c => [c] | _ => [] end).

Definition evaluated (t : list Event) : list nat :=
  t ≫= (λ e, match e with EvEvaluate c => [c] | _ => [] end).

(** The skeleton of the chain at the start of [schedule_graph], the state
    after [schedule_graph] has run alone, and what is expected of the runs
    from there. *)
Definition chain4_skeleton : PassState :=
  skel_state 1 (schedule_graph (pass_start 1 chain4 [])).

Definition chain4_seeded : option PassState :=
  run_schedule 1 (replicate 14 (RunThread 0)) chain4_skeleton.

Definition one_worker_ran_chain (st : PassState) : bool :=
  bool_decide (pushed (ps_trace st) = [0] ∧ evaluated (ps_trace st) = [0; 1; 2; 3]).

(** ** Vocabulary of the further properties *)

(** On any graph: what is counted of the calls of [evaluate] and of the
    pushes. *)
Record Once (layers : Z) (g1 g : Depsgraph) (I : list Instr) (t : list Event)
    : Prop := {
  once_basic : Basic layers g1 g I t;
  once_runs : ∀ c,
    count c (I ≫= instr_runs g1) + count (EvEvaluate c) t =
    if sched g c && negb (is_noop (node_at g1 c)) then 1 else 0;
  once_pushes : ∀ c, count (EvPush c) t ≤ if sched g c then 1 else 0;
}.

Definition state_once (layers : Z) (g1 : Depsgraph) (st : PassState) : Prop :=
  Once layers g1 (ps_graph st) (all_instrs st) (ps_trace st).

(** What a complete pass leaves in a node: the count at zero, the node
    claimed when it takes part in the pass, [done] cleared. *)
Definition finished_node (layers : Z) (n : OperationDepsNode) : OperationDepsNode :=
  set_done 0 (set_scheduled (eligible layers n) (set_num_links_pending 0 n)).

Definition finished_graph (layers : Z) (g : Depsgraph) : Depsgraph :=
  set_operations (finished_node layers <$> operations g) g.

(** A set of nodes that take part in the pass, each of which waits for a
    node of the set: the relations between them close a cycle (or more) and
    none of these carries [DEPSREL_FLAG_CYCLIC]. *)
Definition wait_cycle (layers : Z) (g : Depsgraph) (S : list nat) : Prop :=
  Forall (λ c, eligible layers (node_at g c) = true ∧
               Exists (λ p, waits_for layers g c p) S) S.

(** ** Evaluation context *)



(** ** The switch between the legacy and the new dependency graph *)

(** The preprocessor symbols the three functions are compiled under. *)
Record BuildOptions := {
  DISABLE_NEW_DEPSGRAPH : bool;
  WITH_LEGACY_DEPSGRAPH : bool;
}.

(** The functions act on [static bool use_legacy_depsgraph], which starts
    at [true]; each returns, besides its result, whether
    [BLI_assert(!"Should not be used with new depsgraph")] was reached. *)
Definition DEG_depsgraph_use_legacy (opts : BuildOptions)
    (use_legacy_depsgraph : bool) : bool * bool :=
  if DISABLE_NEW_DEPSGRAPH opts then (true, false)
  else if WITH_LEGACY_DEPSGRAPH opts then (use_legacy_depsgraph, false)
  else (false, true).

Definition DEG_depsgraph_switch_to_legacy (opts : BuildOptions)
    (use_legacy_depsgraph : bool) : bool * bool :=
  if WITH_LEGACY_DEPSGRAPH opts then (true, false)
  else (use_legacy_depsgraph, true).

Definition DEG_depsgraph_switch_to_new (opts : BuildOptions)
    (use_legacy_depsgraph : bool) : bool * bool :=
  if WITH_LEGACY_DEPSGRAPH opts then (false, false)
  else (use_legacy_depsgraph, true).

(** A sequence of calls of the two switches. *)
Inductive Switch := ToLegacy | ToNew.

Definition switch (opts : BuildOptions) (use_legacy_depsgraph : bool) (s : Switch)
    : bool :=
  match s with
  | ToLegacy => (DEG_depsgraph_switch_to_legacy opts use_legacy_depsgraph).1
  | ToNew => (DEG_depsgraph_switch_to_new opts use_legacy_depsgraph).1
  end.

Definition switches (opts : BuildOptions) (calls : list Switch) : bool :=
  fold_left (switch opts) calls true.

(** ** More graphs for the examples *)

(** A -> B where B does not hold the relation among its [inlinks] *)
Definition half_linked : Depsgraph :=
  graph_of [tagged_node (Some 0) [] [mk_relation 0 1 0];
            tagged_node (Some 1) [] []].

(** A -> B -> C -> D on layers 4 and 8, with other callbacks and other bits
    in the flags of the nodes and of the relations. *)
Definition other_node (cb : nat) : OperationDepsNode :=
  {| op_owner := {| comp_owner := {| id_layers := 12 |} |};
     op_flag := 3; evaluate := Some {| cb_id := cb |};
     num_links_pending := 5; scheduled := true; op_done := 1;
     inlinks := []; outlinks := [] |}.

Definition chain4_other : Depsgraph :=
  chain (other_node 10) (other_node 11) (other_node 12) (other_node 13) 2 4 6
    (graph_of []).

(** A <-> B, neither relation flagged *)
Definition unflagged_cycle : Depsgraph :=
  two_cycle (tagged_node (Some 0) [] []) (tagged_node (Some 1) [] []) 0 0 (graph_of []).

(** * Proofs *)

(** ** Nodes and their updates *)

Lemma node_at_lookup g i n : operations g !! i = Some n → node_at g i = n.
Proof. unfold node_at. by intros ->. Qed.

Lemma node_at_blank g i : operations g !! i = None → node_at g i = blank_node.
Proof. unfold node_at. by intros ->. Qed.

Lemma needs_update_in_range g i :
  needs_update (node_at g i) = true → i < length (operations g).
Proof.
  intros H. apply lookup_lt_is_Some.
  destruct (operations g !! i) eqn:E; [eauto|].
  by rewrite (node_at_blank _ _ E) in H.
Qed.

Lemma eligible_in_range layers g i :
  eligible layers (node_at g i) = true → i < length (operations g).
Proof. intros [H _]%andb_true_iff. by apply needs_update_in_range. Qed.

Lemma eligible_comm layers n :
  in_layers layers n && needs_update n = eligible layers n.
Proof. apply andb_comm. Qed.

Lemma node_at_update_ne g i j f : i ≠ j → node_at (update_node g i f) j = node_at g j.
Proof. intros. unfold node_at, update_node. simpl. by rewrite list_lookup_alter_ne. Qed.

Lemma node_at_update_eq g i f :
  i < length (operations g) → node_at (update_node g i f) i = f (node_at g i).
Proof.
  intros [n Hn]%lookup_lt_is_Some. unfold node_at, update_node. simpl.
  by rewrite list_lookup_alter_eq, Hn.
Qed.

Lemma length_update_node g i f :
  length (operations (update_node g i f)) = length (operations g).
Proof. apply length_alter. Qed.

Lemma same_static_refl n : same_static n n.
Proof. by repeat split. Qed.

Lemma same_static_trans n1 n2 n3 :
  same_static n1 n2 → same_static n2 n3 → same_static n1 n3.
Proof. unfold same_static. intros (?&?&?&?&?) (?&?&?&?&?). repeat split; congruence. Qed.

Lemma same_static_sym n1 n2 : same_static n1 n2 → same_static n2 n1.
Proof. unfold same_static. intros (?&?&?&?&?). repeat split; congruence. Qed.

Lemma same_static_eligible layers n n' :
  same_static n n' → eligible layers n' = eligible layers n.
Proof.
  intros (Ho&Hf&_). unfold eligible, needs_update, in_layers. by rewrite Ho, Hf.
Qed.

Lemma same_static_noop n n' : same_static n n' → is_noop n' = is_noop n.
Proof. intros (_&_&He&_). unfold is_noop. by rewrite He. Qed.

Lemma same_static_update g i f :
  (∀ n, same_static n (f n)) →
  ∀ c, same_static (node_at g c) (node_at (update_node g i f) c).
Proof.
  intros Hf c. destruct (decide (i = c)) as [->|Hne].
  - unfold node_at, update_node. simpl. rewrite list_lookup_alter_eq.
    destruct (operations g !! c); simpl; [apply Hf|apply same_static_refl].
  - rewrite node_at_update_ne by done. apply same_static_refl.
Qed.

Lemma atomic_sub_static n : same_static n (atomic_sub_pending n).
Proof. by repeat split. Qed.

Lemma atomic_or_static n : same_static n (atomic_or_scheduled n).
Proof. by repeat split. Qed.

Lemma uint32_range z : (0 ≤ uint32 z < 2 ^ 32)%Z.
Proof. unfold uint32. apply Z.mod_pos_bound. lia. Qed.

Lemma uint32_small z : (0 ≤ z < 2 ^ 32)%Z → uint32 z = z.
Proof. unfold uint32. intros. by apply Z.mod_small. Qed.

(** ** Counting *)

Lemma count_nil `{EqDecision A} (x : A) : count x [] = 0.
Proof. done. Qed.

Lemma count_app `{EqDecision A} (x : A) l1 l2 :
  count x (l1 ++ l2) = count x l1 + count x l2.
Proof. unfold count. by rewrite filter_app, length_app. Qed.

Lemma count_cons `{EqDecision A} (x y : A) l :
  count x (y :: l) = (if decide (y = x) then 1 else 0) + count x l.
Proof. unfold count. rewrite filter_cons. by case_decide. Qed.

Lemma count_singleton `{EqDecision A} (x y : A) :
  count x [y] = if decide (y = x) then 1 else 0.
Proof. rewrite count_cons, count_nil. lia. Qed.

#[global] Instance count_perm `{EqDecision A} (x : A) :
  Proper ((≡ₚ) ==> (=)) (count x).
Proof. intros l1 l2 H. unfold count. by rewrite H. Qed.

Lemma count_pos `{EqDecision A} (x : A) l : 0 < count x l ↔ x ∈ l.
Proof.
  unfold count. split.
  - intros H. destruct (filter (λ y, y = x) l) as [|y l'] eqn:E; [simpl in H; lia|].
    assert (y ∈ filter (λ y, y = x) l) as [-> ?]%list_elem_of_filter; [|done].
    rewrite E. left.
  - intros H. assert (x ∈ filter (λ y, y = x) l) as H' by by apply list_elem_of_filter.
    destruct (filter (λ y, y = x) l); [by apply elem_of_nil in H'|simpl; lia].
Qed.

Lemma count_zero `{EqDecision A} (x : A) l : count x l = 0 ↔ x ∉ l.
Proof. rewrite <-count_pos. lia. Qed.

(** ** The readiness pre-pass *)

Lemma counts_as_pending_spec layers g r :
  counts_as_pending layers g r = true ↔ counted_relation layers g r.
Proof.
  unfold counts_as_pending, counted_relation.
  destruct (rel_from r); [|naive_solver].
  rewrite eligible_comm, andb_true_iff. done.
Qed.

Lemma counted_relation_static layers g g' r :
  (∀ c, same_static (node_at g c) (node_at g' c)) →
  counted_relation layers g' r ↔ counted_relation layers g r.
Proof.
  intros H. unfold counted_relation. destruct (rel_from r); [|done].
  by rewrite (same_static_eligible _ _ _ (H i)).
Qed.

Lemma prepass_node_static_graph layers g g' n :
  (∀ c, same_static (node_at g c) (node_at g' c)) →
  prepass_node layers g' n = prepass_node layers g n.
Proof.
  intros H. unfold prepass_node, prepass_pending. do 3 f_equal.
  destruct (eligible layers n); [|done]. do 2 f_equal.
  apply list_filter_iff. intros r. by apply counted_relation_static.
Qed.

Lemma prepass_node_static layers g n : same_static n (prepass_node layers g n).
Proof. by repeat split. Qed.

Lemma prepass_node_idemp layers g n :
  prepass_node layers g (prepass_node layers g n) = prepass_node layers g n.
Proof. done. Qed.

Lemma fold_count_pending layers g inl node :
  let F := λ node rel,
    if counts_as_pending layers g rel
    then set_num_links_pending (uint32 (num_links_pending node + 1)) node
    else node in
  (0 ≤ num_links_pending node < 2 ^ 32)%Z →
  fold_left F inl node =
  set_num_links_pending
    (uint32 (num_links_pending node +
             Z.of_nat (length (filter (counted_relation layers g) inl)))) node.
Proof.
  intros F. revert node. induction inl as [|r inl IH]; intros node Hr.
  - simpl. rewrite Z.add_0_r, uint32_small by done. by destruct node.
  - simpl. rewrite filter_cons. unfold F at 2.
    destruct (counts_as_pending layers g r) eqn:E.
    + rewrite decide_True by by apply counts_as_pending_spec.
      rewrite IH by apply uint32_range. simpl.
      unfold set_num_links_pending; simpl. f_equal.
      unfold uint32. rewrite Z.add_mod_idemp_l by lia. f_equal. lia.
    + rewrite decide_False; [by apply IH|].
      rewrite <-counts_as_pending_spec. by rewrite E.
Qed.

Lemma calculate_pending_func_eq layers g i :
  calculate_pending_func layers g i = update_node g i (prepass_node layers g).
Proof.
  unfold calculate_pending_func, update_node. f_equal.
  apply list_alter_ext; [|done..]. intros n Hn.
  rewrite (node_at_lookup _ _ _ Hn).
  unfold prepass_node, prepass_pending.
  rewrite eligible_comm.
  rewrite (same_static_eligible layers n (set_scheduled false (set_num_links_pending 0 n)))
    by by repeat split.
  destruct (eligible layers n); [|done].
  rewrite fold_count_pending by (simpl; lia). done.
Qed.

Lemma prepass_fold_lookup layers g l j :
  operations (fold_left (calculate_pending_func layers) l g) !! j =
  (if decide (j ∈ l) then prepass_node layers g else id) <$> operations g !! j.
Proof.
  revert j. induction l as [|i l IH] using rev_ind; intros j.
  - simpl. by destruct (operations g !! j).
  - rewrite fold_left_app. cbn [fold_left]. rewrite calculate_pending_func_eq.
    set (g' := fold_left _ l g) in *.
    assert (∀ c, same_static (node_at g c) (node_at g' c)) as Hst.
    { intros c. unfold node_at. rewrite IH.
      destruct (operations g !! c); simpl; [|apply same_static_refl].
      case_decide; [apply prepass_node_static|apply same_static_refl]. }
    unfold update_node; cbn [operations set_operations].
    rewrite (list_alter_ext _ (prepass_node layers g) _ (operations g') i)
      by (intros; by apply prepass_node_static_graph || done).
    destruct (decide (i = j)) as [->|Hne].
    + rewrite list_lookup_alter_eq, IH.
      destruct (decide (j ∈ l ++ [j])) as [_|[]]; [|set_solver].
      destruct (operations g !! j); simpl; [|done].
      destruct (decide (j ∈ l)); by rewrite ?prepass_node_idemp.
    + rewrite list_lookup_alter_ne, IH by done.
      destruct (decide (j ∈ l)), (decide (j ∈ l ++ [i])); set_solver.
Qed.

Lemma prepass_operations layers g order :
  order ≡ₚ seq 0 (length (operations g)) →
  operations (calculate_pending_parents order g layers) =
  prepass_node layers g <$> operations g.
Proof.
  intros Hperm. unfold calculate_pending_parents, BLI_task_parallel_range.
  apply list_eq. intros j. rewrite prepass_fold_lookup, list_lookup_fmap.
  destruct (operations g !! j) eqn:E; [simpl|done].
  apply lookup_lt_Some in E. rewrite decide_True; [done|].
  destruct (256 <? _).
  - rewrite Hperm. apply elem_of_seq. lia.
  - apply elem_of_seq. lia.
Qed.

Lemma prepass_fields layers g l :
  entry_tags (fold_left (calculate_pending_func layers) l g) = entry_tags g ∧
  time_source (fold_left (calculate_pending_func layers) l g) = time_source g ∧
  graph_layers (fold_left (calculate_pending_func layers) l g) = graph_layers g.
Proof. revert g. induction l as [|i l IH]; intros g; [done|]. simpl. by rewrite !(proj1 (IH _)), !(proj1 (proj2 (IH _))), !(proj2 (proj2 (IH _))). Qed.

Lemma prepass_graph layers g order :
  order ≡ₚ seq 0 (length (operations g)) →
  calculate_pending_parents order g layers =
  set_operations (prepass_node layers g <$> operations g) g.
Proof.
  intros Hperm. pose proof (prepass_operations layers g order Hperm) as Hops.
  unfold calculate_pending_parents, BLI_task_parallel_range in *.
  destruct (prepass_fields layers g
    (if 256 <? length (operations g) then order
     else seq 0 (length (operations g) - 0))) as (H1&H2&H3).
  destruct (fold_left _ _ g) as [ops tags ts ly]. simpl in *. subst.
  done.
Qed.

(** ** The pre-pass on threads *)

Lemma calculate_pending_func_finish layers g i :
  calculate_pending_func layers g i =
  update_node g i (λ _, finish_call layers g (PZeroPending i) (node_at g i)).
Proof. reflexivity. Qed.

Lemma finish_call_prepass layers g i :
  i < length (operations g) →
  finish_call layers g (PZeroPending i) (node_at g i) =
  prepass_node layers g (node_at g i).
Proof.
  intros Hi.
  pose proof (calculate_pending_func_eq layers g i) as H.
  rewrite calculate_pending_func_finish in H.
  apply (f_equal (λ g, node_at g i)) in H.
  by rewrite !node_at_update_eq in H.
Qed.

Lemma counts_as_pending_static layers g g' r :
  (∀ c, same_static (node_at g c) (node_at g' c)) →
  counts_as_pending layers g' r = counts_as_pending layers g r.
Proof.
  intros H. unfold counts_as_pending. destruct (rel_from r) as [f|]; [|done].
  rewrite !eligible_comm. by rewrite (same_static_eligible _ _ _ (H f)).
Qed.

Lemma threads_run (ts : list (option PendingInstr)) tid p new :
  ts !! tid = Some (Some p) →
  ∃ R, ts ≫= option_list ≡ₚ p :: R ∧
       <[tid := new]> ts ≫= option_list ≡ₚ option_list new ++ R.
Proof.
  intros H. exists ((take tid ts ≫= option_list) ++ (drop (S tid) ts ≫= option_list)).
  rewrite insert_take_drop by (eapply lookup_lt_Some; eauto).
  rewrite <-(take_drop_middle _ _ _ H) at 1.
  rewrite !bind_app, !bind_cons. simpl. split; solve_Permutation.
Qed.

Lemma threads_take (ts : list (option PendingInstr)) tid p :
  ts !! tid = Some None →
  <[tid := Some p]> ts ≫= option_list ≡ₚ p :: (ts ≫= option_list).
Proof.
  intros H. rewrite insert_take_drop by (eapply lookup_lt_Some; eauto).
  rewrite <-(take_drop_middle _ _ _ H) at 3.
  rewrite !bind_app, !bind_cons. simpl. solve_Permutation.
Qed.

Section RangeInvariant.
Context (layers : Z) (g0 : Depsgraph).

Local Abbreviation target i := (prepass_node layers g0 (node_at g0 i)).

Lemma rinv_perm g next next' I I' :
  next ≡ₚ next' → I ≡ₚ I' →
  RangeInv layers g0 g next I → RangeInv layers g0 g next' I'.
Proof.
  intros Hn HI [].
  split; try done; try (by rewrite <-?Hn, <-?HI);
    intros i; rewrite <-?Hn, <-?HI; auto.
Qed.

Lemma rinv_change g g' next p R c :
  RangeInv layers g0 g next (p :: R) →
  set_operations [] g' = set_operations [] g →
  length (operations g') = length (operations g) →
  (∀ j, j ≠ pending_node p → node_at g' j = node_at g j) →
  same_static (node_at g (pending_node p)) (node_at g' (pending_node p)) →
  match c with
  | Some p' =>
      pending_node p' = pending_node p ∧
      finish_call layers g0 p' (node_at g' (pending_node p)) =
      finish_call layers g0 p (node_at g (pending_node p))
  | None =>
      node_at g' (pending_node p) =
      finish_call layers g0 p (node_at g (pending_node p))
  end →
  RangeInv layers g0 g' next (option_list c ++ R).
Proof.
  intros [Hf Hl Hs Hnd Hr Hn Hc Hd] Hf' Hl' Hother Hst Hcont.
  remember (pending_node p) as i eqn:Ei.
  rewrite fmap_cons, <-Ei in Hnd, Hr, Hd.
  apply NoDup_app in Hnd as (Hnd1 & Hnd2 & Hnd3).
  apply NoDup_cons in Hnd3 as [Hnd3 Hnd4].
  apply Forall_cons in Hc as [Hp HR]. rewrite <-Ei in Hp.
  assert (i ∉ next) as Hin by (intros H; apply (Hnd2 i H); left).
  assert (∀ q, q ∈ R → pending_node q ≠ i) as HRi.
  { intros q Hq Heq. apply Hnd3. rewrite <-Heq. by apply list_elem_of_fmap_2. }
  assert (pending_node <$> option_list c ++ R ⊆ i :: (pending_node <$> R)) as Hsub.
  { destruct c as [p'|]; simpl; [|set_solver].
    destruct Hcont as [-> _]. set_solver. }
  split.
  - congruence.
  - congruence.
  - intros c'. destruct (decide (c' = i)) as [->|Hne].
    + eapply same_static_trans; [apply Hs|apply Hst].
    + rewrite Hother by done. apply Hs.
  - apply NoDup_app. split; [done|]. split.
    + intros j Hj Hj'. apply Hsub in Hj'. by apply (Hnd2 j Hj).
    + destruct c as [p'|]; simpl; [|done].
      destruct Hcont as [-> _]. by apply NoDup_cons.
  - intros j Hj. apply Hr. set_solver.
  - intros j Hj. rewrite Hother; [by apply Hn|]. by intros ->.
  - apply Forall_app. split.
    + destruct c as [p'|]; simpl; [|done]. constructor; [|done].
      destruct Hcont as [Hi Hfin]. rewrite Hi, Hfin. apply Hp.
    + apply Forall_forall. intros q Hq. rewrite Forall_forall in HR.
      rewrite Hother by by apply HRi. by apply HR.
  - intros j Hj Hnot. destruct (decide (j = i)) as [->|Hne].
    + destruct c as [p'|]; simpl in *.
      * destruct Hcont as [Hi _]. exfalso. apply Hnot. rewrite Hi. set_solver.
      * by rewrite Hcont.
    + rewrite Hother by done. apply Hd; [done|]. set_solver.
Qed.

Lemma rinv_call g next p R :
  RangeInv layers g0 g next (p :: R) →
  RangeInv layers g0 (pending_step layers g p).1 next
    (option_list (pending_step layers g p).2 ++ R).
Proof.
  intros HI.
  assert (pending_node p < length (operations g)) as Hi.
  { rewrite (rinv_length _ _ _ _ _ HI). apply (rinv_range _ _ _ _ _ HI). set_solver. }
  assert (∀ r, counts_as_pending layers g r = counts_as_pending layers g0 r) as Hcnt.
  { intros r. apply counts_as_pending_static, HI. }
  assert (∀ f, (∀ n, same_static n (f n)) →
            ∀ j, j ≠ pending_node p →
              node_at (update_node g (pending_node p) f) j = node_at g j) as Hupd.
  { intros f _ j Hj. by apply node_at_update_ne. }
  destruct p as [i|i|i|i [|rel rest]|i v rest];
    cbn [pending_step pending_node] in *.
  1, 2, 6:
    eapply (rinv_change g _ next _ R (Some _)); [exact HI|try done..];
    cbn [fst snd pending_node];
    [by rewrite length_update_node|by apply Hupd|by rewrite node_at_update_eq|];
    split; [done|]; by rewrite node_at_update_eq.
  - destruct (in_layers layers (node_at g i) && needs_update (node_at g i)) eqn:E;
      cbn [fst snd].
    + eapply (rinv_change g _ next _ R (Some _)); [exact HI|try done..].
      split; [done|]. simpl. unfold count_links. by rewrite E.
    + eapply (rinv_change g _ next _ R None); [exact HI|try done..].
      simpl. unfold count_links. by rewrite E.
  - by eapply (rinv_change g _ next _ R None); [exact HI|try done..].
  - rewrite Hcnt. destruct (counts_as_pending layers g0 rel) eqn:E; cbn [fst snd].
    + eapply (rinv_change g _ next _ R (Some _)); [exact HI|try done..].
      split; [done|]. simpl. unfold count_link at 3. by rewrite E.
    + eapply (rinv_change g _ next _ R (Some _)); [exact HI|try done..].
      split; [done|]. simpl. unfold count_link at 3. by rewrite E.
Qed.
End RangeInvariant.

Lemma range_step_cases layers c st st' :
  range_step layers c st = Some st' →
  (∃ i, rs_next st ≡ₚ i :: rs_next st' ∧
        in_flight st' ≡ₚ PZeroPending i :: in_flight st ∧
        rs_graph st' = rs_graph st) ∨
  (∃ p R, in_flight st ≡ₚ p :: R ∧ rs_next st' = rs_next st ∧
          rs_graph st' = (pending_step layers (rs_graph st) p).1 ∧
          in_flight st' ≡ₚ option_list (pending_step layers (rs_graph st) p).2 ++ R).
Proof.
  destruct c as [tid slot|tid]; simpl.
  - destruct (rs_threads st !! tid) as [[p|]|] eqn:Et; try done.
    destruct (rs_next st !! slot) as [i|] eqn:Es; [|done].
    intros [= <-]. left. exists i. simpl. split; [|split; [|done]].
    + rewrite <-(take_drop_middle _ _ _ Es) at 1. rewrite delete_take_drop.
      solve_Permutation.
    + by apply threads_take.
  - destruct (rs_threads st !! tid) as [[p|]|] eqn:Et; try done.
    intros [= <-]. right.
    destruct (threads_run _ _ _ (pending_step layers (rs_graph st) p).2 Et)
      as (R & H1 & H2).
    by exists p, R.
Qed.

Section RangeRuns.
Context (layers : Z) (g0 : Depsgraph).

Lemma rinv_take g i next I :
  RangeInv layers g0 g (i :: next) I →
  RangeInv layers g0 g next (PZeroPending i :: I).
Proof.
  intros [Hf Hl Hs Hnd Hr Hn Hc Hd]. split; try done.
  - rewrite fmap_cons. simpl. by rewrite <-Permutation_middle.
  - intros j. rewrite fmap_cons. simpl. rewrite <-Permutation_middle. apply Hr.
  - intros j Hj. apply Hn. by right.
  - constructor; [|done]. simpl.
    rewrite (Hn i) by left. apply finish_call_prepass, Hr. left.
  - intros j Hj. rewrite fmap_cons. simpl. rewrite <-Permutation_middle. by apply Hd.
Qed.

Lemma range_inv_step c st st' :
  range_inv layers g0 st → range_step layers c st = Some st' →
  range_inv layers g0 st'.
Proof.
  unfold range_inv. intros HI [(i & Hn & Hf & ->)|(p & R & Hf & -> & -> & Hf')]%range_step_cases.
  - eapply rinv_perm; [done|symmetry; apply Hf|].
    apply rinv_take. by eapply rinv_perm; [apply Hn|done|].
  - eapply rinv_perm; [done|symmetry; apply Hf'|].
    apply rinv_call. by eapply rinv_perm; [done|apply Hf|].
Qed.

Lemma range_inv_run cs st st' :
  range_inv layers g0 st → range_run layers cs st = Some st' →
  range_inv layers g0 st'.
Proof.
  revert st. induction cs as [|c cs IH]; intros st HI; simpl; [by intros [= <-]|].
  destruct (range_step layers c st) as [st1|] eqn:E; [|done].
  apply IH. by eapply range_inv_step.
Qed.

Lemma in_flight_idle threads g next :
  in_flight {| rs_graph := g; rs_next := next; rs_threads := replicate threads None |} = [].
Proof. unfold in_flight. simpl. by induction threads. Qed.

Lemma range_inv_start threads :
  range_inv layers g0 (range_start threads g0).
Proof.
  unfold range_inv, range_start. rewrite in_flight_idle. simpl.
  split; try done.
  - rewrite app_nil_r. apply NoDup_seq.
  - intros i. rewrite app_nil_r, elem_of_seq. lia.
  - intros i Hi. rewrite app_nil_r, elem_of_seq. lia.
Qed.

Lemma in_flight_done st : range_done st → in_flight st = [].
Proof.
  intros [_ H]. unfold in_flight. induction H as [|t ts -> _ IH]; [done|].
  by rewrite bind_cons, IH.
Qed.

Lemma range_done_graph st :
  range_inv layers g0 st → range_done st →
  rs_graph st = set_operations (prepass_node layers g0 <$> operations g0) g0.
Proof.
  intros [Hf Hl _ _ _ _ _ Hd] Hdone. rewrite (in_flight_done _ Hdone) in Hd.
  rewrite (proj1 Hdone) in Hd.
  assert (operations (rs_graph st) = prepass_node layers g0 <$> operations g0) as Hops.
  { apply list_eq. intros i. rewrite list_lookup_fmap.
    destruct (decide (i < length (operations g0))) as [Hi|Hi].
    - specialize (Hd i Hi ltac:(set_solver)). unfold node_at in Hd.
      destruct (lookup_lt_is_Some_2 (operations g0) i Hi) as [n0 Hn0].
      destruct (lookup_lt_is_Some_2 (operations (rs_graph st)) i ltac:(lia)) as [n Hn].
      rewrite Hn0, Hn in *. simpl in *. by rewrite Hd.
    - rewrite !lookup_ge_None_2 by lia. done. }
  destruct (rs_graph st), g0. simpl in *. injection Hf as -> -> ->. by rewrite Hops.
Qed.

Lemma call_weight_step g next p R :
  RangeInv layers g0 g next (p :: R) →
  sum_list_with (call_weight g0) (option_list (pending_step layers g p).2) <
  call_weight g0 p.
Proof.
  intros HI.
  assert (∀ i, inlinks (node_at g i) = inlinks (node_at g0 i)) as Hin.
  { intros i. symmetry. apply (rinv_static _ _ _ _ _ HI i). }
  destruct p as [i|i|i|i [|rel rest]|i v rest]; simpl.
  - lia.
  - lia.
  - destruct (_ && _); simpl; rewrite ?Hin; lia.
  - lia.
  - destruct (counts_as_pending _ _ _); simpl; lia.
  - lia.
Qed.

Lemma range_measure_step c st st' :
  range_inv layers g0 st → range_step layers c st = Some st' →
  range_measure g0 st' < range_measure g0 st.
Proof.
  unfold range_inv, range_measure.
  intros HI [(i & Hn & Hf & _)|(p & R & Hf & -> & _ & Hf')]%range_step_cases.
  - rewrite Hn, Hf. simpl. lia.
  - rewrite Hf', Hf, sum_list_with_app. simpl.
    assert (RangeInv layers g0 (rs_graph st) (rs_next st) (p :: R)) as HI'
      by by eapply rinv_perm; [done|apply Hf|].
    pose proof (call_weight_step _ _ _ _ HI'). lia.
Qed.

Lemma range_bounded cs st st' :
  range_inv layers g0 st → range_run layers cs st = Some st' →
  length cs + range_measure g0 st' ≤ range_measure g0 st.
Proof.
  revert st. induction cs as [|c cs IH]; intros st HI; simpl; [intros [= <-]; lia|].
  destruct (range_step layers c st) as [st1|] eqn:E; [|done]. intros Hrun.
  pose proof (range_measure_step _ _ _ HI E).
  specialize (IH st1 (range_inv_step _ _ _ HI E) Hrun). lia.
Qed.

Lemma range_next_choice_None st :
  range_next_choice st = None → range_done st.
Proof.
  unfold range_next_choice. destruct (list_find _ _) as [[tid t]|] eqn:E; [done|].
  apply list_find_None in E. destruct (rs_next st) eqn:Hn; [|done].
  intros _. split; [done|]. eapply Forall_impl; [apply E|].
  intros t Ht. destruct t; [|done]. by destruct Ht.
Qed.

Lemma range_next_choice_Some st c :
  0 < length (rs_threads st) →
  range_next_choice st = Some c → is_Some (range_step layers c st).
Proof.
  intros Hth. unfold range_next_choice.
  destruct (list_find _ _) as [[tid t]|] eqn:E.
  - intros [= <-]. apply list_find_Some in E as (Ht & Hne & _). simpl.
    rewrite Ht. destruct t; [eauto|done].
  - destruct (rs_next st) as [|i next] eqn:Hn; [done|]. intros [= <-]. simpl.
    apply list_find_None in E.
    destruct (rs_threads st) as [|t ts] eqn:Hts; [simpl in Hth; lia|].
    apply Forall_cons in E as [Ht _]. simpl.
    destruct t; [by destruct Ht|]. rewrite Hn. simpl. eauto.
Qed.

Lemma length_threads_step c st st' :
  range_step layers c st = Some st' →
  length (rs_threads st') = length (rs_threads st).
Proof.
  destruct c as [tid slot|tid]; simpl.
  - destruct (rs_threads st !! tid) as [[p|]|]; try done.
    destruct (rs_next st !! slot); [|done]. intros [= <-]. simpl.
    apply length_insert.
  - destruct (rs_threads st !! tid) as [[p|]|]; try done.
    intros [= <-]. simpl. apply length_insert.
Qed.

Lemma range_default_schedule_complete fuel st :
  0 < length (rs_threads st) →
  range_inv layers g0 st → range_measure g0 st ≤ fuel →
  ∃ st', range_run layers (range_default_schedule layers fuel st) st = Some st' ∧
         range_done st'.
Proof.
  revert st. induction fuel as [|fuel IH]; intros st Hth HI Hm; simpl.
  - exists st. split; [done|]. apply range_next_choice_None.
    destruct (range_next_choice st) as [c|] eqn:E; [|done].
    destruct (range_next_choice_Some st c Hth E) as [st' Hst'].
    pose proof (range_measure_step _ _ _ HI Hst'). lia.
  - destruct (range_next_choice st) as [c|] eqn:E.
    + destruct (range_next_choice_Some st c Hth E) as [st1 Hst1]. rewrite Hst1.
      simpl. rewrite Hst1. apply IH.
      * by rewrite (length_threads_step _ _ _ Hst1).
      * by eapply range_inv_step.
      * pose proof (range_measure_step _ _ _ HI Hst1). lia.
    + exists st. split; [done|]. by apply range_next_choice_None.
Qed.
End RangeRuns.

Lemma prepass_threads layers g order threads :
  order ≡ₚ seq 0 (length (operations g)) →
  (∀ cs st, range_run layers cs (range_start threads g) = Some st →
     length cs ≤ range_measure g (range_start threads g) ∧
     (range_done st → rs_graph st = calculate_pending_parents order g layers)) ∧
  (0 < threads →
   ∃ cs st, range_run layers cs (range_start threads g) = Some st ∧ range_done st).
Proof.
  intros Hp. split.
  - intros cs st Hrun. split.
    + pose proof (range_bounded layers g cs _ _ (range_inv_start layers g threads) Hrun).
      lia.
    + intros Hd. rewrite prepass_graph by done. apply range_done_graph; [|done].
      eapply range_inv_run; [apply range_inv_start|done].
  - intros Hth.
    destruct (range_default_schedule_complete layers g
                (range_measure g (range_start threads g)) (range_start threads g))
      as (st & Hrun & Hd); [simpl; by rewrite length_replicate|
                            apply range_inv_start|done|].
    eauto.
Qed.


(** ** Steps seen on the instructions of a state *)

Lemma mjoin_insert (ts : list (list Instr)) tid i k new :
  ts !! tid = Some (i :: k) →
  ∃ R, mjoin ts ≡ₚ i :: R ∧ mjoin (<[tid := new ++ k]> ts) ≡ₚ new ++ R.
Proof.
  intros H. exists (mjoin (take tid ts) ++ k ++ mjoin (drop (S tid) ts)).
  rewrite insert_take_drop by (eapply lookup_lt_Some; eauto).
  rewrite <-(take_drop_middle _ _ _ H) at 1.
  rewrite !join_app. simpl. split; solve_Permutation.
Qed.

Lemma all_instrs_run layers st tid st' :
  sched_step layers (RunThread tid) st = Some st' →
  ∃ i R,
    let r := instr_step layers (ps_graph st) i in
    all_instrs st ≡ₚ i :: R ∧
    ps_graph st' = sr_graph r ∧
    ps_pool st' = ps_pool st ++ sr_push r ∧
    all_instrs st' ≡ₚ (ITaskEntry <$> sr_push r) ++ sr_cont r ++ R ∧
    ps_trace st' = ps_trace st ++ sr_events r.
Proof.
  unfold sched_step. destruct (ps_threads st !! tid) as [[|i k]|] eqn:E; [done| |done].
  intros [= <-]. simpl.
  destruct (mjoin_insert _ _ _ _ (sr_cont (instr_step layers (ps_graph st) i)) E)
    as (R & H1 & H2).
  exists i, ((ITaskEntry <$> ps_pool st) ++ R). unfold all_instrs; simpl.
  repeat split.
  - rewrite H1. solve_Permutation.
  - rewrite H2, fmap_app. solve_Permutation.
Qed.

Lemma all_instrs_start layers st slot st' :
  sched_step layers (StartTask slot) st = Some st' →
  ps_graph st' = ps_graph st ∧ ps_trace st' = ps_trace st ∧
  all_instrs st' ≡ₚ all_instrs st ∧
  length (ps_pool st) = S (length (ps_pool st')).
Proof.
  unfold sched_step. destruct (ps_pool st !! slot) as [node|] eqn:E; [|done].
  intros [= <-]. simpl. repeat split.
  - unfold all_instrs; simpl.
    rewrite <-(take_drop_middle _ _ _ E) at 2.
    rewrite delete_take_drop, !fmap_app, fmap_cons, join_app. simpl.
    solve_Permutation.
  - rewrite length_delete by eauto. apply lookup_lt_Some in E. lia.
Qed.

(** ** Updates of the shared fields *)

Lemma node_at_update g i f c :
  node_at (update_node g i f) c =
  if decide (i = c ∧ i < length (operations g)) then f (node_at g c) else node_at g c.
Proof.
  case_decide as H.
  - destruct H as [-> H]. by apply node_at_update_eq.
  - destruct (decide (i = c)) as [->|]; [|by apply node_at_update_ne].
    unfold node_at, update_node; simpl. rewrite list_lookup_alter_eq.
    rewrite (lookup_ge_None_2 (operations g) c); [done|lia].
Qed.

Lemma pend_sub g c c' :
  c < length (operations g) →
  pend (update_node g c atomic_sub_pending) c' =
  if decide (c = c') then uint32 (pend g c - 1) else pend g c'.
Proof.
  intros. unfold pend. rewrite node_at_update.
  destruct (decide (c = c')) as [->|].
  - by rewrite decide_True.
  - by rewrite decide_False by naive_solver.
Qed.

Lemma sched_sub g c c' : sched (update_node g c atomic_sub_pending) c' = sched g c'.
Proof. unfold sched. rewrite node_at_update. by case_decide. Qed.

Lemma pend_or g c c' : pend (update_node g c atomic_or_scheduled) c' = pend g c'.
Proof. unfold pend. rewrite node_at_update. by case_decide. Qed.

Lemma sched_or g c c' :
  c < length (operations g) →
  sched (update_node g c atomic_or_scheduled) c' =
  if decide (c = c') then true else sched g c'.
Proof.
  intros. unfold sched. rewrite node_at_update.
  destruct (decide (c = c')) as [->|].
  - rewrite decide_True by done. simpl. apply orb_true_r.
  - by rewrite decide_False by naive_solver.
Qed.

Lemma sched_or_mono g c c' :
  sched g c' = true → sched (update_node g c atomic_or_scheduled) c' = true.
Proof.
  unfold sched. rewrite node_at_update. case_decide; [|done]. simpl.
  intros _. apply orb_true_r.
Qed.

(** ** Tokens *)

Section Invariant.
Context (layers : Z) (g0 : Depsgraph) (rels : list DepsRelation).
Hypothesis Hrels : relations_of g0 rels.

Local Abbreviation elig c := (eligible layers (node_at g0 c)).
Local Abbreviation tokens := (instr_tokens g0).
Local Abbreviation runs := (instr_runs g0).
Local Abbreviation ok := (instr_ok layers g0).
Local Abbreviation INV := (Inv layers g0 rels).

Lemma outlinks_rels p :
  p < length (operations g0) →
  outlinks (node_at g0 p) ≡ₚ filter (λ r, rel_from r = OperationPtr p) rels.
Proof.
  intros Hp. destruct Hrels as [_ H]. rewrite Forall_forall in H.
  apply H, elem_of_seq. lia.
Qed.

Lemma inlinks_rels c :
  c < length (operations g0) →
  inlinks (node_at g0 c) ≡ₚ filter (λ r, rel_to r = c) rels.
Proof.
  intros Hp. destruct Hrels as [_ H]. rewrite Forall_forall in H.
  apply H, elem_of_seq. lia.
Qed.

Lemma unclaimed_tokens_ext g g' :
  (∀ p, eligible layers (node_at g' p) = eligible layers (node_at g p)) →
  (∀ p, sched g' p = sched g p) →
  unclaimed_tokens layers rels g' = unclaimed_tokens layers rels g.
Proof.
  intros He Hs. unfold unclaimed_tokens. apply list_bind_ext; [|done].
  intros r. destruct (rel_from r); [|done]. by rewrite He, Hs.
Qed.

Lemma unclaimed_tokens_split (l : list DepsRelation) g g' c :
  (∀ p, same_static (node_at g0 p) (node_at g p)) →
  (∀ p, same_static (node_at g0 p) (node_at g' p)) →
  elig c = true → sched g c = false → sched g' c = true →
  (∀ p, p ≠ c → sched g' p = sched g p) →
  unclaimed_tokens layers l g ≡ₚ
  (filter (λ r, rel_from r = OperationPtr c) l ≫= rel_token) ++
  unclaimed_tokens layers l g'.
Proof.
  intros Hst Hst' Hc Hs Hs' Hother. unfold unclaimed_tokens.
  induction l as [|r l IH]; [done|].
  rewrite filter_cons, !bind_cons, IH. clear IH.
  destruct (rel_from r) as [p|] eqn:E.
  - rewrite !(same_static_eligible _ _ _ (Hst _)), !(same_static_eligible _ _ _ (Hst' _)).
    destruct (decide (p = c)) as [->|Hne].
    + rewrite decide_True by done. rewrite Hc, Hs, Hs'. simpl. solve_Permutation.
    + rewrite decide_False by congruence. rewrite (Hother p) by done.
      solve_Permutation.
  - rewrite decide_False by done. done.
Qed.

Lemma unclaimed_tokens_claim g g' c :
  (∀ p, same_static (node_at g0 p) (node_at g p)) →
  (∀ p, same_static (node_at g0 p) (node_at g' p)) →
  elig c = true → sched g c = false → sched g' c = true →
  (∀ p, p ≠ c → sched g' p = sched g p) →
  unclaimed_tokens layers rels g ≡ₚ node_tokens g0 c ++ unclaimed_tokens layers rels g'.
Proof.
  intros Hst Hst' Hc Hs Hs' Hother. unfold node_tokens.
  rewrite (outlinks_rels c) by by eapply eligible_in_range.
  by apply unclaimed_tokens_split.
Qed.

(** ** Preservation of the invariant *)

Lemma inv_perm g I I' t : I ≡ₚ I' → INV g I t → INV g I' t.
Proof.
  intros HI [Hst Hrg Hse Hsz Hid Htk Hin Hrn Hwa Has Hpu]. split; try done.
  - intros c Hc. rewrite <-HI. by apply Htk.
  - by rewrite <-HI.
  - intros c. rewrite <-HI. by apply Hrn.
  - intros c Hc. rewrite <-HI. by apply Hwa.
Qed.

Lemma token_live g I t c :
  INV g I t → elig c = true → c ∈ I ≫= tokens →
  (0 < pend g c)%Z ∧ sched g c = false.
Proof.
  intros [Hst Hrg Hse Hsz Hid Htk Hin Hrn Hwa Has Hpu] Hc Hin'.
  assert (0 < pend g c)%Z as Hpos.
  { rewrite (Htk c Hc), count_app. apply count_pos in Hin'. lia. }
  split; [done|]. destruct (sched g c) eqn:E; [|done].
  specialize (Hsz c E). lia.
Qed.

Lemma inv_replace g i new evs R t :
  INV g (i :: R) t →
  (∀ c, elig c = true → count c (new ≫= tokens) = count c (tokens i)) →
  Forall (ok g) new →
  (∀ c, count c (new ≫= runs) + count (EvEvaluate c) evs = count c (runs i)) →
  (∀ c, elig c = true → c ∈ instr_watch i →
      sched g c = true ∨ (0 < pend g c)%Z ∨ c ∈ new ≫= instr_watch) →
  (∀ a c, EvAssertFailed a c ∉ evs) → (∀ c, EvPush c ∉ evs) →
  INV g (new ++ R) (t ++ evs).
Proof.
  intros [Hst Hrg Hse Hsz Hid Htk Hin Hrn Hwa Has Hpu] Htok Hok Hruns Hwatch Ha Hp.
  split; try done.
  - intros c Hc. rewrite (Htk c Hc), bind_app, bind_cons, !count_app.
    by rewrite Htok.
  - apply Forall_app. split; [done|]. by apply Forall_cons_1 in Hin as [_ ?].
  - intros c. rewrite <-(Hrn c), bind_app, bind_cons, !count_app.
    specialize (Hruns c). lia.
  - intros c Hc. destruct (Hwa c Hc) as [?|[?|Hw]]; [auto..|].
    rewrite bind_cons in Hw. rewrite bind_app, elem_of_app.
    apply elem_of_app in Hw as [Hw|Hw]; [|auto].
    destruct (Hwatch c Hc Hw) as [?|[?|?]]; auto.
  - intros a c [?|?]%elem_of_app; [by eapply Has|by eapply Ha].
  - intros c [?|?]%elem_of_app; [by eapply Hpu|by eapply Hp in H].
Qed.

Lemma inv_decrement g i i' c R t :
  INV g (i :: R) t → elig c = true →
  tokens i = [c] → tokens i' = [] → runs i = [] → runs i' = [] →
  (∀ g', ok g' i') → instr_watch i' = [c] →
  (∀ c', c' ∈ instr_watch i → c' = c) →
  (0 <? pend g c)%Z = true ∧
  INV (update_node g c atomic_sub_pending) (i' :: R) t.
Proof.
  intros HI Hc Hti Hti' Hri Hri' Hok' Hwi' Hwi.
  destruct (token_live g (i :: R) t c HI Hc) as [Hpos Hns].
  { rewrite bind_cons, Hti. set_solver. }
  split; [by apply Z.ltb_lt|].
  destruct HI as [Hst Hrg Hse Hsz Hid Htk Hin Hrn Hwa Has Hpu].
  assert (c < length (operations g)) as Hlt.
  { eapply eligible_in_range. by rewrite (same_static_eligible _ _ _ (Hst c)). }
  assert (∀ c', c' ≠ c → pend (update_node g c atomic_sub_pending) c' = pend g c') as Hp.
  { intros c' ?. rewrite pend_sub by done. by rewrite decide_False. }
  assert (pend (update_node g c atomic_sub_pending) c = (pend g c - 1)%Z) as Hpc.
  { rewrite pend_sub, decide_True by done. apply uint32_small.
    specialize (Hrg c). lia. }
  split.
  - intros c'. eapply same_static_trans; [apply Hst|].
    apply same_static_update, atomic_sub_static.
  - intros c'. destruct (decide (c' = c)) as [->|Hne].
    + rewrite Hpc. specialize (Hrg c). lia.
    + rewrite Hp by done. apply Hrg.
  - intros c'. rewrite sched_sub. apply Hse.
  - intros c'. rewrite sched_sub. intros Hs.
    destruct (decide (c' = c)) as [->|Hne]; [congruence|].
    rewrite Hp by done. by apply Hsz.
  - intros c' Hc'. rewrite Hp by congruence. by apply Hid.
  - intros c' Hc'.
    rewrite (unclaimed_tokens_ext g).
    2:{ intros p. apply same_static_eligible, same_static_update, atomic_sub_static. }
    2:{ intros p. apply sched_sub. }
    specialize (Htk c' Hc'). revert Htk.
    rewrite !bind_cons, Hti, Hti', !count_app, count_singleton.
    destruct (decide (c' = c)) as [->|Hne].
    + rewrite Hpc, decide_True by done. simpl. lia.
    + rewrite Hp, decide_False by done. simpl. lia.
  - apply Forall_cons_1 in Hin as [_ Hin]. apply Forall_cons. split; [apply Hok'|].
    eapply Forall_impl; [apply Hin|]. intros j Hj.
    destruct j; simpl in *; try done; rewrite ?sched_sub; try done.
    all: destruct Hj as [He Hz]; split; [done|].
    all: destruct (decide (node = c)) as [->|Hne] || destruct (decide (child = c)) as [->|Hne];
      [lia|by rewrite Hp].
  - intros c'. rewrite sched_sub, <-(Hrn c'), !bind_cons, Hri, Hri'. done.
  - intros c' Hc'. rewrite sched_sub.
    destruct (decide (c' = c)) as [->|Hne].
    { right; right. rewrite bind_cons, Hwi'. set_solver. }
    rewrite Hp by done. destruct (Hwa c' Hc') as [?|[?|Hw]]; [auto..|].
    right; right. rewrite bind_cons in Hw |- *. apply elem_of_app in Hw as [Hw|Hw].
    + by apply Hwi in Hw.
    + set_solver.
  - done.
  - intros c'. rewrite sched_sub. apply Hpu.
Qed.

Lemma ok_claim_mono g c j : ok g j → ok (update_node g c atomic_or_scheduled) j.
Proof.
  destruct j; simpl; rewrite ?pend_or; try done.
  - intros [? ?]. split; [by apply sched_or_mono|done].
  - apply sched_or_mono.
  - apply sched_or_mono.
Qed.

Lemma inv_claim_lost g i c R t :
  INV g (i :: R) t → sched g c = true →
  tokens i = [] → runs i = [] → (∀ c', c' ∈ instr_watch i → c' = c) →
  INV (update_node g c atomic_or_scheduled) R t.
Proof.
  intros [Hst Hrg Hse Hsz Hid Htk Hin Hrn Hwa Has Hpu] Hs Hti Hri Hwi.
  assert (∀ c', sched (update_node g c atomic_or_scheduled) c' = sched g c') as Hsame.
  { intros c'. unfold sched. rewrite node_at_update. case_decide as H; [|done].
    destruct H as [-> _]. simpl. unfold sched in Hs. by rewrite Hs. }
  split.
  - intros c'. eapply same_static_trans; [apply Hst|].
    apply same_static_update, atomic_or_static.
  - intros c'. rewrite pend_or. apply Hrg.
  - intros c'. rewrite Hsame. apply Hse.
  - intros c'. rewrite Hsame, pend_or. apply Hsz.
  - intros c'. rewrite pend_or. apply Hid.
  - intros c' Hc'. rewrite pend_or, (unclaimed_tokens_ext g); [|
      intros p; apply same_static_eligible, same_static_update, atomic_or_static|done].
    rewrite (Htk c' Hc'), bind_cons, Hti. done.
  - apply Forall_cons_1 in Hin as [_ Hin].
    eapply Forall_impl; [apply Hin|]. intros j. apply ok_claim_mono.
  - intros c'. rewrite Hsame, <-(Hrn c'), bind_cons, Hri. done.
  - intros c' Hc'. rewrite Hsame, pend_or.
    destruct (Hwa c' Hc') as [?|[?|Hw]]; [auto..|].
    rewrite bind_cons in Hw. apply elem_of_app in Hw as [Hw|Hw]; [|auto].
    apply Hwi in Hw as ->. auto.
  - done.
  - intros c'. rewrite Hsame. apply Hpu.
Qed.

Lemma inv_claim_won g i c new evs R t :
  INV g (i :: R) t → elig c = true → pend g c = 0%Z → sched g c = false →
  tokens i = [] → runs i = [] →
  (∀ c', c' ∈ instr_watch i → c' = c) →
  new ≫= tokens ≡ₚ node_tokens g0 c →
  new ≫= runs = (if is_noop (node_at g0 c) then [] else [c]) →
  (∀ g', sched g' c = true → Forall (ok g') new) →
  (evs = [] ∨ evs = [EvPush c] ∧ is_noop (node_at g0 c) = false) →
  INV (update_node g c atomic_or_scheduled) (new ++ R) (t ++ evs).
Proof.
  intros [Hst Hrg Hse Hsz Hid Htk Hin Hrn Hwa Has Hpu] Hc Hz Hs Hti Hri Hwi Htn Hrn' Hokn Hevs.
  assert (c < length (operations g)) as Hlt.
  { eapply eligible_in_range. by rewrite (same_static_eligible _ _ _ (Hst c)). }
  set (g' := update_node g c atomic_or_scheduled).
  assert (sched g' c = true) as Hsc.
  { unfold g'. by rewrite sched_or, decide_True. }
  assert (∀ c', c' ≠ c → sched g' c' = sched g c') as Hso.
  { intros c' ?. unfold g'. by rewrite sched_or, decide_False. }
  assert (∀ p, same_static (node_at g0 p) (node_at g' p)) as Hst'.
  { intros c'. eapply same_static_trans; [apply Hst|].
    apply same_static_update, atomic_or_static. }
  assert (∀ c', count (EvEvaluate c') evs = 0) as Hev0.
  { intros c'. destruct Hevs as [->|[-> _]]; [done|]. by rewrite count_singleton. }
  split.
  - done.
  - intros c'. unfold g'. rewrite pend_or. apply Hrg.
  - intros c'. destruct (decide (c' = c)) as [->|Hne]; [done|].
    rewrite Hso by done. apply Hse.
  - intros c'. unfold g'. rewrite pend_or. destruct (decide (c' = c)) as [->|Hne]; [done|].
    fold g'. rewrite Hso by done. apply Hsz.
  - intros c'. unfold g'. rewrite pend_or. apply Hid.
  - intros c' Hc'. unfold g'. rewrite pend_or. fold g'. rewrite (Htk c' Hc').
    rewrite (unclaimed_tokens_claim g g' c) by done.
    rewrite bind_cons, Hti, bind_app, Htn. f_equal. apply count_perm.
    solve_Permutation.
  - apply Forall_app. split; [by apply Hokn|].
    apply Forall_cons_1 in Hin as [_ Hin].
    eapply Forall_impl; [apply Hin|]. intros j. apply ok_claim_mono.
  - intros c'. rewrite bind_app, Hrn', !count_app, Hev0.
    specialize (Hrn c'). rewrite bind_cons, Hri in Hrn. simpl in Hrn.
    destruct (decide (c' = c)) as [->|Hne].
    + rewrite Hsc. rewrite Hs in Hrn. simpl in *.
      destruct (is_noop (node_at g0 c)); simpl; rewrite ?count_singleton, ?decide_True by done;
        rewrite ?count_nil; lia.
    + rewrite Hso by done. rewrite <-Hrn.
      destruct (is_noop (node_at g0 c)); simpl; rewrite ?count_singleton, ?decide_False by done;
        rewrite ?count_nil; lia.
  - intros c' Hc'. destruct (decide (c' = c)) as [->|Hne]; [auto|].
    rewrite Hso by done. unfold g'. rewrite pend_or.
    destruct (Hwa c' Hc') as [?|[?|Hw]]; [auto..|].
    right; right. rewrite bind_cons in Hw. rewrite bind_app, elem_of_app.
    apply elem_of_app in Hw as [Hw|Hw]; [|auto].
    by apply Hwi in Hw.
  - intros a c' [?|Hin']%elem_of_app; [by eapply Has|].
    destruct Hevs as [->|[-> _]]; set_solver.
  - intros c' [Hin'|Hin']%elem_of_app.
    + destruct (Hpu c' Hin') as [? ?]. split; [|done].
      destruct (decide (c' = c)) as [->|Hne]; [done|]. by rewrite Hso.
    + destruct Hevs as [->|[-> ?]]; [set_solver|].
      apply list_elem_of_singleton in Hin'. by injection Hin' as ->.
Qed.


Lemma static_eligible g I t c :
  INV g I t → eligible layers (node_at g c) = elig c.
Proof. intros HI. apply same_static_eligible, HI. Qed.

Lemma static_noop g I t c :
  INV g I t → is_noop (node_at g c) = is_noop (node_at g0 c).
Proof. intros HI. apply same_static_noop, HI. Qed.

Lemma static_outlinks g I t c :
  INV g I t → outlinks (node_at g c) = outlinks (node_at g0 c).
Proof. intros HI. symmetry. apply HI. Qed.

Lemma rel_token_elem c r : c ∈ rel_token r → c = rel_to r ∧ non_cyclic r = true.
Proof.
  unfold rel_token. destruct (non_cyclic r); [|by intros ?%elem_of_nil].
  by intros ->%list_elem_of_singleton.
Qed.

Lemma count_not_elem `{EqDecision A} (x : A) l1 l2 :
  (x ∈ l1 → False) → count x l2 = count x (l1 ++ l2).
Proof. intros H. rewrite count_app. apply count_zero in H. lia. Qed.

Lemma inv_head_ok g i R t : INV g (i :: R) t → ok g i.
Proof. intros HI. by destruct (Forall_cons_1 _ _ _ (inv_instrs _ _ _ _ _ _ HI)). Qed.

Lemma inv_step g i R t :
  INV g (i :: R) t →
  INV (sr_graph (instr_step layers g i))
      ((ITaskEntry <$> sr_push (instr_step layers g i)) ++
       sr_cont (instr_step layers g i) ++ R)
      (t ++ sr_events (instr_step layers g i)).
Proof.
  intros HI. pose proof (inv_head_ok _ _ _ _ HI) as Hi.
  destruct i as [[|c rest]|c dec|c|c|[|r rest]|c|c|c|r|c|c]; unfold instr_step.
  - (* schedule_graph, end of the loop *)
    eapply (inv_replace g _ [] []); [done|done|done|done| |set_solver..].
    intros ? _ ?%elem_of_nil. done.
  - (* schedule_graph, one more node *)
    eapply (inv_replace g _ [_; _] []); [done|done|by repeat constructor|done| |set_solver..].
    intros c' _ Hw. right; right. set_solver.
  - (* schedule_node, entry *)
    fold (eligible layers (node_at g c)). rewrite (static_eligible _ _ _ _ HI).
    destruct (elig c) eqn:Hc; [destruct dec|].
    + destruct (inv_decrement g _ (INodePending c) c R t HI Hc) as [Hpos HI'];
        [done..| |]. { by intros c' ->%list_elem_of_singleton. }
      unfold BLI_assert. fold (pend g c). rewrite Hpos. simpl. by rewrite app_nil_r.
    + eapply (inv_replace g _ [_] []); [done|done|by repeat constructor|done| |set_solver..].
      intros c' _ Hw. right; right. set_solver.
    + eapply (inv_replace g _ [] []); [done| |done|done| |set_solver..].
      * intros c' Hc'. destruct dec; [|done]. simpl. rewrite count_singleton.
        rewrite decide_False; [done|congruence].
      * intros c' Hc' ->%list_elem_of_singleton. congruence.
  - (* schedule_node, the test of num_links_pending *)
    fold (pend g c). destruct (pend g c =? 0)%Z eqn:Hz.
    + eapply (inv_replace g _ [_] []); [done|done| |done| |set_solver..].
      * repeat constructor; [done|lia].
      * intros c' _ Hw. right; right. set_solver.
    + eapply (inv_replace g _ [] []); [done|done|done|done| |set_solver..].
      intros c' _ ->%list_elem_of_singleton. right; left.
      pose proof (inv_range _ _ _ _ _ _ HI c). lia.
  - (* schedule_node, the claim *)
    destruct Hi as [Hc Hz]. fold (sched g c).
    destruct (sched g c) eqn:Hs; simpl.
    + rewrite app_nil_r. eapply inv_claim_lost; [done..|].
      by intros c' ->%list_elem_of_singleton.
    + rewrite (static_noop _ _ _ _ HI), (static_outlinks _ _ _ _ HI).
      destruct (is_noop (node_at g0 c)) eqn:Hn; simpl.
      * eapply (inv_claim_won g _ c [_] []); try done.
        -- by intros c' ->%list_elem_of_singleton.
        -- simpl. by rewrite app_nil_r.
        -- by rewrite Hn.
        -- by repeat constructor.
        -- by left.
      * eapply (inv_claim_won g _ c [ITaskEntry c] [EvPush c]); try done.
        -- by intros c' ->%list_elem_of_singleton.
        -- simpl. by rewrite app_nil_r.
        -- simpl. by rewrite Hn.
        -- by repeat constructor.
        -- by right.
  - (* schedule_children, end of the loop *)
    eapply (inv_replace g _ [] []); [done|done|done|done| |set_solver..].
    intros ? _ ?%elem_of_nil. done.
  - (* schedule_children, one more relation *)
    fold (sched g (rel_to r)). destruct (sched g (rel_to r)) eqn:Hs.
    + eapply (inv_replace g _ [_] []); [done| |by repeat constructor|done| |set_solver..].
      * intros c' Hc'. simpl. rewrite app_nil_r. apply count_not_elem.
        intros Hin. destruct (rel_token_elem _ _ Hin) as [-> _].
        destruct (token_live g _ t (rel_to r) HI Hc'); [|congruence].
        rewrite bind_cons. simpl. set_solver.
      * intros ? _ ?%elem_of_nil. done.
    + eapply (inv_replace g _ [_; _] []); [done| |by repeat constructor|done| |set_solver..].
      * intros c' Hc'. simpl. rewrite app_nil_r. unfold rel_token.
        by destruct (non_cyclic r).
      * intros ? _ ?%elem_of_nil. done.
  - (* deg_task_run_func, entry *)
    destruct Hi as [Hs Hn]. rewrite (static_noop _ _ _ _ HI), Hn.
    assert (bool_decide (is_Some (evaluate (node_at g c))) = true) as ->.
    { apply bool_decide_eq_true. rewrite <-(static_noop _ _ _ _ HI) in Hn.
      unfold is_noop in Hn. by destruct (evaluate (node_at g c)). }
    eapply (inv_replace g _ [_] []); [done|..].
    + intros. simpl. by rewrite app_nil_r.
    + by repeat constructor.
    + intros. simpl. by rewrite app_nil_r.
    + intros ? _ ?%elem_of_nil. done.
    + set_solver.
    + set_solver.
  - (* deg_task_run_func, the call of evaluate *)
    simpl in Hi.
    eapply (inv_replace g _ [_] _); [done|..].
    + intros. simpl. by rewrite app_nil_r.
    + by repeat constructor.
    + intros c'. simpl. rewrite <-(static_noop _ _ _ _ HI). unfold is_noop.
      destruct (evaluate (node_at g c)); [|done].
      rewrite !count_cons, !count_nil.
      repeat case_decide; simplify_eq; done.
    + intros ? _ ?%elem_of_nil. done.
    + intros a c'. destruct (evaluate (node_at g c)); set_solver.
    + intros c'. destruct (evaluate (node_at g c)); set_solver.
  - (* deg_task_run_func, the outgoing relations *)
    simpl in Hi. rewrite (static_outlinks _ _ _ _ HI).
    assert (∀ new, (∀ c', elig c' = true →
        count c' (new ≫= tokens) = count c' (node_tokens g0 c)) →
        Forall (ok g) new →
        new ≫= runs = [] →
        INV g (new ++ R) (t ++ [])) as Hgo.
    { intros new H1 H2 H3. eapply (inv_replace g _ new []); [done|done|done| | |set_solver..].
      - intros c'. by rewrite H3.
      - intros ? _ ?%elem_of_nil. done. }
    unfold node_tokens in Hgo.
    destruct (outlinks (node_at g0 c)) as [|r [|r' ol]] eqn:Hol.
    + apply (Hgo [_]); [done|by repeat constructor|done].
    + fold (sched g (rel_to r)). fold (eligible layers (node_at g (rel_to r))).
      rewrite (static_eligible _ _ _ _ HI).
      assert (∀ c', elig c' = true → c' ∈ rel_token r → sched g c' = false) as Hlive.
      { intros c' Hc' Hin. eapply (token_live g _ t c' HI Hc').
        rewrite bind_cons. simpl. unfold node_tokens. rewrite Hol. set_solver. }
      destruct (sched g (rel_to r)) eqn:Hs; simpl.
      * apply (Hgo []); [|done..]. intros c' Hc'. simpl. rewrite app_nil_r.
        symmetry. apply count_zero. intros Hin.
        destruct (rel_token_elem _ _ Hin) as [-> _].
        specialize (Hlive _ Hc' Hin). congruence.
      * destruct (elig (rel_to r)) eqn:He; simpl.
        -- apply (Hgo [_]); [|by repeat constructor|done]. done.
        -- apply (Hgo []); [|done..]. intros c' Hc'. simpl. rewrite app_nil_r.
           symmetry. apply count_zero. intros Hin.
           destruct (rel_token_elem _ _ Hin) as [-> _]. congruence.
    + apply (Hgo [_]); [|by repeat constructor|done].
      intros. rewrite bind_singleton. done.
  - (* deg_task_run_func, the decrement *)
    simpl in Hi. destruct (non_cyclic r) eqn:Hnc.
    + destruct (inv_decrement g _ (ITaskPending (rel_to r)) (rel_to r) R t HI Hi)
        as [Hpos HI']; [|done..| |].
      { simpl. unfold rel_token. by rewrite Hnc. }
      { by intros ? ?%elem_of_nil. }
      unfold BLI_assert. fold (pend g (rel_to r)). rewrite Hpos. simpl.
      by rewrite app_nil_r.
    + eapply (inv_replace g _ [_] []); [done| |by repeat constructor|done| |set_solver..].
      * intros. simpl. unfold rel_token. by rewrite Hnc.
      * by intros ? _ ?%elem_of_nil.
  - (* deg_task_run_func, the test of num_links_pending *)
    fold (pend g c). destruct (pend g c =? 0)%Z eqn:Hz.
    + eapply (inv_replace g _ [_] []); [done|done| |done| |set_solver..].
      * repeat constructor; [done|lia].
      * intros c' _ Hw. right; right. set_solver.
    + eapply (inv_replace g _ [] []); [done|done|done|done| |set_solver..].
      intros c' _ ->%list_elem_of_singleton. right; left.
      pose proof (inv_range _ _ _ _ _ _ HI c). lia.
  - (* deg_task_run_func, the claim *)
    destruct Hi as [Hc Hz]. fold (sched g c).
    destruct (sched g c) eqn:Hs; simpl.
    + rewrite app_nil_r. eapply inv_claim_lost; [done..|].
      by intros c' ->%list_elem_of_singleton.
    + eapply (inv_claim_won g _ c [_] []); try done.
      * by intros c' ->%list_elem_of_singleton.
      * simpl. by rewrite app_nil_r.
      * simpl. by rewrite app_nil_r.
      * by repeat constructor.
      * by left.
Qed.


(** ** The invariant at the start of the pass *)

Lemma initial_tokens (l : list DepsRelation) g c :
  (∀ p, same_static (node_at g0 p) (node_at g p)) →
  (∀ p, sched g p = false) →
  count c (unclaimed_tokens layers l g) =
  length (filter (counted_relation layers g0) (filter (λ r, rel_to r = c) l)).
Proof.
  intros Hst Hs. unfold unclaimed_tokens.
  induction l as [|r l IH]; [done|].
  rewrite bind_cons, count_app, IH, filter_cons. clear IH.
  assert (counted_relation layers g0 r ↔
    non_cyclic r = true ∧ ∃ p, rel_from r = OperationPtr p ∧ elig p = true) as Hcr.
  { unfold counted_relation. destruct (rel_from r); naive_solver. }
  destruct (decide (rel_to r = c)) as [Hto|Hto].
  - rewrite filter_cons. destruct (decide (counted_relation layers g0 r)) as [Hd|Hd].
    + apply Hcr in Hd as (Hnc & p & Hp & He). rewrite Hp.
      rewrite (same_static_eligible _ _ _ (Hst p)), He, Hs. simpl.
      unfold rel_token. rewrite Hnc, count_singleton, decide_True by done. done.
    + destruct (rel_from r) as [p|] eqn:Hp; [|done].
      rewrite (same_static_eligible _ _ _ (Hst p)), Hs.
      destruct (elig p) eqn:He; [|done]. simpl. unfold rel_token.
      destruct (non_cyclic r) eqn:Hnc; [|done]. destruct Hd. apply Hcr. eauto.
  - destruct (rel_from r) as [p|]; [|done].
    destruct (_ && _); [|done]. unfold rel_token.
    destruct (non_cyclic r); [|done]. by rewrite count_singleton, decide_False.
Qed.

Local Abbreviation pass_start := (pass_start layers g0).

Lemma pass_start_node order c :
  order ≡ₚ seq 0 (length (operations g0)) →
  node_at (pass_start order) c =
  if decide (c < length (operations g0))
  then set_done 0 (prepass_node layers g0 (node_at g0 c))
  else blank_node.
Proof.
  intros Hp. unfold pass_start, clear_done, node_at at 1. simpl.
  rewrite prepass_operations, !list_lookup_fmap by done.
  case_decide as Hlt.
  - apply lookup_lt_is_Some in Hlt as [n Hn].
    by rewrite (node_at_lookup _ _ _ Hn), Hn.
  - by rewrite lookup_ge_None_2 by lia.
Qed.

Lemma pass_start_length order :
  order ≡ₚ seq 0 (length (operations g0)) →
  length (operations (pass_start order)) = length (operations g0).
Proof.
  intros Hp. unfold pass_start, clear_done. simpl.
  by rewrite prepass_operations, !length_fmap.
Qed.

Lemma inv_start order :
  links_fit g0 →
  order ≡ₚ seq 0 (length (operations g0)) →
  INV (pass_start order) [IScheduleGraph (seq 0 (length (operations g0)))] [].
Proof.
  intros Hfit Hp.
  assert (∀ c, same_static (node_at g0 c) (node_at (pass_start order) c)) as Hst.
  { intros c. rewrite pass_start_node by done. case_decide; [by repeat split|].
    rewrite node_at_blank by (apply lookup_ge_None_2; lia). apply same_static_refl. }
  assert (∀ c, sched (pass_start order) c = false) as Hs.
  { intros c. unfold sched. rewrite pass_start_node by done. by case_decide. }
  assert (∀ c, pend (pass_start order) c =
            if decide (c < length (operations g0))
            then uint32 (prepass_pending layers g0 (node_at g0 c)) else 0%Z) as Hpe.
  { intros c. unfold pend. rewrite pass_start_node by done. by case_decide. }
  split; try done.
  - intros c. rewrite Hpe. case_decide; [apply uint32_range|lia].
  - intros c. by rewrite Hs.
  - intros c. by rewrite Hs.
  - intros c Hc. rewrite Hpe. case_decide; [|done].
    unfold prepass_pending. by rewrite Hc.
  - intros c Hc. pose proof (eligible_in_range _ _ _ Hc) as Hlt.
    rewrite Hpe, decide_True by done. unfold prepass_pending. rewrite Hc.
    rewrite bind_singleton. simpl. rewrite app_nil_r.
    rewrite initial_tokens by done. rewrite <-(inlinks_rels c) by done.
    apply uint32_small. split; [lia|].
    apply lookup_lt_is_Some in Hlt as [n Hn].
    rewrite (node_at_lookup _ _ _ Hn).
    unfold links_fit in Hfit. rewrite Forall_forall in Hfit.
    specialize (Hfit n (list_elem_of_lookup_2 _ _ _ Hn)).
    pose proof (length_filter (counted_relation layers g0) (inlinks n)). lia.
  - by repeat constructor.
  - intros c. by rewrite Hs.
  - intros c Hc. right; right. rewrite bind_singleton. simpl.
    apply elem_of_seq. apply eligible_in_range in Hc. lia.
  - intros a c. apply not_elem_of_nil.
  - intros c ?%elem_of_nil. done.
Qed.

(** ** The invariant along a run *)

Local Abbreviation state_inv := (state_inv layers g0 rels).

Lemma state_inv_step st st' :
  state_inv st → step layers st st' → state_inv st'.
Proof.
  intros HI [[tid|slot] Hstep].
  - apply all_instrs_run in Hstep as (i & R & HR & Hg & _ & HR' & Ht).
    unfold state_inv. rewrite Hg, Ht. eapply inv_perm; [symmetry; apply HR'|].
    apply inv_step. eapply inv_perm; [apply HR|]. done.
  - apply all_instrs_start in Hstep as (Hg & Ht & HR & _).
    unfold state_inv. rewrite Hg, Ht. eapply inv_perm; [symmetry; apply HR|]. done.
Qed.

Lemma state_inv_steps st st' :
  state_inv st → rtc (step layers) st st' → state_inv st'.
Proof. intros HI Hs. induction Hs; eauto using state_inv_step. Qed.

Lemma state_inv_start order :
  links_fit g0 →
  order ≡ₚ seq 0 (length (operations g0)) →
  state_inv (schedule_graph (pass_start order)).
Proof.
  intros Hfit Hp. unfold state_inv, schedule_graph, all_instrs.
  cbn [ps_graph ps_pool ps_threads ps_trace].
  rewrite pass_start_length by done. simpl. by apply inv_start.
Qed.


(** ** Dependencies come first *)

Lemma waits_for_rel c p :
  waits_for layers g0 c p →
  elig p = true ∧ c < length (operations g0) →
  ∃ r, r ∈ rels ∧ rel_from r = OperationPtr p ∧ rel_to r = c ∧
       non_cyclic r = true ∧ r ∈ outlinks (node_at g0 p).
Proof.
  intros (r & Hin & Hfrom & Hnc & He) [Hp Hc]. exists r.
  rewrite (inlinks_rels c Hc) in Hin. apply list_elem_of_filter in Hin as [Hto Hin].
  repeat split; try done.
  rewrite (outlinks_rels p) by by eapply eligible_in_range.
  by apply list_elem_of_filter.
Qed.

Lemma waits_for_eligible c p : waits_for layers g0 c p → elig p = true.
Proof. intros (r & _ & Hfrom & _ & He). by rewrite Hfrom in He. Qed.

Lemma token_of_outlink r p c :
  r ∈ outlinks (node_at g0 p) → non_cyclic r = true → rel_to r = c →
  c ∈ node_tokens g0 p.
Proof.
  intros Hin Hnc Hto. unfold node_tokens. apply list_elem_of_bind. exists r.
  split; [|done]. unfold rel_token. rewrite Hnc, Hto. set_solver.
Qed.

Lemma unclaimed_token_elem g c :
  c ∈ unclaimed_tokens layers rels g ↔
  ∃ r p, r ∈ rels ∧ rel_from r = OperationPtr p ∧ rel_to r = c ∧
         non_cyclic r = true ∧ eligible layers (node_at g p) = true ∧
         sched g p = false.
Proof.
  unfold unclaimed_tokens. rewrite list_elem_of_bind. split.
  - intros (r & Hc & Hr). exists r. destruct (rel_from r) as [p|]; [|set_solver].
    exists p. destruct (eligible layers (node_at g p)) eqn:He; [|set_solver].
    destruct (sched g p) eqn:Hs; [set_solver|]. simpl in Hc.
    apply rel_token_elem in Hc as [-> ?]. done.
  - intros (r & p & Hr & Hfrom & Hto & Hnc & He & Hs). exists r. split; [|done].
    rewrite Hfrom, He, Hs. simpl. unfold rel_token. rewrite Hnc, Hto. set_solver.
Qed.

Lemma deps_claimed g I t c p :
  INV g I t → elig c = true → pend g c = 0%Z →
  waits_for layers g0 c p →
  sched g p = true ∧ p ∉ I ≫= runs.
Proof.
  intros HI Hc Hz Hw. pose proof (waits_for_eligible _ _ Hw) as Hp.
  destruct (waits_for_rel c p Hw) as (r & Hr & Hfrom & Hto & Hnc & Hout).
  { split; [done|by eapply eligible_in_range]. }
  pose proof (inv_tokens _ _ _ _ _ _ HI c Hc) as Htk.
  rewrite Hz, count_app in Htk.
  assert (c ∉ unclaimed_tokens layers rels g) as H1 by (apply count_zero; lia).
  assert (c ∉ I ≫= tokens) as H2 by (apply count_zero; lia).
  split.
  - destruct (sched g p) eqn:Hs; [done|]. destruct H1.
    apply unclaimed_token_elem. exists r, p. repeat split; try done.
    by rewrite (static_eligible _ _ _ _ HI).
  - intros (i & Hi & Hin)%list_elem_of_bind. destruct H2.
    apply list_elem_of_bind. exists i. split; [|done].
    destruct i; simpl in *; try by apply elem_of_nil in Hi.
    all: destruct (is_noop _); [by apply elem_of_nil in Hi|].
    all: apply list_elem_of_singleton in Hi as ->.
    all: by eapply token_of_outlink.
Qed.

Lemma deps_evaluated g I t c p :
  INV g I t → elig c = true → pend g c = 0%Z →
  waits_for layers g0 c p → is_noop (node_at g0 p) = false →
  EvEvaluate p ∈ t.
Proof.
  intros HI Hc Hz Hw Hn.
  destruct (deps_claimed g I t c p HI Hc Hz Hw) as [Hs Hr].
  pose proof (inv_runs _ _ _ _ _ _ HI p) as Hrn. rewrite Hs, Hn in Hrn. simpl in Hrn.
  apply count_zero in Hr. apply count_pos. lia.
Qed.

Lemma ordered_app t evs :
  ordered layers g0 t →
  (∀ c p, EvPush c ∈ evs ∨ EvEvaluate c ∈ evs →
          waits_for layers g0 c p → is_noop (node_at g0 p) = false →
          EvEvaluate p ∈ t) →
  ordered layers g0 (t ++ evs).
Proof.
  intros Ho Hnew k e c p Hk He Hw Hn.
  apply lookup_app_Some in Hk as [Hk|[Hlen Hk]].
  - destruct (Ho k e c p Hk He Hw Hn) as (j & Hj & Hlk).
    exists j. split; [done|]. by apply lookup_app_l_Some.
  - assert (EvEvaluate p ∈ t) as (j & Hj)%list_elem_of_lookup.
    { apply (Hnew c p); [|done..].
      apply list_elem_of_lookup_2 in Hk. destruct He as [->| ->]; auto. }
    exists j. split; [apply lookup_lt_Some in Hj; lia|]. by apply lookup_app_l_Some.
Qed.

Lemma ordered_step g i R t :
  INV g (i :: R) t → ordered layers g0 t →
  ordered layers g0 (t ++ sr_events (instr_step layers g i)).
Proof.
  intros HI Ho. pose proof (inv_head_ok _ _ _ _ HI) as Hi.
  apply ordered_app; [done|]. intros c p He Hw Hn.
  assert (elig c = true ∧ pend g c = 0%Z) as [Hc Hz]; [|by eapply deps_evaluated].
  destruct i as [[|? ?]|c' dec|c'|c'|[|? ?]|c'|c'|c'|r|c'|c']; unfold instr_step in He;
    simpl in He.
  all: repeat match type of He with
    | context [if ?b then _ else _] => destruct b
    | context [match ?b with _ => _ end] => destruct b
    end; simpl in He; unfold BLI_assert in He.
  all: repeat match type of He with
    | context [if ?b then _ else _] => destruct b
    end; simpl in He.
  all: try (exfalso; clear -He; set_solver).
  - destruct Hi as [? ?]. assert (c = c') as -> by set_solver. done.
  - simpl in Hi. assert (c = c') as -> by set_solver.
    split; [by eapply inv_sched_eligible|by eapply inv_sched_zero].
Qed.

Local Abbreviation state_ordered := (state_ordered layers g0 rels).

Lemma state_ordered_step st st' :
  state_ordered st → step layers st st' → state_ordered st'.
Proof.
  intros [HI Ho] Hstep. split; [by eapply state_inv_step|].
  destruct Hstep as [[tid|slot] Hstep].
  - apply all_instrs_run in Hstep as (i & R & HR & Hg & _ & HR' & Ht).
    rewrite Ht. eapply ordered_step; [|done]. eapply inv_perm; [apply HR|]. done.
  - apply all_instrs_start in Hstep as (Hg & Ht & HR & _). by rewrite Ht.
Qed.

Lemma state_ordered_steps st st' :
  state_ordered st → rtc (step layers) st st' → state_ordered st'.
Proof. intros HI Hs. induction Hs; eauto using state_ordered_step. Qed.

(** ** A drained pool leaves no work behind *)

Lemma drained_instrs st : drained st → all_instrs st = [].
Proof.
  intros [Hp Ht]. unfold all_instrs. rewrite Hp. simpl. by apply join_nil_2.
Qed.

Lemma drained_claimed g t c :
  cycles_flagged g0 →
  INV g [] t → elig c = true → sched g c = true.
Proof.
  intros [rank Hrank] HI. remember (rank c) as k eqn:Hk. revert c Hk.
  induction k as [k IH] using lt_wf_ind. intros c Hk Hc.
  destruct (inv_watch _ _ _ _ _ _ HI c Hc) as [?|[Hpos|Hw]]; [done| |by apply elem_of_nil in Hw].
  rewrite (inv_tokens _ _ _ _ _ _ HI c Hc) in Hpos. simpl in Hpos. rewrite app_nil_r in Hpos.
  assert (c ∈ unclaimed_tokens layers rels g) as Hin by (apply count_pos; lia).
  apply unclaimed_token_elem in Hin as (r & p & Hr & Hfrom & Hto & Hnc & He & Hs).
  rewrite (static_eligible _ _ _ _ HI) in He.
  assert (rank p < rank c) as Hlt.
  { pose proof (eligible_in_range _ _ _ He) as Hp.
    rewrite Forall_forall in Hrank. specialize (Hrank p).
    rewrite Forall_forall in Hrank. rewrite <-Hto. apply Hrank; [apply elem_of_seq; lia| |done].
    rewrite (outlinks_rels p Hp). by apply list_elem_of_filter. }
  rewrite (IH (rank p)) in Hs; [done|lia|done|done].
Qed.


(** ** Every step decreases the measure *)

Lemma max_out_bound c : length (outlinks (node_at g0 c)) ≤ max_out g0.
Proof.
  unfold max_out, node_at. destruct (operations g0 !! c) as [n|] eqn:E; [|simpl; lia].
  simpl. apply list_elem_of_lookup_2 in E. revert E.
  induction (operations g0) as [|m l IH]; [by intros ?%elem_of_nil|].
  intros [->|Hin]%elem_of_cons; simpl; [apply Nat.le_max_l|].
  etrans; [apply (IH Hin)|apply Nat.le_max_r].
Qed.

Lemma unclaimed_same g c f :
  (∀ n, scheduled (f n) = scheduled n) →
  unclaimed (update_node g c f) = unclaimed g.
Proof.
  intros Hf. unfold unclaimed, update_node. simpl.
  revert c. induction (operations g) as [|n l IH]; intros [|c]; try done.
  - simpl. rewrite !filter_cons, Hf. by destruct (decide _).
  - change (alter f (S c) (n :: l)) with (n :: alter f c l).
    rewrite !filter_cons. destruct (decide _); simpl; by rewrite IH.
Qed.

Lemma unclaimed_claim g c :
  c < length (operations g) → sched g c = false →
  unclaimed g = S (unclaimed (update_node g c atomic_or_scheduled)).
Proof.
  unfold unclaimed, update_node, sched, node_at. simpl.
  revert c. induction (operations g) as [|n l IH]; intros [|c] Hlt Hs;
    try (simpl in Hlt; lia).
  - simpl in Hs. change (alter atomic_or_scheduled 0 (n :: l))
      with (atomic_or_scheduled n :: l).
    rewrite !filter_cons. rewrite decide_True by done.
    rewrite decide_False; [done|]. simpl. by rewrite orb_true_r.
  - change (alter atomic_or_scheduled (S c) (n :: l))
      with (n :: alter atomic_or_scheduled c l).
    simpl in Hlt, Hs.
    rewrite !filter_cons. specialize (IH c ltac:(lia) Hs).
    destruct (decide _); simpl; by rewrite IH.
Qed.

Lemma measure_step g i R t :
  INV g (i :: R) t →
  measure g0 (sr_graph (instr_step layers g i))
    ((ITaskEntry <$> sr_push (instr_step layers g i)) ++
     sr_cont (instr_step layers g i) ++ R) +
  length (sr_push (instr_step layers g i)) <
  measure g0 g (i :: R).
Proof.
  intros HI. pose proof (inv_head_ok _ _ _ _ HI) as Hi. unfold measure.
  assert (∀ c, elig c = true → sched g c = false →
    unclaimed g = S (unclaimed (update_node g c atomic_or_scheduled))) as Hclaim.
  { intros c Hc Hs. apply unclaimed_claim; [|done].
    eapply eligible_in_range. by rewrite (static_eligible _ _ _ _ HI). }
  assert (∀ c, sched g c = true →
    unclaimed (update_node g c atomic_or_scheduled) = unclaimed g) as Hlost.
  { intros c Hs. unfold unclaimed. f_equal. f_equal. unfold update_node. simpl.
    apply list_eq. intros j. destruct (decide (c = j)) as [->|].
    - rewrite list_lookup_alter_eq. unfold sched, node_at in Hs.
      destruct (operations g !! j) as [n|]; [|done]. simpl in *. f_equal.
      destruct n. simpl in *. by subst. 
    - by rewrite list_lookup_alter_ne. }
  pose proof (λ c, unclaimed_same g c atomic_sub_pending (λ _, eq_refl)) as Hsub.
  pose proof max_out_bound as Hmax.
  destruct i as [[|c rest]|c dec|c|c|[|r rest]|c|c|c|r|c|c]; unfold instr_step.
  all: repeat match goal with
    | |- context [if negb ?b then _ else _] => destruct b eqn:?; simpl negb; cbv iota
    | |- context [if ?b then _ else _] => destruct b eqn:?
    end.
  all: cbn [sr_graph sr_cont sr_push sr_events silent fmap list_fmap length app
            sum_list_with instr_weight].
  all: rewrite ?Hsub.
  all: try lia.
  - destruct Hi as [Hc _]. rewrite (Hlost c) by done. lia.
  - destruct Hi as [Hc _]. rewrite (Hclaim c) by done.
    rewrite (static_outlinks _ _ _ _ HI). specialize (Hmax c). nia.
  - destruct Hi as [Hc _]. rewrite (Hclaim c) by done.
    specialize (Hmax c). nia.
  - rewrite (static_outlinks _ _ _ _ HI).
    destruct (outlinks (node_at g0 c)) as [|r [|r' ol]].
    all: repeat match goal with
      | |- context [if negb ?b then _ else _] => destruct b eqn:?; simpl negb; cbv iota
      end.
    all: cbn [sr_graph sr_cont sr_push sr_events silent fmap list_fmap length app
              sum_list_with instr_weight].
    all: lia.
  - destruct Hi as [Hc _]. rewrite (Hlost c) by done. lia.
  - destruct Hi as [Hc _]. rewrite (Hclaim c) by done.
    specialize (Hmax c). nia.
Qed.

Lemma pass_measure_step st st' :
  state_inv st → step layers st st' →
  pass_measure g0 st' < pass_measure g0 st.
Proof.
  intros HI [[tid|slot] Hstep]; unfold pass_measure.
  - apply all_instrs_run in Hstep as (i & R & HR & Hg & Hp & HR' & Ht).
    unfold measure. rewrite HR, HR', Hg, Hp, length_app.
    pose proof (measure_step (ps_graph st) i R (ps_trace st)) as Hm.
    unfold measure in Hm. 
    assert (INV (ps_graph st) (i :: R) (ps_trace st)) as HI'.
    { eapply inv_perm; [apply HR|]. done. }
    specialize (Hm HI'). lia.
  - apply all_instrs_start in Hstep as (Hg & Ht & HR & Hl).
    unfold measure. rewrite HR, Hg, Hl. lia.
Qed.

Lemma pass_measure_steps n st st' :
  state_inv st → nsteps (step layers) n st st' →
  n + pass_measure g0 st' ≤ pass_measure g0 st.
Proof.
  intros HI Hs. induction Hs as [|n x y z Hxy Hyz IH]; [lia|].
  pose proof (pass_measure_step _ _ HI Hxy).
  specialize (IH (state_inv_step _ _ HI Hxy)). lia.
Qed.
End Invariant.

(** ** Schedules *)

Lemma run_schedule_nsteps layers cs st st' :
  run_schedule layers cs st = Some st' → nsteps (step layers) (length cs) st st'.
Proof.
  revert st. induction cs as [|c cs IH]; intros st; simpl.
  - intros [= ->]. constructor.
  - destruct (sched_step layers c st) as [st1|] eqn:E; [|done].
    intros H. econstructor; [by exists c|by apply IH].
Qed.

Lemma run_schedule_steps layers cs st st' :
  run_schedule layers cs st = Some st' → rtc (step layers) st st'.
Proof. intros H. eapply rtc_nsteps_2, run_schedule_nsteps, H. Qed.

Lemma run_schedule_app layers cs1 cs2 st :
  run_schedule layers (cs1 ++ cs2) st =
  run_schedule layers cs1 st ≫= run_schedule layers cs2.
Proof.
  revert st. induction cs1 as [|c cs1 IH]; intros st; simpl; [done|].
  destruct (sched_step layers c st); [apply IH|done].
Qed.

Lemma steps_run_schedule layers st st' :
  rtc (step layers) st st' → ∃ cs, run_schedule layers cs st = Some st'.
Proof.
  induction 1 as [|x y z [c Hc] _ [cs Hcs]]; [by exists []|].
  exists (c :: cs). simpl. by rewrite Hc.
Qed.

Lemma drained_no_step layers st c : drained st → sched_step layers c st = None.
Proof.
  intros [Hp Ht]. destruct c as [tid|slot]; simpl.
  - destruct (ps_threads st !! tid) as [[|i k]|] eqn:E; try done.
    rewrite Forall_forall in Ht. by specialize (Ht _ (list_elem_of_lookup_2 _ _ _ E)).
  - by rewrite Hp.
Qed.

Lemma next_choice_None st : next_choice st = None → drained st.
Proof.
  unfold next_choice. destruct (list_find _ _) as [[tid k]|] eqn:E; [by simpl|].
  apply list_find_None in E. destruct (ps_pool st) eqn:Hp; [|by intros [=]].
  intros _. split; [done|].
  eapply Forall_impl; [apply E|]. intros k Hk. destruct k; [done|]. by destruct Hk.
Qed.

Lemma next_choice_Some layers st c :
  next_choice st = Some c → is_Some (sched_step layers c st).
Proof.
  unfold next_choice. destruct (list_find _ _) as [[tid k]|] eqn:E.
  - intros [= <-]. apply list_find_Some in E as (Hk & Hne & _). simpl.
    rewrite Hk. destruct k; [done|eauto].
  - destruct (ps_pool st) eqn:Hp; [done|]. intros [= <-]. simpl. rewrite Hp. simpl. eauto.
Qed.

Lemma default_schedule_complete layers g0 rels fuel st :
  relations_of g0 rels →
  state_inv layers g0 rels st → pass_measure g0 st ≤ fuel →
  ∃ st', run_schedule layers (default_schedule layers fuel st) st = Some st' ∧
         drained st'.
Proof.
  intros Hrels. revert st. induction fuel as [|fuel IH]; intros st HI Hm; simpl.
  - exists st. split; [done|]. apply next_choice_None.
    destruct (next_choice st) as [c|] eqn:E; [|done].
    destruct (next_choice_Some layers st c E) as [st' Hst'].
    assert (pass_measure g0 st' < pass_measure g0 st); [|lia].
    eapply pass_measure_step; [done..|by exists c].
  - destruct (next_choice st) as [c|] eqn:E.
    + destruct (next_choice_Some layers st c E) as [st1 Hst1]. rewrite Hst1. simpl.
      rewrite Hst1. apply IH.
      * eapply state_inv_step; [done..|by exists c].
      * assert (pass_measure g0 st1 < pass_measure g0 st); [|lia].
        eapply pass_measure_step; [done..|by exists c].
    + exists st. split; [done|]. by apply next_choice_None.
Qed.

(** ** The pass as a whole *)

Section Pass.
Context (layers : Z) (g : Depsgraph) (rels : list DepsRelation) (order : list nat).
Hypothesis Hrels : relations_of g rels.
Hypothesis Hfit : links_fit g.
Hypothesis Horder : order ≡ₚ seq 0 (length (operations g)).

Local Abbreviation start := (schedule_graph (pass_start layers g order)).

Lemma pass_inv schedule st :
  run_schedule layers schedule start = Some st →
  state_ordered layers g rels st.
Proof.
  intros Hrun. eapply state_ordered_steps; [done| |by eapply run_schedule_steps].
  split; [by apply state_inv_start|]. intros k e c p Hk. simpl in Hk. by rewrite lookup_nil in Hk.
Qed.

Lemma pass_bounded schedule st :
  run_schedule layers schedule start = Some st →
  length schedule ≤ pass_measure g start.
Proof.
  intros Hrun%run_schedule_nsteps.
  eapply pass_measure_steps in Hrun; [|done|by apply state_inv_start]. lia.
Qed.

Lemma pass_completes :
  ∃ schedule st, evaluate_pass order schedule g layers = Some st.
Proof.
  destruct (default_schedule_complete layers g rels (pass_measure g start) start)
    as (st & Hrun & Hd); [done|by apply state_inv_start|done|].
  exists (default_schedule layers (pass_measure g start) start), st.
  unfold evaluate_pass. fold (pass_start layers g order). rewrite Hrun.
  by rewrite decide_True.
Qed.

Lemma evaluate_pass_inv schedule st :
  evaluate_pass order schedule g layers = Some st →
  run_schedule layers schedule start = Some st ∧ drained st.
Proof.
  unfold evaluate_pass. fold (pass_start layers g order).
  destruct (run_schedule _ _ _) as [st'|]; [|done].
  case_decide; [|done]. by intros [= ->].
Qed.

Lemma pass_at_most_once schedule st c :
  run_schedule layers schedule start = Some st →
  count (EvEvaluate c) (ps_trace st) ≤ 1.
Proof.
  intros [HI _]%pass_inv. pose proof (inv_runs _ _ _ _ _ _ HI c) as H.
  destruct (_ && _); lia.
Qed.

Lemma pass_claims_all schedule st c :
  cycles_flagged g →
  evaluate_pass order schedule g layers = Some st →
  eligible layers (node_at g c) = true →
  sched (ps_graph st) c = true.
Proof.
  intros Hcyc [Hrun Hd]%evaluate_pass_inv Hc.
  destruct (pass_inv _ _ Hrun) as [HI _]. unfold state_inv in HI.
  rewrite (drained_instrs _ Hd) in HI. by eapply drained_claimed.
Qed.

Lemma pass_exactly_once schedule st c :
  cycles_flagged g →
  evaluate_pass order schedule g layers = Some st →
  eligible layers (node_at g c) = true → is_noop (node_at g c) = false →
  count (EvEvaluate c) (ps_trace st) = 1.
Proof.
  intros Hcyc Hpass Hc Hn. pose proof (pass_claims_all _ _ _ Hcyc Hpass Hc) as Hs.
  destruct (evaluate_pass_inv _ _ Hpass) as [Hrun Hd].
  destruct (pass_inv _ _ Hrun) as [HI _]. unfold state_inv in HI.
  rewrite (drained_instrs _ Hd) in HI.
  pose proof (inv_runs _ _ _ _ _ _ HI c) as H. by rewrite Hs, Hn in H.
Qed.
End Pass.

(** ** Only nodes that take part are touched *)

Section Basic.
Context (layers : Z) (g1 : Depsgraph).

Local Abbreviation elig c := (eligible layers (node_at g1 c)).
Local Abbreviation checked := (instr_checked layers g1).
Local Abbreviation BASIC := (Basic layers g1).

Lemma basic_perm g I I' t : I ≡ₚ I' → BASIC g I t → BASIC g I' t.
Proof. intros HI [? ? ? Hin ? ? ?]. split; try done. by rewrite <-HI. Qed.

Lemma basic_change g g' i new evs R t :
  BASIC g (i :: R) t →
  (∀ c, same_static (node_at g c) (node_at g' c)) →
  (∀ c, sched g c = true → sched g' c = true) →
  (∀ c, sched g' c = true → sched g c = true ∨ elig c = true) →
  (∀ c, elig c = false → node_at g' c = node_at g c) →
  Forall (checked g') new →
  (∀ c, EvEvaluate c ∈ evs ∨ EvPush c ∈ evs →
        sched g' c = true ∧ is_noop (node_at g1 c) = false) →
  (∀ c, (EvAssertFailed AssertNotNoop c ∉ evs) ∧
        (EvAssertFailed AssertEvaluate c ∉ evs)) →
  BASIC g' (new ++ R) (t ++ evs).
Proof.
  intros [Hst Hs Hid Hin Hev Hpu Has] Hst' Hmono Hnew Hsame Hok Hevs Hasn. split.
  - intros c. eapply same_static_trans; [apply Hst|apply Hst'].
  - intros c [?|?]%Hnew; auto.
  - intros c Hc. rewrite Hsame by done. by apply Hid.
  - apply Forall_app. split; [done|]. apply Forall_cons_1 in Hin as [_ Hin].
    eapply Forall_impl; [apply Hin|]. intros j. destruct j; simpl; naive_solver.
  - intros c [Hc|Hc]%elem_of_app; [|by apply Hevs; auto].
    destruct (Hev c Hc). auto.
  - intros c [Hc|Hc]%elem_of_app; [|by apply Hevs; auto].
    destruct (Hpu c Hc). auto.
  - intros c. destruct (Has c), (Hasn c). split; intros [?|?]%elem_of_app; done.
Qed.

Lemma basic_head g i R t : BASIC g (i :: R) t → checked g i.
Proof. intros HI. by destruct (Forall_cons_1 _ _ _ (basic_instrs _ _ _ _ _ HI)). Qed.

Lemma basic_eligible g I t c :
  BASIC g I t → eligible layers (node_at g c) = elig c.
Proof. intros HI. apply same_static_eligible, HI. Qed.

Lemma basic_step g i R t :
  BASIC g (i :: R) t →
  BASIC (sr_graph (instr_step layers g i))
      ((ITaskEntry <$> sr_push (instr_step layers g i)) ++
       sr_cont (instr_step layers g i) ++ R)
      (t ++ sr_events (instr_step layers g i)).
Proof.
  intros HI. pose proof (basic_head _ _ _ _ HI) as Hi.
  assert (∀ new evs,
    Forall (checked g) new →
    (∀ c, EvEvaluate c ∈ evs ∨ EvPush c ∈ evs →
          sched g c = true ∧ is_noop (node_at g1 c) = false) →
    (∀ c, (EvAssertFailed AssertNotNoop c ∉ evs) ∧
          (EvAssertFailed AssertEvaluate c ∉ evs)) →
    BASIC g (new ++ R) (t ++ evs)) as Hsame.
  { intros new evs ? ? ?. eapply basic_change; eauto using same_static_refl. }
  assert (∀ c new evs,
    elig c = true →
    Forall (checked (update_node g c atomic_sub_pending)) new →
    (∀ c', (EvEvaluate c' ∉ evs) ∧ (EvPush c' ∉ evs) ∧
          (EvAssertFailed AssertNotNoop c' ∉ evs) ∧
          (EvAssertFailed AssertEvaluate c' ∉ evs)) →
    BASIC (update_node g c atomic_sub_pending) (new ++ R) (t ++ evs)) as Hsub.
  { intros c new evs Hc ? Hevs. eapply basic_change; [done|..|done| |].
    - intros c'. apply same_static_update, atomic_sub_static.
    - intros c'. by rewrite sched_sub.
    - intros c'. rewrite sched_sub. auto.
    - intros c' Hc'. apply node_at_update_ne. congruence.
    - intros c' [?|?]; by destruct (Hevs c') as (?&?&?&?).
    - intros c'. by destruct (Hevs c') as (?&?&?&?). }
  assert (∀ c new evs,
    elig c = true →
    Forall (checked (update_node g c atomic_or_scheduled)) new →
    (∀ c', (EvEvaluate c' ∉ evs) ∧
          (EvPush c' ∈ evs → c' = c ∧ is_noop (node_at g1 c) = false) ∧
          (EvAssertFailed AssertNotNoop c' ∉ evs) ∧
          (EvAssertFailed AssertEvaluate c' ∉ evs)) →
    BASIC (update_node g c atomic_or_scheduled) (new ++ R) (t ++ evs)) as Hor.
  { intros c new evs Hc ? Hevs.
    assert (c < length (operations g)) as Hlt.
    { eapply eligible_in_range. by rewrite (basic_eligible _ _ _ _ HI). }
    eapply basic_change; [done|..|done| |].
    - intros c'. apply same_static_update, atomic_or_static.
    - intros c'. apply sched_or_mono.
    - intros c'. rewrite sched_or by done. case_decide; subst; auto.
    - intros c' Hc'. apply node_at_update_ne. congruence.
    - intros c' [?|?]; destruct (Hevs c') as (?&Hp&?&?); [done|].
      destruct (Hp ltac:(done)) as [-> ?]. split; [|done].
      by rewrite sched_or, decide_True.
    - intros c'. by destruct (Hevs c') as (?&?&?&?). }
  destruct i as [[|c rest]|c dec|c|c|[|r rest]|c|c|c|r|c|c]; unfold instr_step.
  all: simpl in Hi.
  all: repeat match goal with
    | |- context [match evaluate ?n with _ => _ end] => destruct (evaluate n) eqn:?
    | |- context [needs_update ?n && in_layers ?l ?n] =>
        fold (eligible l n); rewrite (basic_eligible _ _ _ _ HI)
    | |- context [match outlinks ?n with _ => _ end] =>
        destruct (outlinks n) as [|? [|? ?]]
    | |- context [if negb ?b then _ else _] => destruct b eqn:?; simpl negb; cbv iota
    | |- context [if ?b then _ else _] => destruct b eqn:?
    end.
  all: cbn [sr_graph sr_cont sr_push sr_events silent fmap list_fmap app].
  all: try (apply (Hsame [] []) || apply (Hsame [_] []) || apply (Hsame [_; _] []);
            [repeat constructor; done|set_solver|set_solver]).
  - (* schedule_node, the decrement *)
    apply (Hsub c [_]); [done|by repeat constructor|].
    intros c'. unfold BLI_assert. destruct (_ <? _)%Z; set_solver.
  - (* schedule_node, the claim is lost *)
    apply (Hor c [] []); [done|done|set_solver].
  - (* schedule_node, a NOOP is claimed *)
    apply (Hor c [_] []); [done|by repeat constructor|set_solver].
  - (* schedule_node, a task is pushed *)
    assert (is_noop (node_at g1 c) = false) as Hn.
    { by rewrite <-(same_static_noop _ _ (basic_static _ _ _ _ _ HI c)). }
    assert (c < length (operations g)) as Hlt.
    { eapply eligible_in_range. by rewrite (basic_eligible _ _ _ _ HI). }
    apply (Hor c [ITaskEntry c] [EvPush c]); [done| |].
    + repeat constructor; [|done]. by rewrite sched_or, decide_True.
    + intros c'. repeat split; set_solver.
  - (* deg_task_run_func, entry *)
    destruct Hi as [Hs Hn].
    rewrite (same_static_noop _ _ (basic_static _ _ _ _ _ HI c)), Hn.
    assert (bool_decide (is_Some (evaluate (node_at g c))) = true) as ->.
    { apply bool_decide_eq_true.
      rewrite <-(same_static_noop _ _ (basic_static _ _ _ _ _ HI c)) in Hn.
      unfold is_noop in Hn. by destruct (evaluate (node_at g c)). }
    apply (Hsame [_] []); [by repeat constructor|set_solver|set_solver].
  - (* deg_task_run_func, the call of evaluate *)
    assert (is_noop (node_at g1 c) = false) as Hn.
    { rewrite <-(same_static_noop _ _ (basic_static _ _ _ _ _ HI c)).
      unfold is_noop. by destruct (evaluate (node_at g c)). }
    apply (Hsame [_] [_; _; _]); [by repeat constructor| |set_solver].
    intros c' [Hc'|Hc']; [|set_solver].
    assert (c' = c) as -> by set_solver. done.
  - (* deg_task_run_func, the decrement *)
    apply (Hsub (rel_to r) [_]); [done|by repeat constructor|].
    intros c'. unfold BLI_assert. destruct (_ <? _)%Z; set_solver.
  - (* deg_task_run_func, the claim is lost *)
    apply (Hor c [] []); [done|done|set_solver].
  - (* deg_task_run_func, the claim is won *)
    assert (c < length (operations g)) as Hlt.
    { eapply eligible_in_range. by rewrite (basic_eligible _ _ _ _ HI). }
    apply (Hor c [_] []); [done| |set_solver].
    repeat constructor. cbn [instr_checked]. by rewrite sched_or, decide_True.
Qed.

Lemma basic_start g :
  (∀ c, sched g1 c = false) →
  g = g1 →
  BASIC g [IScheduleGraph (seq 0 (length (operations g1)))] [].
Proof.
  intros Hs ->. split.
  - intros c. apply same_static_refl.
  - intros c. by rewrite Hs.
  - done.
  - by repeat constructor.
  - intros c ?%elem_of_nil. done.
  - intros c ?%elem_of_nil. done.
  - intros c. split; apply not_elem_of_nil.
Qed.

Local Abbreviation state_basic := (state_basic layers g1).

Lemma state_basic_step st st' :
  state_basic st → step layers st st' → state_basic st'.
Proof.
  intros HI [[tid|slot] Hstep].
  - apply all_instrs_run in Hstep as (i & R & HR & Hg & _ & HR' & Ht).
    unfold state_basic. rewrite Hg, Ht. eapply basic_perm; [symmetry; apply HR'|].
    apply basic_step. eapply basic_perm; [apply HR|]. done.
  - apply all_instrs_start in Hstep as (Hg & Ht & HR & _).
    unfold state_basic. rewrite Hg, Ht. eapply basic_perm; [symmetry; apply HR|]. done.
Qed.

Lemma state_basic_steps st st' :
  state_basic st → rtc (step layers) st st' → state_basic st'.
Proof. intros HI Hs. induction Hs; eauto using state_basic_step. Qed.
End Basic.

Lemma pass_basic layers g order schedule st :
  order ≡ₚ seq 0 (length (operations g)) →
  run_schedule layers schedule (schedule_graph (pass_start layers g order)) = Some st →
  state_basic layers (pass_start layers g order) st.
Proof.
  intros Hp Hrun. eapply state_basic_steps; [|by eapply run_schedule_steps].
  unfold state_basic, schedule_graph, all_instrs.
  cbn [ps_graph ps_pool ps_threads ps_trace]. simpl.
  apply basic_start; [|done].
  intros c. unfold sched.
  rewrite pass_start_node by done.
  by case_decide.
Qed.

(** ** The stack of a worker *)

Lemma thread_shape_task i k :
  thread_shape (i :: k) → is_task_instr i = true → k = [].
Proof.
  intros [[j [= -> ->]]|H] Hi; [done|].
  apply Forall_cons_1 in H as [H _]. congruence.
Qed.

Lemma thread_shape_step layers g i k :
  thread_shape (i :: k) →
  thread_shape (sr_cont (instr_step layers g i) ++ k).
Proof.
  intros Hs. destruct (is_task_instr i) eqn:Hi.
  - rewrite (thread_shape_task i k Hs Hi), app_nil_r.
    destruct i as [[|c rest]|c dec|c|c|[|r rest]|c|c|c|r|c|c]; try done;
      unfold instr_step.
    all: repeat match goal with
      | |- context [match outlinks ?n with _ => _ end] =>
          destruct (outlinks n) as [|? [|? ?]]
      | |- context [if ?b then _ else _] => destruct b
      end.
    all: simpl; first [by left; eexists | by right].
  - assert (Forall (λ j, is_task_instr j = false) k) as Hk.
    { destruct Hs as [[j [= -> ->]]|H]; [done|]. by apply Forall_cons_1 in H as [_ ?]. }
    right. apply Forall_app. split; [|done].
    destruct i as [[|c rest]|c dec|c|c|[|r rest]|c|c|c|r|c|c]; try done;
      unfold instr_step.
    all: repeat match goal with
      | |- context [if ?b then _ else _] => destruct b
      end.
    all: simpl; by repeat constructor.
Qed.

Lemma threads_shape_step layers st st' :
  Forall thread_shape (ps_threads st) → step layers st st' →
  Forall thread_shape (ps_threads st').
Proof.
  intros Hs [[tid|slot] Hstep]; unfold sched_step in Hstep.
  - destruct (ps_threads st !! tid) as [[|i k]|] eqn:E; try done.
    injection Hstep as <-. simpl. apply Forall_insert; [done|].
    apply thread_shape_step. rewrite Forall_forall in Hs.
    eapply Hs, list_elem_of_lookup_2, E.
  - destruct (ps_pool st !! slot); [|done]. injection Hstep as <-. simpl.
    apply Forall_app. split; [done|]. apply Forall_singleton. left. by eexists.
Qed.

Lemma threads_shape layers g schedule st :
  run_schedule layers schedule (schedule_graph g) = Some st →
  Forall thread_shape (ps_threads st).
Proof.
  intros Hrun%run_schedule_steps.
  assert (Forall thread_shape (ps_threads (schedule_graph g))) as H0.
  { apply Forall_singleton. left. by eexists. }
  induction Hrun; eauto using threads_shape_step.
Qed.

(** * Properties of the evaluation *)

(** C3: after the readiness pre-pass every operation has [scheduled] false
    and [num_links_pending] equal to the number of its incoming relations
    that are not cyclic and start at an operation which is on the layers of
    the pass and needs update, when the node itself is on the layers and
    needs update, and 0 otherwise; nothing else of the node changes.  The
    pre-pass on threads leaves the very graph that the sequential pre-pass
    leaves: whatever the order of the calls of [calculate_pending_func], and
    also when the calls run on any number of threads one access at a time,
    whatever the interleaving; such a run always comes to an end. *)
Theorem calculate_pending_parents_spec layers g order threads :
  links_fit g →
  order ≡ₚ seq 0 (length (operations g)) →
  (∀ i n, operations g !! i = Some n →
     ∃ n', operations (calculate_pending_parents order g layers) !! i = Some n' ∧
       scheduled n' = false ∧
       num_links_pending n' =
         (if eligible layers n
          then Z.of_nat (length (filter (counted_relation layers g) (inlinks n)))
          else 0%Z) ∧
       same_static n n' ∧ op_done n' = op_done n) ∧
  length (operations (calculate_pending_parents order g layers)) =
    length (operations g) ∧
  calculate_pending_parents order g layers =
    calculate_pending_parents (seq 0 (length (operations g))) g layers ∧
  (∀ cs st,
     range_run layers cs (range_start threads g) = Some st →
     length cs ≤ range_measure g (range_start threads g) ∧
     (range_done st →
      rs_graph st = calculate_pending_parents (seq 0 (length (operations g))) g layers)) ∧
  (0 < threads →
   ∃ cs st, range_run layers cs (range_start threads g) = Some st ∧ range_done st).
Proof.
  intros Hfit Hp. split; [|split; [|split]].
  - intros i n Hn. exists (prepass_node layers g n).
    rewrite prepass_operations, list_lookup_fmap, Hn by done. split; [done|].
    split; [done|]. split; [|by repeat split].
    simpl. unfold prepass_pending. destruct (eligible layers n); [|done].
    apply uint32_small. split; [lia|].
    unfold links_fit in Hfit. rewrite Forall_forall in Hfit.
    specialize (Hfit n (list_elem_of_lookup_2 _ _ _ Hn)).
    pose proof (length_filter (counted_relation layers g) (inlinks n)). lia.
  - by rewrite prepass_operations, length_fmap.
  - by rewrite !prepass_graph.
  - by apply prepass_threads.
Qed.

Lemma calculate_pending_parents_star :
  (∀ i n, operations star !! i = Some n →
     ∃ n', operations (calculate_pending_parents (reverse (seq 0 300)) star 1) !! i = Some n' ∧
       scheduled n' = false ∧
       num_links_pending n' =
         (if eligible 1 n
          then Z.of_nat (length (filter (counted_relation 1 star) (inlinks n)))
          else 0%Z) ∧
       same_static n n' ∧ op_done n' = op_done n) ∧
  length (operations (calculate_pending_parents (reverse (seq 0 300)) star 1)) =
    length (operations star) ∧
  calculate_pending_parents (reverse (seq 0 300)) star 1 =
    calculate_pending_parents (seq 0 (length (operations star))) star 1 ∧
  (∀ cs st,
     range_run 1 cs (range_start 4 star) = Some st →
     length cs ≤ range_measure star (range_start 4 star) ∧
     (range_done st →
      rs_graph st = calculate_pending_parents (seq 0 (length (operations star))) star 1)) ∧
  (0 < 4 →
   ∃ cs st, range_run 1 cs (range_start 4 star) = Some st ∧ range_done st).
Proof.
  apply (calculate_pending_parents_spec 1 star (reverse (seq 0 300)) 4).
  - unfold links_fit. apply (bool_decide_unpack _). vm_compute. reflexivity.
  - rewrite reverse_Permutation. reflexivity.
Defined.

(** C8: with no entry tag, [DEG_evaluate_on_refresh_ex] returns at once:
    the context and the graph it leaves are the ones it was given, and no
    callback has run. *)
Theorem refresh_without_tags order schedule eval_ctx g layers :
  entry_tags g = [] →
  DEG_evaluate_on_refresh_ex order schedule eval_ctx g layers =
  Some (Returned eval_ctx g []).
Proof. intros H. unfold DEG_evaluate_on_refresh_ex. by rewrite H. Qed.

Lemma refresh_without_tags_chain :
  DEG_evaluate_on_refresh_ex [] [RunThread 0] some_context (set_entry_tags [] chain4) 1 =
  Some (Returned some_context (set_entry_tags [] chain4) []).
Proof.
  apply (refresh_without_tags [] [RunThread 0] some_context (set_entry_tags [] chain4) 1).
  reflexivity.
Defined.

(** C9: the three entry points read [cfra] of the time source without a
    test: on a graph with no time source, [DEG_evaluate_on_refresh_ex] past
    its early out, and [DEG_evaluate_on_refresh] and
    [DEG_evaluate_on_framechange] in every case, dereference a null
    pointer. *)
Theorem time_source_is_dereferenced
    tag_update flush order schedule eval_ctx g frame layers :
  time_source g = None →
  (length (entry_tags g) ≠ 0 →
   DEG_evaluate_on_refresh_ex order schedule eval_ctx g layers = Some NullDereference) ∧
  DEG_evaluate_on_refresh order schedule eval_ctx g frame = Some NullDereference ∧
  DEG_evaluate_on_framechange tag_update flush order schedule eval_ctx g frame layers =
    Some NullDereference.
Proof.
  intros H. unfold DEG_evaluate_on_refresh_ex, DEG_evaluate_on_refresh,
    DEG_evaluate_on_framechange. rewrite H. split; [|done].
  intros Hn. by rewrite decide_False.
Qed.

Lemma time_source_is_dereferenced_chain :
  (length (entry_tags (set_time_source None chain4)) ≠ 0 →
   DEG_evaluate_on_refresh_ex [] [] some_context (set_time_source None chain4) 1 =
     Some NullDereference) ∧
  DEG_evaluate_on_refresh [] [] some_context (set_time_source None chain4) 2 =
    Some NullDereference ∧
  DEG_evaluate_on_framechange id id [] [] some_context (set_time_source None chain4) 2 1 =
    Some NullDereference.
Proof.
  apply (time_source_is_dereferenced id id [] [] some_context
           (set_time_source None chain4) 2 1).
  reflexivity.
Defined.

Section PassFacts.
Context (layers : Z) (g : Depsgraph) (order : list nat).
Hypothesis Horder : order ≡ₚ seq 0 (length (operations g)).

Local Abbreviation start := (schedule_graph (pass_start layers g order)).

Lemma pass_start_static c :
  same_static (node_at g c) (node_at (pass_start layers g order) c).
Proof using Horder.
  rewrite pass_start_node by done. case_decide; [by repeat split|].
  rewrite node_at_blank by (apply lookup_ge_None_2; lia). apply same_static_refl.
Qed.

Lemma pass_eligible schedule st c :
  run_schedule layers schedule start = Some st →
  eligible layers (node_at (ps_graph st) c) = eligible layers (node_at g c).
Proof using Horder.
  intros HI%pass_basic; [|done]. apply same_static_eligible.
  eapply same_static_trans; [apply pass_start_static|apply HI].
Qed.

Lemma pass_noop schedule st c :
  run_schedule layers schedule start = Some st →
  is_noop (node_at (ps_graph st) c) = is_noop (node_at g c).
Proof using Horder.
  intros HI%pass_basic; [|done]. apply same_static_noop.
  eapply same_static_trans; [apply pass_start_static|apply HI].
Qed.

Lemma pass_claimed_eligible schedule st c :
  run_schedule layers schedule start = Some st →
  sched (ps_graph st) c = true → eligible layers (node_at g c) = true.
Proof using Horder.
  intros HI%pass_basic Hs; [|done].
  rewrite <-(same_static_eligible _ _ _ (pass_start_static c)).
  by eapply basic_sched.
Qed.

Lemma pass_instr_checked schedule st i :
  run_schedule layers schedule start = Some st →
  i ∈ all_instrs st →
  instr_checked layers (pass_start layers g order) (ps_graph st) i.
Proof using Horder.
  intros HI%pass_basic Hi; [|done].
  pose proof (basic_instrs _ _ _ _ _ HI) as H. rewrite Forall_forall in H. by apply H.
Qed.

Lemma thread_instr st k i : k ∈ ps_threads st → i ∈ k → i ∈ all_instrs st.
Proof.
  intros Hk Hi. unfold all_instrs. apply elem_of_app. right.
  apply list_elem_of_join. eauto.
Qed.

Lemma pool_instr st c : c ∈ ps_pool st → ITaskEntry c ∈ all_instrs st.
Proof.
  intros Hc. unfold all_instrs. apply elem_of_app. left.
  by apply list_elem_of_fmap_2.
Qed.

Lemma pass_idle schedule st c :
  run_schedule layers schedule start = Some st →
  eligible layers (node_at g c) = false →
  node_at (ps_graph st) c = node_at (pass_start layers g order) c.
Proof using Horder.
  intros HI%pass_basic Hc; [|done]. apply (basic_idle _ _ _ _ _ HI).
  by rewrite (same_static_eligible _ _ _ (pass_start_static c)).
Qed.
End PassFacts.

(** C10: when the node a worker has just run has one outgoing relation, and
    the child is not claimed and either does not need update or is off the
    layers of the pass, the worker leaves [deg_task_run_func] at its next
    step; that step changes no field of any node, pushes no task and calls
    nothing, and no later step of the pass changes the child either. *)
Theorem worker_leaves_idle_child layers g order schedule st tid k node rel :
  order ≡ₚ seq 0 (length (operations g)) →
  run_schedule layers schedule (schedule_graph (pass_start layers g order)) = Some st →
  ps_threads st !! tid = Some (ITaskLinks node :: k) →
  outlinks (node_at (ps_graph st) node) = [rel] →
  scheduled (node_at (ps_graph st) (rel_to rel)) = false →
  needs_update (node_at (ps_graph st) (rel_to rel)) = false ∨
  in_layers layers (node_at (ps_graph st) (rel_to rel)) = false →
  ∃ st',
    sched_step layers (RunThread tid) st = Some st' ∧
    ps_threads st' !! tid = Some [] ∧
    ps_graph st' = ps_graph st ∧ ps_pool st' = ps_pool st ∧
    ps_trace st' = ps_trace st ∧
    ∀ later st'', run_schedule layers later st' = Some st'' →
      node_at (ps_graph st'') (rel_to rel) = node_at (ps_graph st) (rel_to rel).
Proof.
  intros Hp Hrun Hk Hout Hs Hidle.
  assert (k = []) as ->.
  { pose proof (threads_shape _ _ _ _ Hrun) as Hsh. rewrite Forall_forall in Hsh.
    eapply (thread_shape_task (ITaskLinks node)); [|done].
    eapply Hsh, list_elem_of_lookup_2, Hk. }
  assert (eligible layers (node_at (ps_graph st) (rel_to rel)) = false) as He.
  { unfold eligible. destruct Hidle as [-> | ->]; [done|apply andb_false_r]. }
  assert (instr_step layers (ps_graph st) (ITaskLinks node) = silent (ps_graph st) [])
    as Hstep.
  { unfold instr_step. rewrite Hout, Hs. simpl. fold (eligible layers (node_at (ps_graph st) (rel_to rel))).
    by rewrite He. }
  eexists. split; [|split; [|split; [|split; [|split]]]].
  - unfold sched_step. rewrite Hk, Hstep. simpl. reflexivity.
  - simpl. apply list_lookup_insert_eq. by eapply lookup_lt_Some.
  - done.
  - simpl. apply app_nil_r.
  - simpl. apply app_nil_r.
  - intros later st'' Hlater.
    assert (eligible layers (node_at g (rel_to rel)) = false) as Hg.
    { by rewrite <-(pass_eligible layers g order Hp schedule st). }
    rewrite (pass_idle layers g order Hp schedule st) by done.
    apply (pass_idle layers g order Hp (schedule ++ RunThread tid :: later)); [|done].
    rewrite run_schedule_app, Hrun. cbn [mbind option_bind run_schedule].
    unfold sched_step at 1. rewrite Hk, Hstep. simpl. exact Hlater.
Qed.

Lemma worker_leaves_idle_child_off_layer :
  ∃ st st',
    run_schedule 1 (replicate 7 (RunThread 0) ++ [StartTask 0; RunThread 1; RunThread 1])
      (schedule_graph (pass_start 1 (off_layer 1) [1; 0])) = Some st ∧
    sched_step 1 (RunThread 1) st = Some st' ∧
    ps_threads st' !! 1 = Some [] ∧
    ps_graph st' = ps_graph st ∧ ps_pool st' = ps_pool st ∧
    ps_trace st' = ps_trace st ∧
    ∀ later st'', run_schedule 1 later st' = Some st'' →
      node_at (ps_graph st'') 1 = node_at (ps_graph st) 1.
Proof.
  destruct (run_schedule 1 _ _) as [st|] eqn:Hrun; [|by vm_compute in Hrun].
  assert (Hst := Hrun). vm_compute in Hst. injection Hst as Hst.
  assert ([1; 0] ≡ₚ seq 0 (length (operations (off_layer 1)))) as Hperm
    by by apply (bool_decide_unpack _).
  destruct (worker_leaves_idle_child 1 (off_layer 1) [1; 0] _ st 1 [] 0
              (mk_relation 0 1 0) Hperm Hrun) as (st' & H);
    [by rewrite <-Hst..|rewrite <-Hst; by right|].
  exists st, st'. split; [reflexivity|exact H].
Defined.

Lemma refresh_returned order schedule eval_ctx g layers eval_ctx' g' trace :
  DEG_evaluate_on_refresh_ex order schedule eval_ctx g layers =
    Some (Returned eval_ctx' g' trace) →
  trace = [] ∨
  ∃ st, evaluate_pass order schedule g layers = Some st ∧
        trace = EvEvalBegin :: ps_trace st ++ [EvEvalEnd].
Proof.
  unfold DEG_evaluate_on_refresh_ex. case_decide; [intros [= _ _ <-]; by left|].
  destruct (time_source g); [|done].
  destruct (evaluate_pass order schedule g layers) as [st|]; [|done].
  intros [= _ _ <-]. right. by exists st.
Qed.

Lemma count_trace_wrap c t :
  count (EvEvaluate c) (EvEvalBegin :: t ++ [EvEvalEnd]) = count (EvEvaluate c) t.
Proof.
  rewrite count_cons, count_app, count_singleton.
  rewrite !decide_False by done. lia.
Qed.

Lemma elem_trace_wrap e t :
  e ≠ EvEvalBegin → e ≠ EvEvalEnd →
  e ∈ EvEvalBegin :: t ++ [EvEvalEnd] → e ∈ t.
Proof. set_solver. Qed.

Lemma tags_of_eligible layers g c :
  tags_recorded g → eligible layers (node_at g c) = true → entry_tags g ≠ [].
Proof.
  intros Ht Hc He. pose proof (eligible_in_range _ _ _ Hc) as Hr.
  apply lookup_lt_is_Some in Hr as [n Hn].
  rewrite (node_at_lookup _ _ _ Hn) in Hc.
  apply andb_true_iff in Hc as [Hc _].
  pose proof (proj1 (Forall_lookup _ _) (Ht He) c n Hn) as H. simpl in H. congruence.
Qed.

Lemma refresh_early_out order schedule eval_ctx g layers :
  entry_tags g = [] →
  DEG_evaluate_on_refresh_ex order schedule eval_ctx g layers =
    Some (Returned eval_ctx g []).
Proof. intros H. unfold DEG_evaluate_on_refresh_ex. by rewrite H. Qed.

Lemma refresh_runs_pass order schedule eval_ctx g layers ts :
  entry_tags g ≠ [] → time_source g = Some ts →
  DEG_evaluate_on_refresh_ex order schedule eval_ctx g layers =
    (λ st, Returned (set_ctime (cfra ts) eval_ctx) (DEG_graph_clear_tags (ps_graph st))
             (EvEvalBegin :: ps_trace st ++ [EvEvalEnd])) <$>
    evaluate_pass order schedule g layers.
Proof.
  intros Ht Hs. unfold DEG_evaluate_on_refresh_ex. rewrite Hs.
  rewrite decide_False; [|by destruct (entry_tags g)].
  by destruct (evaluate_pass _ _ _ _).
Qed.

Lemma pass_only_eligible layers g rels order schedule st c :
  relations_of g rels → links_fit g →
  order ≡ₚ seq 0 (length (operations g)) →
  run_schedule layers schedule (schedule_graph (pass_start layers g order)) = Some st →
  EvEvaluate c ∈ ps_trace st →
  eligible layers (node_at g c) = true ∧ is_noop (node_at g c) = false.
Proof.
  intros Hrels Hfit Hp Hrun Hin.
  destruct (pass_inv layers g rels order Hrels Hfit Hp schedule st Hrun) as [HI _].
  pose proof (inv_runs _ _ _ _ _ _ HI c) as Hr.
  apply count_pos in Hin.
  destruct (sched (ps_graph st) c) eqn:Hs; simpl in Hr; [|lia].
  destruct (is_noop (node_at g c)) eqn:Hn; simpl in Hr; [lia|].
  split; [|done]. by apply (inv_sched_eligible _ _ _ _ _ _ HI).
Qed.

(** C7: a node whose owning ID is on none of the layers of the pass is left
    alone, whatever its flag: at no point of the pass has its callback been
    called or the node been pushed to the pool, it is neither in the pool
    nor in the hands of a worker, and its fields are those the pre-pass left;
    the trace [DEG_evaluate_on_refresh_ex] returns holds no call of its
    callback. *)
Theorem off_layer_node_never_runs layers g order schedule st c :
  order ≡ₚ seq 0 (length (operations g)) →
  run_schedule layers schedule (schedule_graph (pass_start layers g order)) = Some st →
  in_layers layers (node_at g c) = false →
  (EvEvaluate c ∉ ps_trace st) ∧ (EvPush c ∉ ps_trace st) ∧
  (c ∉ ps_pool st) ∧
  (∀ k i, k ∈ ps_threads st → i ∈ k → is_task_instr i = true →
          i ≠ ITaskEntry c ∧ i ≠ ITaskLoop c ∧ i ≠ ITaskLinks c ∧ i ≠ ITaskClaim c) ∧
  node_at (ps_graph st) c = node_at (pass_start layers g order) c ∧
  ∀ complete eval_ctx eval_ctx' g' trace,
    DEG_evaluate_on_refresh_ex order complete eval_ctx g layers =
      Some (Returned eval_ctx' g' trace) →
    EvEvaluate c ∉ trace.
Proof.
  intros Hp Hrun Hc.
  assert (eligible layers (node_at g c) = false) as He.
  { unfold eligible. rewrite Hc. apply andb_false_r. }
  assert (∀ schedule st, 
    run_schedule layers schedule (schedule_graph (pass_start layers g order)) = Some st →
    sched (ps_graph st) c = false) as Hns.
  { intros s' st' Hrun'. destruct (sched (ps_graph st') c) eqn:Hs; [|done].
    pose proof (pass_claimed_eligible layers g order Hp s' st' c Hrun' Hs). congruence. }
  assert (∀ schedule st, 
    run_schedule layers schedule (schedule_graph (pass_start layers g order)) = Some st →
    EvEvaluate c ∉ ps_trace st) as Hne.
  { intros s' st' Hrun' Hin. pose proof (pass_basic layers g order s' st' Hp Hrun') as HI.
    destruct (basic_evaluated _ _ _ _ _ HI c Hin) as [Hs _].
    rewrite (Hns s' st' Hrun') in Hs. done. }
  pose proof (pass_basic layers g order schedule st Hp Hrun) as HI.
  specialize (Hns schedule st Hrun) as Hs.
  split; [by eapply Hne|]. split; [|split; [|split; [|split]]].
  - intros Hin. destruct (basic_pushed _ _ _ _ _ HI c Hin) as [? _]. congruence.
  - intros Hin%pool_instr.
    pose proof (pass_instr_checked layers g order Hp schedule st _ Hrun Hin) as [? _].
    congruence.
  - intros k i Hk Hi Ht.
    pose proof (pass_instr_checked layers g order Hp schedule st i Hrun
                  (thread_instr st k i Hk Hi)) as Hok.
    repeat split; intros ->; simpl in Hok.
    + destruct Hok. congruence.
    + congruence.
    + congruence.
    + rewrite (same_static_eligible _ _ _ (pass_start_static layers g order Hp c)) in Hok.
      congruence.
  - by eapply pass_idle.
  - intros complete eval_ctx eval_ctx' g' trace [->|(st' & Hpass & ->)]%refresh_returned;
      [apply not_elem_of_nil|].
    apply evaluate_pass_inv in Hpass as [Hrun' _].
    intros Hin%elem_trace_wrap; [|done..]. by eapply Hne.
Qed.

Lemma off_layer_node_never_runs_example :
  ∃ st,
    run_schedule 1 (default_schedule 1 20 (schedule_graph (pass_start 1 (off_layer 1) [1; 0])))
      (schedule_graph (pass_start 1 (off_layer 1) [1; 0])) = Some st ∧
    (EvEvaluate 1 ∉ ps_trace st) ∧ (EvPush 1 ∉ ps_trace st) ∧
    (1 ∉ ps_pool st) ∧
    (∀ k i, k ∈ ps_threads st → i ∈ k → is_task_instr i = true →
            i ≠ ITaskEntry 1 ∧ i ≠ ITaskLoop 1 ∧ i ≠ ITaskLinks 1 ∧ i ≠ ITaskClaim 1) ∧
    node_at (ps_graph st) 1 = node_at (pass_start 1 (off_layer 1) [1; 0]) 1 ∧
    ∀ complete eval_ctx eval_ctx' g' trace,
      DEG_evaluate_on_refresh_ex [1; 0] complete eval_ctx (off_layer 1) 1 =
        Some (Returned eval_ctx' g' trace) →
      EvEvaluate 1 ∉ trace.
Proof.
  destruct (run_schedule 1 _ _) as [st|] eqn:Hrun; [|by vm_compute in Hrun].
  exists st. split; [done|].
  eapply (off_layer_node_never_runs 1 (off_layer 1) [1; 0]).
  - by apply (bool_decide_unpack _).
  - exact Hrun.
  - reflexivity.
Defined.

(** C6, as stated, fails: on A -> B with B a NOOP, the worker that ran A
    claims B and goes round its loop with [node] set to B, whose [evaluate]
    is null. *)
Lemma chained_noop_reaches_worker_loop :
  ∃ st,
    run_schedule 1
      (replicate 8 (RunThread 0) ++ [StartTask 0] ++ replicate 6 (RunThread 1))
      (schedule_graph (pass_start 1 noop_chain [0; 1])) = Some st ∧
    ps_threads st !! 1 = Some [ITaskLoop 1] ∧
    evaluate (node_at (ps_graph st) 1) = None ∧
    is_noop (node_at (ps_graph st) 1) = true.
Proof. eexists. split; [vm_compute; reflexivity|]. by vm_compute. Qed.

(** C6, amended: every node with which [deg_task_run_func] is entered, that
    is every task of the pool, has a callback, so that the two assertions at
    the entry of the function never fail, and only nodes with a callback are
    evaluated; a node reached by chaining may be a NOOP, and the loop then
    calls nothing for it. *)
Theorem worker_entry_has_callback layers g order schedule st :
  order ≡ₚ seq 0 (length (operations g)) →
  run_schedule layers schedule (schedule_graph (pass_start layers g order)) = Some st →
  (∀ c, c ∈ ps_pool st → is_Some (evaluate (node_at g c))) ∧
  (∀ k c, k ∈ ps_threads st → ITaskEntry c ∈ k → is_Some (evaluate (node_at g c))) ∧
  (∀ c, (EvAssertFailed AssertNotNoop c ∉ ps_trace st) ∧
        (EvAssertFailed AssertEvaluate c ∉ ps_trace st)) ∧
  (∀ c, EvEvaluate c ∈ ps_trace st → is_Some (evaluate (node_at g c))) ∧
  (∀ c, evaluate (node_at (ps_graph st) c) = None →
        sr_events (instr_step layers (ps_graph st) (ITaskLoop c)) = []).
Proof.
  intros Hp Hrun. pose proof (pass_basic layers g order schedule st Hp Hrun) as HI.
  assert (∀ c, is_noop (node_at (pass_start layers g order) c) = false →
               is_Some (evaluate (node_at g c))) as Hcb.
  { intros c. rewrite (same_static_noop _ _ (pass_start_static layers g order Hp c)).
    unfold is_noop. destruct (evaluate (node_at g c)); [eauto|done]. }
  split; [|split; [|split; [|split]]].
  - intros c Hin%pool_instr.
    pose proof (pass_instr_checked layers g order Hp schedule st _ Hrun Hin) as [_ ?].
    by apply Hcb.
  - intros k c Hk Hi.
    pose proof (pass_instr_checked layers g order Hp schedule st _ Hrun
                  (thread_instr st k _ Hk Hi)) as [_ ?].
    by apply Hcb.
  - apply HI.
  - intros c Hin. destruct (basic_evaluated _ _ _ _ _ HI c Hin) as [_ ?]. by apply Hcb.
  - intros c Hc. simpl. by rewrite Hc.
Qed.

Lemma worker_entry_has_callback_noop_chain :
  ∃ st,
    run_schedule 1 (replicate 8 (RunThread 0) ++ [StartTask 0; RunThread 1])
      (schedule_graph (pass_start 1 noop_chain [0; 1])) = Some st ∧
    (∀ c, c ∈ ps_pool st → is_Some (evaluate (node_at noop_chain c))) ∧
    (∀ k c, k ∈ ps_threads st → ITaskEntry c ∈ k →
            is_Some (evaluate (node_at noop_chain c))) ∧
    (∀ c, (EvAssertFailed AssertNotNoop c ∉ ps_trace st) ∧
          (EvAssertFailed AssertEvaluate c ∉ ps_trace st)) ∧
    (∀ c, EvEvaluate c ∈ ps_trace st → is_Some (evaluate (node_at noop_chain c))) ∧
    (∀ c, evaluate (node_at (ps_graph st) c) = None →
          sr_events (instr_step 1 (ps_graph st) (ITaskLoop c)) = []).
Proof.
  destruct (run_schedule 1 _ _) as [st|] eqn:Hrun; [|by vm_compute in Hrun].
  exists st. split; [done|].
  eapply (worker_entry_has_callback 1 noop_chain [0; 1]).
  - by apply (bool_decide_unpack _).
  - exact Hrun.
Defined.

Lemma sched_or_inv g c' c :
  sched (update_node g c' atomic_or_scheduled) c = true →
  sched g c = true ∨ c' = c.
Proof.
  unfold sched. rewrite node_at_update. case_decide as H; [|auto].
  destruct H as [-> _]. auto.
Qed.

Lemma claim_at_zero layers g0 rels g i R t c :
  Inv layers g0 rels g (i :: R) t →
  sched g c = false → sched (sr_graph (instr_step layers g i)) c = true →
  pend g c = 0%Z.
Proof.
  intros HI Hs. pose proof (Forall_cons_1 _ _ _ (inv_instrs _ _ _ _ _ _ HI)) as [Hi _].
  destruct i as [[|? ?]|c' dec|c'|c'|[|? ?]|c'|c'|c'|r|c'|c']; unfold instr_step.
  all: repeat match goal with
    | |- context [match outlinks ?n with _ => _ end] =>
        destruct (outlinks n) as [|? [|? ?]]
    | |- context [if ?b then _ else _] => destruct b
    end.
  all: simpl sr_graph; rewrite ?sched_sub; try congruence.
  all: intros [?| ->]%sched_or_inv; [congruence|]; simpl in Hi; by destruct Hi.
Qed.

(** C1: on a graph with no cyclic relation, whose relations close no
    cycle, a pass calls the callback of every node that needs update and is
    on the layers of the pass exactly once, and of no other node.  No run of
    the scheduler calls a callback twice or goes on for ever;
    [DEG_evaluate_on_refresh_ex] returns under some schedule; and whenever it
    returns, every such node has been claimed and the trace holds one call
    of its callback. *)
Theorem tagged_nodes_run_exactly_once layers g rels order ts eval_ctx :
  relations_of g rels → links_fit g →
  tags_recorded g → time_source g = Some ts →
  no_cyclic_relations g → cycles_flagged g →
  order ≡ₚ seq 0 (length (operations g)) →
  (∀ schedule st,
     run_schedule layers schedule (schedule_graph (pass_start layers g order)) = Some st →
     length schedule ≤ pass_measure g (schedule_graph (pass_start layers g order)) ∧
     ∀ c, count (EvEvaluate c) (ps_trace st) ≤ 1) ∧
  (∃ schedule out,
     DEG_evaluate_on_refresh_ex order schedule eval_ctx g layers = Some out) ∧
  (∀ schedule out,
     DEG_evaluate_on_refresh_ex order schedule eval_ctx g layers = Some out →
     ∃ eval_ctx' g' trace,
       out = Returned eval_ctx' g' trace ∧
       (∀ c, eligible layers (node_at g c) = true → sched g' c = true) ∧
       (∀ c, count (EvEvaluate c) trace =
             if eligible layers (node_at g c) && negb (is_noop (node_at g c))
             then 1 else 0)).
Proof.
  intros Hrels Hfit Htags Hts _ Hcyc Hp. split; [|split].
  - intros schedule st Hrun. split; [by eapply pass_bounded|].
    intros c. by eapply pass_at_most_once.
  - destruct (decide (entry_tags g = [])) as [He|He].
    + exists [], (Returned eval_ctx g []). by apply refresh_early_out.
    + destruct (pass_completes layers g rels order Hrels Hfit Hp)
        as (schedule & st & Hpass).
      exists schedule. eexists. rewrite (refresh_runs_pass _ _ _ _ _ ts) by done.
      by rewrite Hpass.
  - intros schedule out Hout.
    destruct (decide (entry_tags g = [])) as [He|He].
    + rewrite refresh_early_out in Hout by done. injection Hout as <-.
      exists eval_ctx, g, []. split; [done|].
      assert (∀ c, eligible layers (node_at g c) = false) as Hno.
      { intros c. destruct (eligible layers (node_at g c)) eqn:Hc; [|done].
        by destruct (tags_of_eligible layers g c Htags Hc). }
      split; [intros c Hc; by rewrite Hno in Hc|].
      intros c. by rewrite Hno.
    + rewrite (refresh_runs_pass _ _ _ _ _ ts) in Hout by done.
      destruct (evaluate_pass order schedule g layers) as [st|] eqn:Hpass; [|done].
      injection Hout as <-. do 3 eexists. split; [done|]. split.
      * intros c Hc. by eapply (pass_claims_all layers g rels).
      * intros c. rewrite count_trace_wrap.
        destruct (eligible layers (node_at g c) && negb (is_noop (node_at g c))) eqn:E.
        -- apply andb_true_iff in E as [Hc Hn%negb_true_iff].
           by eapply (pass_exactly_once layers g rels).
        -- apply count_zero. intros Hin.
           apply evaluate_pass_inv in Hpass as [Hrun _].
           destruct (pass_only_eligible layers g rels order schedule st c
                       Hrels Hfit Hp Hrun Hin) as [H1 H2].
           rewrite H1, H2 in E. done.
Qed.

(** C2: at every point of a pass, the trace is ordered by the
    dependencies: a node is pushed or evaluated only after every node it
    waits for has been evaluated; every claimed node has its
    [num_links_pending] at zero and all the nodes it waits for claimed and
    evaluated; a step that claims a node finds and leaves its
    [num_links_pending] at zero; and no assertion has failed. *)
Theorem dependencies_complete_first layers g rels order schedule st :
  relations_of g rels → links_fit g →
  order ≡ₚ seq 0 (length (operations g)) →
  run_schedule layers schedule (schedule_graph (pass_start layers g order)) = Some st →
  ordered layers g (ps_trace st) ∧
  (∀ c p, sched (ps_graph st) c = true → waits_for layers g c p →
     sched (ps_graph st) p = true ∧
     (is_noop (node_at g p) = false → EvEvaluate p ∈ ps_trace st)) ∧
  (∀ c, sched (ps_graph st) c = true → pend (ps_graph st) c = 0%Z) ∧
  (∀ choice st' c,
     sched_step layers choice st = Some st' →
     sched (ps_graph st) c = false → sched (ps_graph st') c = true →
     pend (ps_graph st) c = 0%Z ∧ pend (ps_graph st') c = 0%Z) ∧
  (∀ a c, EvAssertFailed a c ∉ ps_trace st).
Proof.
  intros Hrels Hfit Hp Hrun.
  destruct (pass_inv layers g rels order Hrels Hfit Hp schedule st Hrun) as [HI Ho].
  split; [done|]. split; [|split; [|split]].
  - intros c p Hs Hw.
    pose proof (inv_sched_eligible _ _ _ _ _ _ HI c Hs) as Hc.
    pose proof (inv_sched_zero _ _ _ _ _ _ HI c Hs) as Hz.
    destruct (deps_claimed layers g rels Hrels _ _ _ c p HI Hc Hz Hw) as [Hsp Hr].
    split; [done|]. intros Hn. by eapply deps_evaluated.
  - apply HI.
  - intros choice st' c Hstep Hs Hs'. split.
    + destruct choice as [tid|slot].
      * apply all_instrs_run in Hstep as (i & R & HR & Hg & _ & _ & _).
        rewrite Hg in Hs'. eapply claim_at_zero; [|done..].
        eapply inv_perm; [apply HR|apply HI].
      * apply all_instrs_start in Hstep as (Hg & _). rewrite Hg in Hs'. congruence.
    + assert (state_inv layers g rels st') as HI'.
      { eapply state_inv_step; [done..|by exists choice]. }
      by apply (inv_sched_zero _ _ _ _ _ _ HI').
  - apply HI.
Qed.
Lemma tagged_nodes_run_exactly_once_diamond :
  (∀ schedule st,
     run_schedule 1 schedule (schedule_graph (pass_start 1 diamond4 [3; 1; 0; 2])) = Some st →
     length schedule ≤ pass_measure diamond4 (schedule_graph (pass_start 1 diamond4 [3; 1; 0; 2])) ∧
     ∀ c, count (EvEvaluate c) (ps_trace st) ≤ 1) ∧
  (∃ schedule out,
     DEG_evaluate_on_refresh_ex [3; 1; 0; 2] schedule some_context diamond4 1 = Some out) ∧
  (∀ schedule out,
     DEG_evaluate_on_refresh_ex [3; 1; 0; 2] schedule some_context diamond4 1 = Some out →
     ∃ eval_ctx' g' trace,
       out = Returned eval_ctx' g' trace ∧
       (∀ c, eligible 1 (node_at diamond4 c) = true → sched g' c = true) ∧
       (∀ c, count (EvEvaluate c) trace =
             if eligible 1 (node_at diamond4 c) && negb (is_noop (node_at diamond4 c))
             then 1 else 0)).
Proof.
  apply (tagged_nodes_run_exactly_once 1 diamond4 diamond_rels [3; 1; 0; 2]
           {| cfra := 1 |} some_context).
  - by apply (bool_decide_unpack _).
  - unfold links_fit. by apply (bool_decide_unpack _).
  - unfold tags_recorded. by apply (bool_decide_unpack _).
  - reflexivity.
  - unfold no_cyclic_relations. by apply (bool_decide_unpack _).
  - exists id. by apply (bool_decide_unpack _).
  - by apply (bool_decide_unpack _).
Defined.

Lemma dependencies_complete_first_diamond :
  ∃ st,
    run_schedule 1
      (default_schedule 1 100 (schedule_graph (pass_start 1 diamond4 [3; 1; 0; 2])))
      (schedule_graph (pass_start 1 diamond4 [3; 1; 0; 2])) = Some st ∧
    ordered 1 diamond4 (ps_trace st) ∧
    (∀ c p, sched (ps_graph st) c = true → waits_for 1 diamond4 c p →
       sched (ps_graph st) p = true ∧
       (is_noop (node_at diamond4 p) = false → EvEvaluate p ∈ ps_trace st)) ∧
    (∀ c, sched (ps_graph st) c = true → pend (ps_graph st) c = 0%Z) ∧
    (∀ choice st' c,
       sched_step 1 choice st = Some st' →
       sched (ps_graph st) c = false → sched (ps_graph st') c = true →
       pend (ps_graph st) c = 0%Z ∧ pend (ps_graph st') c = 0%Z) ∧
    (∀ a c, EvAssertFailed a c ∉ ps_trace st).
Proof.
  destruct (run_schedule 1 _ _) as [st|] eqn:Hrun; [|by vm_compute in Hrun].
  exists st. split; [done|].
  eapply (dependencies_complete_first 1 diamond4 diamond_rels [3; 1; 0; 2]).
  - by apply (bool_decide_unpack _).
  - unfold links_fit. by apply (bool_decide_unpack _).
  - by apply (bool_decide_unpack _).
  - exact Hrun.
Defined.

(** C4: two nodes joined by a cyclic relation each way, both tagged and on
    the layers of the pass: no run of the scheduler takes more than 33 steps,
    [DEG_evaluate_on_refresh_ex] returns under some schedule, and whenever it
    returns the trace holds one call of the callback of each node. *)
Theorem two_cycle_completes layers a b flag_ab flag_ba g order ts eval_ctx :
  eligible layers a = true → eligible layers b = true →
  is_noop a = false → is_noop b = false →
  non_cyclic (mk_relation 0 1 flag_ab) = false →
  non_cyclic (mk_relation 1 0 flag_ba) = false →
  tags_recorded (two_cycle a b flag_ab flag_ba g) →
  time_source g = Some ts →
  order ≡ₚ [0; 1] →
  (∀ schedule st,
     run_schedule layers schedule
       (schedule_graph (pass_start layers (two_cycle a b flag_ab flag_ba g) order)) = Some st →
     length schedule ≤ 33) ∧
  (∃ schedule out,
     DEG_evaluate_on_refresh_ex order schedule eval_ctx
       (two_cycle a b flag_ab flag_ba g) layers = Some out) ∧
  (∀ schedule out,
     DEG_evaluate_on_refresh_ex order schedule eval_ctx
       (two_cycle a b flag_ab flag_ba g) layers = Some out →
     ∃ g' trace,
       out = Returned (set_ctime (cfra ts) eval_ctx) g' trace ∧
       count (EvEvaluate 0) trace = 1 ∧ count (EvEvaluate 1) trace = 1).
Proof.
  intros Ha Hb Hna Hnb Hab Hba Htags Hts Hp.
  set (G := two_cycle a b flag_ab flag_ba g) in *.
  assert (relations_of G [mk_relation 0 1 flag_ab; mk_relation 1 0 flag_ba]) as Hrels.
  { split; repeat constructor. }
  assert (links_fit G) as Hfit by (repeat constructor).
  assert (cycles_flagged G) as Hcyc.
  { exists (λ _, 0). repeat constructor; simpl; congruence. }
  assert (order ≡ₚ seq 0 (length (operations G))) as Hp' by done.
  assert (entry_tags G ≠ []) as Hne by by apply (tags_of_eligible layers G 0).
  split; [|split].
  - intros schedule st Hrun.
    pose proof (pass_bounded layers G _ order Hrels Hfit Hp' schedule st Hrun) as Hb'.
    assert (pass_measure G (schedule_graph (pass_start layers G order)) = 33) as Hm;
      [|lia].
    unfold pass_measure, measure, all_instrs, unclaimed, schedule_graph.
    cbn [ps_graph ps_pool ps_threads]. unfold pass_start, clear_done.
    cbn [operations set_operations].
    rewrite prepass_operations by done. reflexivity.
  - destruct (pass_completes layers G _ order Hrels Hfit Hp') as (schedule & st & Hpass).
    exists schedule. eexists. rewrite (refresh_runs_pass _ _ _ _ _ ts) by done.
    by rewrite Hpass.
  - intros schedule out Hout. rewrite (refresh_runs_pass _ _ _ _ _ ts) in Hout by done.
    destruct (evaluate_pass order schedule G layers) as [st|] eqn:Hpass; [|done].
    injection Hout as <-. do 2 eexists. split; [done|].
    rewrite !count_trace_wrap.
    split; eapply (pass_exactly_once layers G); done.
Qed.

Lemma two_cycle_completes_example :
  (∀ schedule st,
     run_schedule 1 schedule
       (schedule_graph (pass_start 1
          (two_cycle (tagged_node (Some 0) [] []) (tagged_node (Some 1) [] []) 1 3
             (graph_of [])) [1; 0])) = Some st →
     length schedule ≤ 33) ∧
  (∃ schedule out,
     DEG_evaluate_on_refresh_ex [1; 0] schedule some_context
       (two_cycle (tagged_node (Some 0) [] []) (tagged_node (Some 1) [] []) 1 3
          (graph_of [])) 1 = Some out) ∧
  (∀ schedule out,
     DEG_evaluate_on_refresh_ex [1; 0] schedule some_context
       (two_cycle (tagged_node (Some 0) [] []) (tagged_node (Some 1) [] []) 1 3
          (graph_of [])) 1 = Some out →
     ∃ g' trace,
       out = Returned (set_ctime (cfra {| cfra := 1 |}) some_context) g' trace ∧
       count (EvEvaluate 0) trace = 1 ∧ count (EvEvaluate 1) trace = 1).
Proof.
  apply (two_cycle_completes 1 (tagged_node (Some 0) [] []) (tagged_node (Some 1) [] [])
           1 3 (graph_of []) [1; 0] {| cfra := 1 |} some_context); try reflexivity.
  - unfold tags_recorded. by apply (bool_decide_unpack _).
  - by apply (bool_decide_unpack _).
Defined.

(** The two nodes of the cycle can run in either order. *)
Example two_cycle_a_then_b :
  evaluated <$> (ps_trace <$>
    evaluate_pass [0; 1]
      (replicate 9 (RunThread 0) ++ [StartTask 0] ++ replicate 3 (RunThread 1) ++
       [StartTask 0] ++ replicate 3 (RunThread 2))
      (two_cycle (tagged_node (Some 0) [] []) (tagged_node (Some 1) [] []) 1 3
         (graph_of [])) 1) = Some [0; 1].
Proof. vm_compute. reflexivity. Qed.

Example two_cycle_b_then_a :
  evaluated <$> (ps_trace <$>
    evaluate_pass [0; 1]
      (replicate 9 (RunThread 0) ++ [StartTask 1] ++ replicate 3 (RunThread 1) ++
       [StartTask 0] ++ replicate 3 (RunThread 2))
      (two_cycle (tagged_node (Some 0) [] []) (tagged_node (Some 1) [] []) 1 3
         (graph_of [])) 1) = Some [1; 0].
Proof. vm_compute. reflexivity. Qed.

(** ** All the runs from a state *)

Lemma step_successor layers c st st' :
  sched_step layers c st = Some st' → st' ∈ successors layers st.
Proof.
  intros H. unfold successors. apply list_elem_of_omap. exists c. split; [|done].
  unfold choices. apply elem_of_app. destruct c as [tid|slot]; simpl in H.
  - left. apply list_elem_of_fmap_2, elem_of_seq.
    destruct (ps_threads st !! tid) eqn:E; [|done]. apply lookup_lt_Some in E. lia.
  - right. apply list_elem_of_fmap_2, elem_of_seq.
    destruct (ps_pool st !! slot) eqn:E; [|done]. apply lookup_lt_Some in E. lia.
Qed.

Lemma drained_successors layers st : drained st → successors layers st = [].
Proof.
  intros Hd. destruct (successors layers st) as [|st' l] eqn:E; [done|].
  assert (st' ∈ successors layers st) as (c & _ & Hc)%list_elem_of_omap
    by (rewrite E; left).
  by rewrite drained_no_step in Hc.
Qed.

Lemma all_runs_sound layers fuel P st :
  all_runs layers fuel P st = true →
  ∀ cs st', run_schedule layers cs st = Some st' → drained st' → P st' = true.
Proof.
  revert st. induction fuel as [|fuel IH]; intros st H cs st' Hrun Hd; [done|].
  cbn [all_runs] in H. destruct cs as [|c cs]; simpl in Hrun.
  - injection Hrun as ->. by rewrite (drained_successors _ _ Hd) in H.
  - destruct (sched_step layers c st) as [st1|] eqn:E; [|done].
    pose proof (step_successor _ _ _ _ E) as Hin.
    destruct (successors layers st) as [|s l] eqn:Es; [by apply elem_of_nil in Hin|].
    eapply (IH st1); [|done..].
    rewrite forallb_forall in H. by apply H, list_elem_of_In.
Qed.

(** C5, as stated, fails: on the chain A -> B -> C -> D a worker can run A
    and bring [num_links_pending] of B to zero while the calling thread is
    still in [schedule_graph]; when that thread then comes to B it finds the
    count at zero, claims B before the worker does, and pushes it: B is
    submitted to the pool. *)
Lemma chain_child_pushed_by_schedule_graph :
  ∃ eval_ctx' g' trace,
    DEG_evaluate_on_refresh_ex [0; 1; 2; 3]
      (replicate 5 (RunThread 0) ++ [StartTask 0] ++ replicate 4 (RunThread 1) ++
       replicate 3 (RunThread 0) ++ replicate 2 (RunThread 1) ++
       replicate 7 (RunThread 0) ++ [StartTask 0] ++ replicate 14 (RunThread 2))
      some_context chain4 1 = Some (Returned eval_ctx' g' trace) ∧
    pushed trace = [0; 1] ∧ evaluated trace = [0; 1; 2; 3].
Proof. do 3 eexists. split; [vm_compute; reflexivity|]. by vm_compute. Qed.

(** ** The skeleton of a graph *)

Lemma non_cyclic_skel r : non_cyclic (skel_rel r) = non_cyclic r.
Proof. unfold skel_rel. by destruct (non_cyclic r) eqn:E. Qed.

Lemma eligible_skel layers n : eligible 1 (skel_node layers n) = eligible layers n.
Proof. unfold skel_node. by destruct (eligible layers n) eqn:E. Qed.

Lemma is_noop_skel layers n : is_noop (skel_node layers n) = is_noop n.
Proof. unfold is_noop. simpl. by destruct (evaluate n). Qed.

Lemma node_at_skel layers g c :
  node_at (skel_graph layers g) c = skel_node layers (node_at g c).
Proof.
  unfold node_at. simpl. rewrite list_lookup_fmap. by destruct (operations g !! c).
Qed.

Lemma update_node_skel layers g c f :
  (∀ n, skel_node layers (f n) = f (skel_node layers n)) →
  update_node (skel_graph layers g) c f = skel_graph layers (update_node g c f).
Proof.
  intros Hf. unfold update_node, skel_graph, set_operations. simpl. f_equal.
  symmetry. apply list_fmap_alter, Forall_forall. intros n _. apply Hf.
Qed.

Lemma instr_step_skel layers g i :
  instr_step 1 (skel_graph layers g) (skel_instr i) =
  skel_result layers (instr_step layers g i).
Proof.
  destruct i as [[|? ?]|c dec|c|c|[|r rs]|c|c|c|r|c|c];
    cbn [skel_instr instr_step fmap list_fmap]; try done.
  all: rewrite ?node_at_skel;
    cbn [skel_node skel_rel num_links_pending scheduled evaluate outlinks rel_to].
  all: try destruct (outlinks (node_at g c)) as [|r [|r' l]];
    cbn [fmap list_fmap skel_rel rel_to]; rewrite ?node_at_skel;
    cbn [skel_node num_links_pending scheduled evaluate].
  all: repeat match goal with
    | |- context [needs_update (skel_node ?l ?n) && in_layers 1 (skel_node ?l ?n)] =>
        change (needs_update (skel_node l n) && in_layers 1 (skel_node l n))
          with (eligible 1 (skel_node l n))
    | |- context [needs_update ?n && in_layers ?l ?n] =>
        change (needs_update n && in_layers l n) with (eligible l n)
    end.
  all: rewrite ?eligible_skel, ?is_noop_skel, ?non_cyclic_skel.
  all: rewrite ?update_node_skel by done.
  all: repeat match goal with
    | |- context [evaluate ?n] => destruct (evaluate n)
    | |- context [if ?b then _ else _] => destruct b
    end.
  all: try done.
Qed.

Lemma sched_step_skel layers c st :
  sched_step 1 c (skel_state layers st) = skel_state layers <$> sched_step layers c st.
Proof.
  destruct c as [tid|slot]; cbn [sched_step skel_state ps_threads ps_pool ps_graph ps_trace].
  - rewrite list_lookup_fmap. destruct (ps_threads st !! tid) as [[|i k]|]; try done.
    cbn [fmap option_fmap option_map list_fmap]. rewrite instr_step_skel.
    unfold skel_state. cbn [skel_result sr_graph sr_cont sr_push sr_events
      ps_threads ps_pool ps_graph ps_trace]. do 2 f_equal.
    by rewrite list_fmap_insert, fmap_app.
  - destruct (ps_pool st !! slot); [|done].
    cbn [fmap option_fmap option_map]. unfold skel_state.
    cbn [ps_threads ps_pool ps_graph ps_trace]. do 2 f_equal.
    by rewrite fmap_app.
Qed.

Lemma run_schedule_skel layers cs st st' :
  run_schedule layers cs st = Some st' →
  run_schedule 1 cs (skel_state layers st) = Some (skel_state layers st').
Proof.
  revert st. induction cs as [|c cs IH]; intros st; simpl; [by intros [= ->]|].
  rewrite sched_step_skel. destruct (sched_step layers c st) as [st1|]; [|done].
  apply IH.
Qed.

Lemma schedule_graph_skel layers g :
  skel_state layers (schedule_graph g) = schedule_graph (skel_graph layers g).
Proof. unfold skel_state, schedule_graph. simpl. by rewrite length_fmap. Qed.

Lemma counted_relation_skel layers g r :
  counted_relation 1 (skel_graph layers g) (skel_rel r) ↔ counted_relation layers g r.
Proof.
  unfold counted_relation. rewrite non_cyclic_skel. simpl.
  destruct (rel_from r); [|done]. by rewrite node_at_skel, eligible_skel.
Qed.

Lemma length_filter_fmap {A B} (f : A → B) (P : B → Prop) (Q : A → Prop)
    `{∀ x, Decision (P x)} `{∀ x, Decision (Q x)} l :
  (∀ x, P (f x) ↔ Q x) →
  length (filter P (f <$> l)) = length (filter Q l).
Proof.
  intros HPQ. induction l as [|x l IH]; [done|].
  rewrite fmap_cons, !filter_cons.
  destruct (decide (P (f x))) as [HP|HP], (decide (Q x)) as [HQ|HQ]; simpl;
    rewrite ?IH; try done; by apply HPQ in HP || apply HPQ in HQ.
Qed.

Lemma prepass_node_skel layers g n :
  skel_node layers (set_done 0 (prepass_node layers g n)) =
  set_done 0 (prepass_node 1 (skel_graph layers g) (skel_node layers n)).
Proof.
  unfold prepass_node, prepass_pending. rewrite eligible_skel.
  cbn [inlinks skel_node].
  rewrite (length_filter_fmap skel_rel _ (counted_relation layers g))
    by apply counted_relation_skel.
  done.
Qed.

Lemma pass_start_skel layers g order order' :
  order ≡ₚ seq 0 (length (operations g)) →
  order' ≡ₚ seq 0 (length (operations g)) →
  skel_graph layers (pass_start layers g order) =
  pass_start 1 (skel_graph layers g) order'.
Proof.
  intros Hp Hp'. unfold pass_start.
  rewrite !prepass_graph by (cbn [operations skel_graph]; by rewrite ?length_fmap).
  unfold clear_done, skel_graph, set_operations. simpl. f_equal.
  rewrite <-!list_fmap_compose. apply list_fmap_ext. intros k n _. simpl.
  apply prepass_node_skel.
Qed.

Lemma eligible_with_links layers ins outs n :
  eligible layers (with_links ins outs n) = eligible layers n.
Proof. done. Qed.

Lemma chain_operations a b c d flag_ab flag_bc flag_cd g :
  operations (chain a b c d flag_ab flag_bc flag_cd g) =
  [with_links [] [mk_relation 0 1 flag_ab] a;
   with_links [mk_relation 0 1 flag_ab] [mk_relation 1 2 flag_bc] b;
   with_links [mk_relation 1 2 flag_bc] [mk_relation 2 3 flag_cd] c;
   with_links [mk_relation 2 3 flag_cd] [] d].
Proof. done. Qed.

Lemma chain_start_skel layers a b c d flag_ab flag_bc flag_cd g order :
  eligible layers a = true → eligible layers b = true →
  eligible layers c = true → eligible layers d = true →
  is_noop a = false → is_noop b = false → is_noop c = false → is_noop d = false →
  non_cyclic (mk_relation 0 1 flag_ab) = true →
  non_cyclic (mk_relation 1 2 flag_bc) = true →
  non_cyclic (mk_relation 2 3 flag_cd) = true →
  order ≡ₚ seq 0 4 →
  skel_state layers
    (schedule_graph (pass_start layers (chain a b c d flag_ab flag_bc flag_cd g) order)) =
  chain4_skeleton.
Proof.
  intros Ha Hb Hc Hd Hna Hnb Hnc Hnd Hab Hbc Hcd Hp.
  rewrite schedule_graph_skel. unfold chain4_skeleton. rewrite schedule_graph_skel.
  f_equal. unfold pass_start. rewrite prepass_graph by done.
  unfold clear_done, skel_graph, set_operations. cbn [operations].
  rewrite chain_operations. cbn [fmap list_fmap].
  set (G := chain a b c d flag_ab flag_bc flag_cd g).
  assert (∀ r p, non_cyclic r = true → rel_from r = OperationPtr p → p < 4 →
            counted_relation layers G r) as Hcount.
  { intros r p Hr Hfrom Hlt. split; [done|]. rewrite Hfrom.
    do 4 (destruct p as [|p]; [done|]). lia. }
  unfold prepass_node, prepass_pending. rewrite !eligible_with_links, Ha, Hb, Hc, Hd.
  cbn [inlinks with_links].
  rewrite !filter_cons_True by (eapply Hcount; [done..|lia]).
  rewrite !filter_nil.
  unfold skel_node. cbn [evaluate with_links set_done set_scheduled set_num_links_pending
    op_owner op_flag num_links_pending scheduled op_done inlinks outlinks].
  repeat match goal with
    | |- context [eligible layers (set_done ?x (set_scheduled ?y
                    (set_num_links_pending ?z (with_links ?i ?o ?n))))] =>
        change (eligible layers (set_done x (set_scheduled y
                  (set_num_links_pending z (with_links i o n)))))
          with (eligible layers n)
    end.
  rewrite Ha, Hb, Hc, Hd.
  unfold is_noop in Hna, Hnb, Hnc, Hnd.
  destruct (evaluate a); [|done]. destruct (evaluate b); [|done].
  destruct (evaluate c); [|done]. destruct (evaluate d); [|done].
  cbn [fmap list_fmap]. unfold skel_rel at 1 2 3 4 5 6. rewrite Hab, Hbc, Hcd.
  reflexivity.
Qed.

Lemma drained_skel layers st : drained st → drained (skel_state layers st).
Proof.
  intros [Hp Ht]. split; [done|]. simpl. apply Forall_fmap.
  eapply Forall_impl; [done|]. by intros k ->.
Qed.

Lemma pushed_wrap t : pushed (EvEvalBegin :: t ++ [EvEvalEnd]) = pushed t.
Proof.
  unfold pushed. rewrite bind_cons, bind_app. simpl. by rewrite app_nil_r.
Qed.

Lemma evaluated_wrap t : evaluated (EvEvalBegin :: t ++ [EvEvalEnd]) = evaluated t.
Proof.
  unfold evaluated. rewrite bind_cons, bind_app. simpl. by rewrite app_nil_r.
Qed.

Lemma chain4_seeding n st1 :
  run_schedule 1 (replicate n (RunThread 0)) chain4_skeleton = Some st1 →
  ps_threads st1 !! 0 = Some [] →
  chain4_seeded = Some st1.
Proof.
  intros Hseed Hdone.
  do 14 (destruct n as [|n];
    [exfalso; vm_compute in Hseed; injection Hseed as <-;
     vm_compute in Hdone; discriminate Hdone|]).
  destruct n as [|n]; [exact Hseed|].
  exfalso. vm_compute in Hseed. discriminate Hseed.
Qed.

Lemma chain4_seeded_runs st1 :
  chain4_seeded = Some st1 →
  all_runs 1 40 one_worker_ran_chain st1 = true.
Proof.
  intros H. vm_compute in H. injection H as <-. vm_compute. reflexivity.
Qed.

Lemma run_schedule_skel_eq layers cs st :
  run_schedule 1 cs (skel_state layers st) =
  skel_state layers <$> run_schedule layers cs st.
Proof.
  revert st. induction cs as [|c cs IH]; intros st; [done|].
  cbn [run_schedule]. rewrite sched_step_skel.
  destruct (sched_step layers c st) as [st1|]; [|done]. apply IH.
Qed.

Lemma skel_drained layers st : drained (skel_state layers st) → drained st.
Proof.
  intros [Hp Ht]. split; [done|]. simpl in Ht. apply Forall_fmap in Ht.
  eapply Forall_impl; [done|]. intros k Hk. simpl in Hk. by apply fmap_nil_inv in Hk.
Qed.

Lemma chain4_one_worker :
  ∃ st1 st2,
    run_schedule 1 (replicate 14 (RunThread 0)) chain4_skeleton = Some st1 ∧
    ps_threads st1 !! 0 = Some [] ∧
    run_schedule 1 ([StartTask 0] ++ replicate 19 (RunThread 1)) st1 = Some st2 ∧
    drained st2.
Proof.
  do 2 eexists. split; [vm_compute; reflexivity|]. split; [reflexivity|].
  split; [vm_compute; reflexivity|]. by apply (bool_decide_unpack _).
Qed.

(** C5, amended: on a chain A -> B -> C -> D of four nodes, all tagged, on
    the layers of the pass and with a callback, no run of the scheduler
    takes more than 65 steps; some schedule in which the calling thread is
    through with [schedule_graph] before a worker takes a task makes
    [DEG_evaluate_on_refresh_ex] return; whenever it returns the four
    callbacks have been called once each; and when the calling thread is
    through with [schedule_graph] before a worker takes a task, A is the
    only node pushed to the pool and the callbacks run in the order A, B, C,
    D. *)
Theorem chain_runs_on_one_worker layers a b c d flag_ab flag_bc flag_cd g order
    ts eval_ctx :
  eligible layers a = true → eligible layers b = true →
  eligible layers c = true → eligible layers d = true →
  is_noop a = false → is_noop b = false → is_noop c = false → is_noop d = false →
  non_cyclic (mk_relation 0 1 flag_ab) = true →
  non_cyclic (mk_relation 1 2 flag_bc) = true →
  non_cyclic (mk_relation 2 3 flag_cd) = true →
  tags_recorded (chain a b c d flag_ab flag_bc flag_cd g) →
  time_source g = Some ts →
  order ≡ₚ seq 0 4 →
  (∀ schedule st,
     run_schedule layers schedule
       (schedule_graph
          (pass_start layers (chain a b c d flag_ab flag_bc flag_cd g) order)) = Some st →
     length schedule ≤ 65) ∧
  (∃ schedule out,
     seeds_first layers
       (schedule_graph
          (pass_start layers (chain a b c d flag_ab flag_bc flag_cd g) order))
       schedule ∧
     DEG_evaluate_on_refresh_ex order schedule eval_ctx
       (chain a b c d flag_ab flag_bc flag_cd g) layers = Some out) ∧
  (∀ schedule out,
     DEG_evaluate_on_refresh_ex order schedule eval_ctx
       (chain a b c d flag_ab flag_bc flag_cd g) layers = Some out →
     ∃ g' trace,
       out = Returned (set_ctime (cfra ts) eval_ctx) g' trace ∧
       (∀ n, n < 4 → count (EvEvaluate n) trace = 1) ∧
       (seeds_first layers
          (schedule_graph
             (pass_start layers (chain a b c d flag_ab flag_bc flag_cd g) order))
          schedule →
        pushed trace = [0] ∧ evaluated trace = [0; 1; 2; 3])).
Proof.
  intros Ha Hb Hc Hd Hna Hnb Hnc Hnd Hab Hbc Hcd Htags Hts Hp.
  set (G := chain a b c d flag_ab flag_bc flag_cd g) in *.
  assert (relations_of G
            [mk_relation 0 1 flag_ab; mk_relation 1 2 flag_bc; mk_relation 2 3 flag_cd])
    as Hrels by (split; repeat constructor).
  assert (links_fit G) as Hfit by (repeat constructor).
  assert (cycles_flagged G) as Hcyc.
  { exists id. repeat constructor; simpl; lia. }
  assert (order ≡ₚ seq 0 (length (operations G))) as Hp' by done.
  assert (∀ n, n < 4 →
            eligible layers (node_at G n) = true ∧ is_noop (node_at G n) = false)
    as Hnodes.
  { intros n Hn. do 4 (destruct n as [|n]; [done|]). lia. }
  assert (entry_tags G ≠ []) as Hne.
  { apply (tags_of_eligible layers G 0 Htags), Hnodes. lia. }
  split; [|split].
  - intros schedule st Hrun.
    pose proof (pass_bounded layers G _ order Hrels Hfit Hp' schedule st Hrun) as Hb'.
    assert (pass_measure G (schedule_graph (pass_start layers G order)) = 65) as Hm;
      [|lia].
    unfold pass_measure, measure, all_instrs, unclaimed, schedule_graph.
    cbn [ps_graph ps_pool ps_threads]. unfold pass_start, clear_done.
    cbn [operations set_operations].
    rewrite prepass_operations by done. reflexivity.
  - destruct chain4_one_worker as (s1 & s2 & Hseed & Hdone & Hrest & Hdr).
    rewrite <-(chain_start_skel layers a b c d flag_ab flag_bc flag_cd g order)
      in Hseed by done.
    fold G in Hseed. rewrite run_schedule_skel_eq in Hseed.
    destruct (run_schedule layers (replicate 14 (RunThread 0)) _) as [st1|] eqn:Hseed';
      [|done].
    injection Hseed as <-. rewrite run_schedule_skel_eq in Hrest.
    destruct (run_schedule layers _ st1) as [st2|] eqn:Hrest'; [|done].
    injection Hrest as <-. apply skel_drained in Hdr.
    exists (replicate 14 (RunThread 0) ++ [StartTask 0] ++ replicate 19 (RunThread 1)).
    eexists. split.
    + exists 14, ([StartTask 0] ++ replicate 19 (RunThread 1)), st1.
      split; [done|]. split; [done|].
      simpl in Hdone. rewrite list_lookup_fmap in Hdone.
      destruct (ps_threads st1 !! 0) as [k|]; [|done].
      simpl in Hdone. injection Hdone as Hk. by apply fmap_nil_inv in Hk as ->.
    + rewrite (refresh_runs_pass _ _ _ _ _ ts) by done.
      unfold evaluate_pass. fold (pass_start layers G order).
      rewrite run_schedule_app, Hseed'. cbn [mbind option_bind]. rewrite Hrest'.
      by rewrite decide_True by done.
  - intros schedule out Hout.
    rewrite (refresh_runs_pass _ _ _ _ _ ts) in Hout by done.
    destruct (evaluate_pass order schedule G layers) as [st|] eqn:Hpass; [|done].
    injection Hout as <-. do 2 eexists. split; [done|]. split.
    + intros n Hn. rewrite count_trace_wrap.
      apply (pass_exactly_once layers G _ order Hrels Hfit Hp' schedule st n Hcyc Hpass);
        by apply Hnodes.
    + intros (n & rest & st1 & -> & Hseed & Hdone).
      rewrite pushed_wrap, evaluated_wrap.
      apply evaluate_pass_inv in Hpass as [Hrun Hdr].
      rewrite run_schedule_app, Hseed in Hrun. cbn [mbind option_bind] in Hrun.
      apply (run_schedule_skel layers) in Hseed, Hrun.
      unfold G in Hseed. rewrite chain_start_skel in Hseed by done.
      assert (ps_threads (skel_state layers st1) !! 0 = Some []) as Hdone'.
      { simpl. by rewrite list_lookup_fmap, Hdone. }
      pose proof (chain4_seeded_runs _ (chain4_seeding n _ Hseed Hdone')) as Hall.
      pose proof (all_runs_sound 1 40 one_worker_ran_chain _ Hall rest _ Hrun
                    (drained_skel layers st Hdr)) as H.
      by apply bool_decide_eq_true in H.
Qed.

Lemma chain_runs_on_one_worker_example :
  (∀ schedule st,
     run_schedule 3 schedule
       (schedule_graph
          (pass_start 3
             (chain (tagged_node (Some 0) [] []) (tagged_node (Some 1) [] [])
                    (tagged_node (Some 2) [] []) (tagged_node (Some 3) [] []) 0 2 4
                    (graph_of [])) [3; 2; 1; 0])) = Some st →
     length schedule ≤ 65) ∧
  (∃ schedule out,
     seeds_first 3
       (schedule_graph
          (pass_start 3
             (chain (tagged_node (Some 0) [] []) (tagged_node (Some 1) [] [])
                    (tagged_node (Some 2) [] []) (tagged_node (Some 3) [] []) 0 2 4
                    (graph_of [])) [3; 2; 1; 0]))
       schedule ∧
     DEG_evaluate_on_refresh_ex [3; 2; 1; 0] schedule some_context
       (chain (tagged_node (Some 0) [] []) (tagged_node (Some 1) [] [])
              (tagged_node (Some 2) [] []) (tagged_node (Some 3) [] []) 0 2 4
              (graph_of [])) 3 = Some out) ∧
  ∃ g' trace,
    DEG_evaluate_on_refresh_ex [3; 2; 1; 0]
      (replicate 14 (RunThread 0) ++ [StartTask 0] ++ replicate 19 (RunThread 1))
      some_context
      (chain (tagged_node (Some 0) [] []) (tagged_node (Some 1) [] [])
             (tagged_node (Some 2) [] []) (tagged_node (Some 3) [] []) 0 2 4
             (graph_of [])) 3 =
      Some (Returned (set_ctime 1 some_context) g' trace) ∧
    (∀ n, n < 4 → count (EvEvaluate n) trace = 1) ∧
    pushed trace = [0] ∧ evaluated trace = [0; 1; 2; 3].
Proof.
  destruct (chain_runs_on_one_worker 3
              (tagged_node (Some 0) [] []) (tagged_node (Some 1) [] [])
              (tagged_node (Some 2) [] []) (tagged_node (Some 3) [] []) 0 2 4
              (graph_of []) [3; 2; 1; 0] {| cfra := 1 |} some_context)
    as (Hbound & Hsome & Hall); try reflexivity.
  - unfold tags_recorded. by apply (bool_decide_unpack _).
  - by apply (bool_decide_unpack _).
  - split; [exact Hbound|]. split; [exact Hsome|].
    destruct (DEG_evaluate_on_refresh_ex [3; 2; 1; 0]
                (replicate 14 (RunThread 0) ++ [StartTask 0] ++ replicate 19 (RunThread 1))
                some_context _ 3) as [out|] eqn:Hout;
      [|by vm_compute in Hout].
    destruct (Hall _ out Hout) as (g' & trace & -> & Hcount & Hseeds).
    exists g', trace. split; [done|]. split; [done|]. apply Hseeds.
    exists 14, ([StartTask 0] ++ replicate 19 (RunThread 1)). eexists.
    split; [reflexivity|]. split; [vm_compute; reflexivity|reflexivity].
Defined.

(** The relations of the chain are to be free of [DEPSREL_FLAG_CYCLIC]: a
    node behind a relation that carries it waits for nothing, and
    [schedule_graph] pushes it. *)
Example chain_with_cyclic_flag :
  (λ t, (pushed t, evaluated t)) <$> (ps_trace <$>
    evaluate_pass [0; 1; 2; 3]
      (replicate 15 (RunThread 0) ++ [StartTask 0] ++ replicate 3 (RunThread 1) ++
       [StartTask 0] ++ replicate 14 (RunThread 2))
      (chain (tagged_node (Some 0) [] []) (tagged_node (Some 1) [] [])
             (tagged_node (Some 2) [] []) (tagged_node (Some 3) [] []) 1 0 0
             (graph_of [])) 1) = Some ([0; 1], [0; 1; 2; 3]).
Proof. vm_compute. reflexivity. Qed.

(** ** No callback runs twice, on any graph *)

Section Once.
Context (layers : Z) (g1 : Depsgraph).

Local Abbreviation runs := (instr_runs g1).
Local Abbreviation claimed g c := (sched g c && negb (is_noop (node_at g1 c))).

Lemma once_perm g I I' t : I ≡ₚ I' → Once layers g1 g I t → Once layers g1 g I' t.
Proof.
  intros HI [Hb Hr Hp]. split; [by eapply basic_perm|by setoid_rewrite <-HI|done].
Qed.

Lemma once_change g g' i new evs R t :
  Once layers g1 g (i :: R) t →
  Basic layers g1 g' (new ++ R) (t ++ evs) →
  (∀ c, count c (new ≫= runs) + count (EvEvaluate c) evs +
        (if claimed g c then 1 else 0) =
        count c (runs i) + (if claimed g' c then 1 else 0)) →
  (∀ c, count (EvPush c) evs + (if sched g c then 1 else 0) ≤
        if sched g' c then 1 else 0) →
  Once layers g1 g' (new ++ R) (t ++ evs).
Proof.
  intros [_ Hr Hp] Hb Hr' Hp'. split; [done|..].
  - intros c. specialize (Hr c). specialize (Hr' c).
    rewrite bind_cons, count_app in Hr. rewrite bind_app, !count_app. lia.
  - intros c. specialize (Hp c). specialize (Hp' c). rewrite count_app. lia.
Qed.

Lemma count_evaluate_assert c a n b :
  count (EvEvaluate c) (BLI_assert b a n) = 0.
Proof. unfold BLI_assert. by destruct b. Qed.

Lemma count_push_assert c a n b : count (EvPush c) (BLI_assert b a n) = 0.
Proof. unfold BLI_assert. by destruct b. Qed.

Lemma once_same g i new evs R t :
  Once layers g1 g (i :: R) t →
  Basic layers g1 g (new ++ R) (t ++ evs) →
  (∀ c, count c (new ≫= runs) + count (EvEvaluate c) evs = count c (runs i)) →
  (∀ c, count (EvPush c) evs = 0) →
  Once layers g1 g (new ++ R) (t ++ evs).
Proof.
  intros HO HB Hr Hp. eapply once_change; [done..| |].
  - intros c. specialize (Hr c). lia.
  - intros c. specialize (Hp c). lia.
Qed.

Lemma once_sub g i c new evs R t :
  Once layers g1 g (i :: R) t →
  Basic layers g1 (update_node g c atomic_sub_pending) (new ++ R) (t ++ evs) →
  (∀ c, count c (new ≫= runs) + count (EvEvaluate c) evs = count c (runs i)) →
  (∀ c, count (EvPush c) evs = 0) →
  Once layers g1 (update_node g c atomic_sub_pending) (new ++ R) (t ++ evs).
Proof.
  intros HO HB Hr Hp. eapply once_change; [done..| |].
  - intros c'. rewrite sched_sub. specialize (Hr c'). lia.
  - intros c'. rewrite sched_sub. specialize (Hp c'). lia.
Qed.

Lemma once_lost g i c R t :
  Once layers g1 g (i :: R) t →
  Basic layers g1 (update_node g c atomic_or_scheduled) ([] ++ R) (t ++ []) →
  sched g c = true → runs i = [] →
  Once layers g1 (update_node g c atomic_or_scheduled) ([] ++ R) (t ++ []).
Proof.
  intros HO HB Hs Hr.
  assert (∀ c', sched (update_node g c atomic_or_scheduled) c' = sched g c') as Heq.
  { intros c'. unfold sched. rewrite node_at_update. case_decide as H; [|done].
    destruct H as [-> _]. simpl. unfold sched in Hs. by rewrite Hs. }
  eapply once_change; [done..| |]; intros c'; rewrite Heq, ?Hr; simpl; lia.
Qed.

Lemma once_won g i c new evs R t :
  Once layers g1 g (i :: R) t →
  Basic layers g1 (update_node g c atomic_or_scheduled) (new ++ R) (t ++ evs) →
  c < length (operations g) →
  sched g c = false → runs i = [] →
  new ≫= runs = (if is_noop (node_at g1 c) then [] else [c]) →
  evs = [] ∨ evs = [EvPush c] →
  Once layers g1 (update_node g c atomic_or_scheduled) (new ++ R) (t ++ evs).
Proof.
  intros HO HB Hlt Hs Hr Hnew Hevs.
  eapply once_change; [done..| |]; intros c'; rewrite sched_or by done.
  - rewrite Hr, Hnew.
    assert (count (EvEvaluate c') evs = 0) as ->.
    { by destruct Hevs as [-> | ->]. }
    case_decide as Hc; [subst c'; rewrite Hs|].
    + simpl. destruct (is_noop (node_at g1 c)); simpl; [done|].
      rewrite count_singleton, decide_True by done. lia.
    + destruct (is_noop (node_at g1 c)); simpl; [lia|].
      rewrite count_singleton, decide_False by done. lia.
  - case_decide as Hc; [subst c'; rewrite Hs|].
    + destruct Hevs as [-> | ->]; simpl; [lia|].
      rewrite count_singleton, decide_True by done. lia.
    + destruct Hevs as [-> | ->]; simpl; [lia|].
      rewrite count_singleton, decide_False by congruence. lia.
Qed.

Lemma once_step g i R t :
  Once layers g1 g (i :: R) t →
  Once layers g1 (sr_graph (instr_step layers g i))
    ((ITaskEntry <$> sr_push (instr_step layers g i)) ++
     sr_cont (instr_step layers g i) ++ R)
    (t ++ sr_events (instr_step layers g i)).
Proof.
  intros HO. pose proof (once_basic _ _ _ _ _ HO) as HB.
  pose proof (basic_step layers g1 g i R t HB) as HB'.
  pose proof (basic_head layers g1 _ _ _ _ HB) as Hi.
  assert (∀ c, is_noop (node_at g c) = is_noop (node_at g1 c)) as Hnoop.
  { intros c. apply same_static_noop, HB. }
  assert (∀ c, eligible layers (node_at g1 c) = true → c < length (operations g))
    as Hrange.
  { intros c Hc. eapply eligible_in_range. by rewrite (basic_eligible layers g1 _ _ _ c HB). }
  rewrite app_assoc in *. revert HB'.
  destruct i as [[|c rest]|c dec|c|c|[|r rest]|c|c|c|r|c|c]; unfold instr_step.
  all: simpl in Hi.
  all: repeat match goal with
    | |- context [match evaluate ?n with _ => _ end] => destruct (evaluate n) eqn:?
    | |- context [match outlinks ?n with _ => _ end] =>
        destruct (outlinks n) as [|? [|? ?]]
    | |- context [if negb ?b then _ else _] => destruct b eqn:?; simpl negb; cbv iota
    | |- context [if ?b then _ else _] => destruct b eqn:?
    end.
  all: cbn [sr_graph sr_cont sr_push sr_events silent fmap list_fmap app].
  all: intros HB'.
  all: try ((eapply (once_same g _ [] _ R t) || eapply (once_same g _ [_] _ R t) ||
             eapply (once_same g _ [_; _] _ R t)); [exact HO|exact HB'|..];
            intros c'; rewrite ?count_app, ?count_evaluate_assert, ?count_push_assert;
            done).
  all: try (eapply (once_sub g _ _ [_] _ R t); [exact HO|exact HB'|..]; intros c';
            rewrite ?count_evaluate_assert, ?count_push_assert; done).
  all: try (eapply (once_lost g _ _ R t); [exact HO|exact HB'|done..]).
  - (* schedule_node, a NOOP is claimed *)
    eapply (once_won g _ c [_] [] R t); [exact HO|exact HB'|auto..].
    simpl. rewrite <-Hnoop.
    by match goal with H : is_noop (node_at g c) = _ |- _ => rewrite H end.
  - (* schedule_node, a task is pushed *)
    eapply (once_won g _ c [_] [_] R t); [exact HO|exact HB'|auto..].
    simpl. rewrite app_nil_r, <-Hnoop.
    by match goal with H : is_noop (node_at g c) = _ |- _ => rewrite H end.
  - (* deg_task_run_func, entry *)
    eapply (once_same g _ [_] _ R t); [exact HO|exact HB'|..]; intros c'.
    + rewrite count_app, !count_evaluate_assert. simpl. rewrite app_nil_r. lia.
    + by rewrite count_app, !count_push_assert.
  - (* deg_task_run_func, the call of evaluate *)
    assert (is_noop (node_at g1 c) = false) as Hn.
    { rewrite <-Hnoop. unfold is_noop. by destruct (evaluate (node_at g c)). }
    eapply (once_same g _ [_] _ R t); [exact HO|exact HB'|..]; intros c'.
    + simpl. rewrite Hn. rewrite !count_cons, !count_nil.
      repeat case_decide; simplify_eq; lia.
    + rewrite !count_cons, !count_nil. repeat case_decide; simplify_eq; lia.
  - (* deg_task_run_func, a NOOP on the way *)
    assert (is_noop (node_at g1 c) = true) as Hn.
    { rewrite <-Hnoop. unfold is_noop. by destruct (evaluate (node_at g c)). }
    eapply (once_same g _ [_] _ R t); [exact HO|exact HB'|..]; intros c'.
    + simpl. by rewrite Hn.
    + done.
  - (* deg_task_run_func, the claim is won *)
    eapply (once_won g _ c [_] [] R t); [exact HO|exact HB'|auto..].
    simpl. by rewrite app_nil_r.
Qed.
End Once.

Lemma state_once_step layers g1 st st' :
  state_once layers g1 st → step layers st st' → state_once layers g1 st'.
Proof.
  intros HI [[tid|slot] Hstep].
  - apply all_instrs_run in Hstep as (i & R & HR & Hg & _ & HR' & Ht).
    unfold state_once. rewrite Hg, Ht. eapply once_perm; [symmetry; apply HR'|].
    apply once_step. eapply once_perm; [apply HR|]. done.
  - apply all_instrs_start in Hstep as (Hg & Ht & HR & _).
    unfold state_once. rewrite Hg, Ht. eapply once_perm; [symmetry; apply HR|]. done.
Qed.

Lemma pass_once layers g order schedule st :
  order ≡ₚ seq 0 (length (operations g)) →
  run_schedule layers schedule (schedule_graph (pass_start layers g order)) = Some st →
  state_once layers (pass_start layers g order) st.
Proof.
  intros Hp Hrun.
  assert (state_once layers (pass_start layers g order)
            (schedule_graph (pass_start layers g order))) as H0.
  { assert (∀ c, sched (pass_start layers g order) c = false) as Hs.
    { intros c. unfold sched. rewrite pass_start_node by done. by case_decide. }
    split.
    - apply basic_start; [exact Hs|done].
    - intros c. simpl. by rewrite Hs.
    - intros c. simpl. rewrite Hs. done. }
  apply run_schedule_steps in Hrun.
  induction Hrun; eauto using state_once_step.
Qed.

(** X9: on any graph, whether or not its relations match and whatever its
    counts, a pass calls no callback twice and pushes no node twice; the
    nodes it evaluates or pushes need update, are on the layers of the pass
    and have a callback. *)
Theorem claim_flag_runs_once layers g order schedule st c :
  order ≡ₚ seq 0 (length (operations g)) →
  run_schedule layers schedule (schedule_graph (pass_start layers g order)) = Some st →
  count (EvEvaluate c) (ps_trace st) ≤ 1 ∧
  count (EvPush c) (ps_trace st) ≤ 1 ∧
  (EvEvaluate c ∈ ps_trace st ∨ EvPush c ∈ ps_trace st →
   eligible layers (node_at g c) = true ∧ is_Some (evaluate (node_at g c))).
Proof.
  intros Hp Hrun. destruct (pass_once layers g order schedule st Hp Hrun) as [HB Hr Hpu].
  split; [|split].
  - specialize (Hr c).
    destruct (sched (ps_graph st) c && negb (is_noop (node_at (pass_start layers g order) c)));
      lia.
  - specialize (Hpu c). destruct (sched (ps_graph st) c); lia.
  - intros Hin.
    assert (sched (ps_graph st) c = true ∧
            is_noop (node_at (pass_start layers g order) c) = false) as [Hs Hn].
    { destruct Hin as [Hin|Hin];
        [apply (basic_evaluated _ _ _ _ _ HB c Hin)|apply (basic_pushed _ _ _ _ _ HB c Hin)]. }
    split.
    + by eapply pass_claimed_eligible.
    + rewrite (same_static_noop _ _ (pass_start_static layers g order Hp c)) in Hn.
      unfold is_noop in Hn. by destruct (evaluate (node_at g c)).
Qed.

Lemma claim_flag_runs_once_half_linked :
  ∃ st,
    run_schedule 1
      (default_schedule 1 50 (schedule_graph (pass_start 1 half_linked [1; 0])))
      (schedule_graph (pass_start 1 half_linked [1; 0])) = Some st ∧
    drained st ∧
    count (EvEvaluate 1) (ps_trace st) ≤ 1 ∧
    count (EvPush 1) (ps_trace st) ≤ 1 ∧
    (EvEvaluate 1 ∈ ps_trace st ∨ EvPush 1 ∈ ps_trace st →
     eligible 1 (node_at half_linked 1) = true ∧
     is_Some (evaluate (node_at half_linked 1))).
Proof.
  destruct (run_schedule 1 _ _) as [st|] eqn:Hrun; [|by vm_compute in Hrun].
  exists st. split; [done|]. split.
  { vm_compute in Hrun. injection Hrun as <-. by apply (bool_decide_unpack _). }
  eapply (claim_flag_runs_once 1 half_linked [1; 0]).
  - by apply (bool_decide_unpack _).
  - exact Hrun.
Defined.

(** ** What a step leaves alone *)

Lemma update_node_frame g c f :
  (∀ n, op_done (f n) = op_done n) →
  set_operations [] (update_node g c f) = set_operations [] g ∧
  length (operations (update_node g c f)) = length (operations g) ∧
  ∀ c', op_done (node_at (update_node g c f) c') = op_done (node_at g c').
Proof.
  intros Hf. split; [done|]. split; [apply length_update_node|].
  intros c'. rewrite node_at_update. case_decide; [apply Hf|done].
Qed.

Lemma instr_step_frame layers g i :
  set_operations [] (sr_graph (instr_step layers g i)) = set_operations [] g ∧
  length (operations (sr_graph (instr_step layers g i))) = length (operations g) ∧
  ∀ c, op_done (node_at (sr_graph (instr_step layers g i)) c) = op_done (node_at g c).
Proof.
  destruct i as [[|? ?]|c dec|c|c|[|? ?]|c|c|c|r|c|c]; unfold instr_step.
  all: repeat match goal with
    | |- context [match outlinks ?n with _ => _ end] =>
        destruct (outlinks n) as [|? [|? ?]]
    | |- context [if ?b then _ else _] => destruct b
    end.
  all: cbn [sr_graph silent]; try done.
  all: by apply update_node_frame.
Qed.

Lemma run_frame layers cs st st' :
  run_schedule layers cs st = Some st' →
  set_operations [] (ps_graph st') = set_operations [] (ps_graph st) ∧
  length (operations (ps_graph st')) = length (operations (ps_graph st)) ∧
  ∀ c, op_done (node_at (ps_graph st') c) = op_done (node_at (ps_graph st) c).
Proof.
  revert st. induction cs as [|c cs IH]; intros st; simpl; [by intros [= <-]|].
  destruct (sched_step layers c st) as [st1|] eqn:E; [|done]. intros Hrun.
  destruct (IH st1 Hrun) as (H1 & H2 & H3).
  assert (set_operations [] (ps_graph st1) = set_operations [] (ps_graph st) ∧
          length (operations (ps_graph st1)) = length (operations (ps_graph st)) ∧
          ∀ c, op_done (node_at (ps_graph st1) c) = op_done (node_at (ps_graph st) c))
    as (H1' & H2' & H3').
  { destruct c as [tid|slot]; simpl in E.
    - destruct (ps_threads st !! tid) as [[|i k]|]; try done.
      injection E as <-. simpl. apply instr_step_frame.
    - destruct (ps_pool st !! slot); [|done]. by injection E as <-. }
  split; [congruence|]. split; [congruence|]. intros c'. by rewrite H3, H3'.
Qed.

Lemma node_ext n n' :
  same_static n n' → num_links_pending n = num_links_pending n' →
  scheduled n = scheduled n' → op_done n = op_done n' → n = n'.
Proof.
  destruct n, n'. unfold same_static. simpl.
  by intros (-> & -> & -> & -> & ->) -> -> ->.
Qed.

Lemma graph_ext g g' :
  set_operations [] g' = set_operations [] g →
  length (operations g') = length (operations g) →
  (∀ c, c < length (operations g) → node_at g' c = node_at g c) →
  g' = g.
Proof.
  intros Hf Hl Hn.
  assert (operations g' = operations g) as Hops.
  { apply list_eq. intros i. destruct (decide (i < length (operations g))) as [Hi|Hi].
    - specialize (Hn i Hi). unfold node_at in Hn.
      destruct (lookup_lt_is_Some_2 (operations g) i Hi) as [n Hn0].
      destruct (lookup_lt_is_Some_2 (operations g') i ltac:(lia)) as [n' Hn'].
      rewrite Hn0, Hn' in *. simpl in Hn. by rewrite Hn.
    - by rewrite !lookup_ge_None_2 by lia. }
  destruct g, g'. simpl in *. injection Hf as -> -> ->. by rewrite Hops.
Qed.

Lemma pass_start_fields layers g order :
  order ≡ₚ seq 0 (length (operations g)) →
  set_operations [] (pass_start layers g order) = set_operations [] g.
Proof. intros Hp. unfold pass_start. by rewrite prepass_graph. Qed.

(** X1: a complete pass leaves the same graph whatever the schedule of the
    threads and the order of the pre-pass: every count is at zero, the nodes
    that need update on the layers of the pass are claimed and no other,
    [done] is cleared, and nothing else has changed. *)
Theorem pass_leaves_finished_graph layers g rels order schedule st :
  relations_of g rels → links_fit g → cycles_flagged g →
  order ≡ₚ seq 0 (length (operations g)) →
  evaluate_pass order schedule g layers = Some st →
  ps_graph st = finished_graph layers g.
Proof.
  intros Hrels Hfit Hcyc Hp Hpass.
  destruct (evaluate_pass_inv _ _ _ _ _ Hpass) as [Hrun Hd].
  destruct (pass_inv layers g rels order Hrels Hfit Hp schedule st Hrun) as [HI _].
  destruct (run_frame _ _ _ _ Hrun) as (Hf & Hl & Hdone).
  cbn [ps_graph schedule_graph] in Hf, Hl, Hdone.
  apply graph_ext.
  - by rewrite Hf, pass_start_fields.
  - rewrite Hl, pass_start_length by done. unfold finished_graph. simpl.
    by rewrite length_fmap.
  - intros c Hc.
    assert (c < length (operations g)) as Hc'.
    { unfold finished_graph in Hc. simpl in Hc. by rewrite length_fmap in Hc. }
    clear Hc. rename Hc' into Hc.
    assert (node_at (finished_graph layers g) c = finished_node layers (node_at g c)) as ->.
    { unfold node_at, finished_graph. simpl. rewrite list_lookup_fmap.
      by destruct (lookup_lt_is_Some_2 (operations g) c Hc) as [n ->]. }
    apply node_ext.
    + apply same_static_sym. eapply same_static_trans; [|apply (inv_static _ _ _ _ _ _ HI c)].
      by repeat split.
    + simpl. destruct (eligible layers (node_at g c)) eqn:He.
      * apply (inv_sched_zero _ _ _ _ _ _ HI).
        by eapply (pass_claims_all layers g rels order).
      * by apply (inv_idle _ _ _ _ _ _ HI).
    + simpl. destruct (eligible layers (node_at g c)) eqn:He.
      * by eapply (pass_claims_all layers g rels order).
      * destruct (scheduled (node_at (ps_graph st) c)) eqn:Hs; [|done].
        pose proof (inv_sched_eligible _ _ _ _ _ _ HI c Hs). congruence.
    + rewrite Hdone, pass_start_node, decide_True by done. done.
Qed.

Lemma pass_leaves_finished_graph_diamond :
  ∃ st,
    evaluate_pass [3; 1; 0; 2]
      (default_schedule 1 100 (schedule_graph (pass_start 1 diamond4 [3; 1; 0; 2])))
      diamond4 1 = Some st ∧
    ps_graph st = finished_graph 1 diamond4.
Proof.
  destruct (evaluate_pass _ _ _ _) as [st|] eqn:Hpass; [|by vm_compute in Hpass].
  exists st. split; [done|].
  eapply (pass_leaves_finished_graph 1 diamond4 diamond_rels [3; 1; 0; 2]).
  - by apply (bool_decide_unpack _).
  - unfold links_fit. by apply (bool_decide_unpack _).
  - exists id. by apply (bool_decide_unpack _).
  - by apply (bool_decide_unpack _).
  - exact Hpass.
Defined.

(** ** The pool always drains *)

(** X2: a pass cannot get stuck.  From any point it has reached, some
    continuation drains the pool, within the bound on the length of a run;
    and the pool is drained exactly when no thread can move and no task is
    left to start. *)
Theorem pass_never_stuck layers g rels order schedule st :
  relations_of g rels → links_fit g →
  order ≡ₚ seq 0 (length (operations g)) →
  run_schedule layers schedule (schedule_graph (pass_start layers g order)) = Some st →
  (drained st ↔ ∀ c, sched_step layers c st = None) ∧
  ∃ rest st',
    run_schedule layers (schedule ++ rest)
      (schedule_graph (pass_start layers g order)) = Some st' ∧
    drained st' ∧
    length (schedule ++ rest) ≤
      pass_measure g (schedule_graph (pass_start layers g order)).
Proof.
  intros Hrels Hfit Hp Hrun. split.
  - split; [intros Hd c; by apply drained_no_step|].
    intros Hno. apply next_choice_None.
    destruct (next_choice st) as [c|] eqn:E; [|done].
    destruct (next_choice_Some layers st c E) as [st' Hst']. by rewrite Hno in Hst'.
  - destruct (pass_inv layers g rels order Hrels Hfit Hp schedule st Hrun) as [HI _].
    destruct (default_schedule_complete layers g rels (pass_measure g st) st Hrels HI)
      as (st' & Hrest & Hd); [done|].
    exists (default_schedule layers (pass_measure g st) st), st'.
    assert (run_schedule layers
              (schedule ++ default_schedule layers (pass_measure g st) st)
              (schedule_graph (pass_start layers g order)) = Some st') as Hall.
    { by rewrite run_schedule_app, Hrun. }
    split; [done|]. split; [done|]. by eapply pass_bounded.
Qed.

Lemma pass_never_stuck_diamond :
  ∃ st,
    run_schedule 1 (replicate 3 (RunThread 0))
      (schedule_graph (pass_start 1 diamond4 [3; 1; 0; 2])) = Some st ∧
    (drained st ↔ ∀ c, sched_step 1 c st = None) ∧
    ∃ rest st',
      run_schedule 1 (replicate 3 (RunThread 0) ++ rest)
        (schedule_graph (pass_start 1 diamond4 [3; 1; 0; 2])) = Some st' ∧
      drained st' ∧
      length (replicate 3 (RunThread 0) ++ rest) ≤
        pass_measure diamond4 (schedule_graph (pass_start 1 diamond4 [3; 1; 0; 2])).
Proof.
  destruct (run_schedule 1 _ _) as [st|] eqn:Hrun; [|by vm_compute in Hrun].
  exists st. split; [done|].
  eapply (pass_never_stuck 1 diamond4 diamond_rels [3; 1; 0; 2]).
  - by apply (bool_decide_unpack _).
  - unfold links_fit. by apply (bool_decide_unpack _).
  - by apply (bool_decide_unpack _).
  - exact Hrun.
Defined.

(** ** A cycle without the flag *)

Section WaitCycle.
Context (layers : Z) (g0 : Depsgraph) (rels : list DepsRelation) (S : list nat).
Hypothesis Hrels : relations_of g0 rels.
Hypothesis Hcycle : wait_cycle layers g0 S.

Lemma wait_cycle_token g I t c :
  Inv layers g0 rels g I t → c ∈ S →
  (∀ p, p ∈ S → sched g p = false) →
  (0 < pend g c)%Z.
Proof.
  intros HI Hc Hun. unfold wait_cycle in Hcycle. rewrite Forall_forall in Hcycle.
  destruct (Hcycle c Hc) as [He (p & Hp & Hw)%Exists_exists].
  destruct (waits_for_rel layers g0 rels Hrels c p Hw)
    as (r & Hr & Hfrom & Hto & Hnc & _).
  { split; [by eapply waits_for_eligible|by eapply eligible_in_range]. }
  rewrite (inv_tokens _ _ _ _ _ _ HI c He).
  assert (c ∈ unclaimed_tokens layers rels g) as Hin.
  { apply (proj2 (unclaimed_token_elem layers g0 rels Hrels g c)).
    exists r, p. repeat split; try done.
    - rewrite (same_static_eligible _ _ _ (inv_static _ _ _ _ _ _ HI p)).
      by eapply waits_for_eligible.
    - by apply Hun. }
  apply count_pos in Hin. rewrite count_app. lia.
Qed.

Lemma wait_cycle_step st st' :
  state_inv layers g0 rels st → step layers st st' →
  (∀ p, p ∈ S → sched (ps_graph st) p = false) →
  (∀ p, p ∈ S → sched (ps_graph st') p = false).
Proof.
  intros HI [[tid|slot] Hstep] Hun p Hp.
  - apply all_instrs_run in Hstep as (i & R & HR & Hg & _ & _ & _).
    assert (Inv layers g0 rels (ps_graph st) (i :: R) (ps_trace st)) as HI'.
    { eapply inv_perm; [apply HR|apply HI]. }
    rewrite Hg. destruct (sched (sr_graph _) p) eqn:Hs; [|done].
    pose proof (claim_at_zero layers g0 rels _ _ _ _ p HI' (Hun p Hp) Hs).
    pose proof (wait_cycle_token _ _ _ p HI' Hp Hun). lia.
  - apply all_instrs_start in Hstep as (Hg & _). rewrite Hg. by apply Hun.
Qed.
End WaitCycle.

(** X3: relations that close a cycle and do not carry [DEPSREL_FLAG_CYCLIC]
    starve the nodes on it: no node of a set in which each waits for another
    of the set is ever claimed, pushed or evaluated, and its count stays
    above zero. *)
Theorem unflagged_cycle_starves layers g rels order S schedule st c :
  relations_of g rels → links_fit g →
  order ≡ₚ seq 0 (length (operations g)) →
  wait_cycle layers g S →
  run_schedule layers schedule (schedule_graph (pass_start layers g order)) = Some st →
  c ∈ S →
  sched (ps_graph st) c = false ∧ (0 < pend (ps_graph st) c)%Z ∧
  (EvPush c ∉ ps_trace st) ∧ (EvEvaluate c ∉ ps_trace st).
Proof.
  intros Hrels Hfit Hp Hcyc Hrun Hc.
  assert (∀ st0 st1, state_inv layers g rels st0 →
            (∀ p, p ∈ S → sched (ps_graph st0) p = false) →
            rtc (step layers) st0 st1 →
            state_inv layers g rels st1 ∧ ∀ p, p ∈ S → sched (ps_graph st1) p = false)
    as Hind.
  { intros st0 st1 HI0 Hun0 Hsteps.
    induction Hsteps as [st1|st1 st2 st3 H12 H23 IH]; [done|].
    apply IH; [by eapply state_inv_step|by eapply wait_cycle_step]. }
  destruct (Hind (schedule_graph (pass_start layers g order)) st) as [HI Hun].
  - by apply state_inv_start.
  - intros p _. unfold sched. simpl. rewrite pass_start_node by done. by case_decide.
  - by eapply run_schedule_steps.
  - split; [by apply Hun|]. split; [by eapply wait_cycle_token|]. split.
    + intros Hin. destruct (inv_pushed _ _ _ _ _ _ HI c Hin) as [Hs _].
      rewrite (Hun c Hc) in Hs. done.
    + intros Hin%count_pos. pose proof (inv_runs _ _ _ _ _ _ HI c) as Hr.
      rewrite (Hun c Hc) in Hr. simpl in Hr. lia.
Qed.

Lemma unflagged_cycle_starves_example :
  ∃ st,
    run_schedule 1
      (default_schedule 1 20 (schedule_graph (pass_start 1 unflagged_cycle [1; 0])))
      (schedule_graph (pass_start 1 unflagged_cycle [1; 0])) = Some st ∧
    drained st ∧
    sched (ps_graph st) 0 = false ∧ (0 < pend (ps_graph st) 0)%Z ∧
    (EvPush 0 ∉ ps_trace st) ∧ (EvEvaluate 0 ∉ ps_trace st).
Proof.
  destruct (run_schedule 1 _ _) as [st|] eqn:Hrun; [|by vm_compute in Hrun].
  exists st. split; [done|]. split.
  { vm_compute in Hrun. injection Hrun as <-. by apply (bool_decide_unpack _). }
  eapply (unflagged_cycle_starves 1 unflagged_cycle
            [mk_relation 0 1 0; mk_relation 1 0 0] [1; 0] [0; 1]).
  - by apply (bool_decide_unpack _).
  - unfold links_fit. by apply (bool_decide_unpack _).
  - by apply (bool_decide_unpack _).
  - apply Forall_cons. split; [split; [reflexivity|]|].
    { apply Exists_cons_tl, Exists_cons_hd.
      exists (mk_relation 1 0 0). split; [by left|]. by repeat split. }
    apply Forall_cons. split; [split; [reflexivity|]|by apply Forall_nil].
    apply Exists_cons_hd.
    exists (mk_relation 0 1 0). split; [by left|]. by repeat split.
  - exact Hrun.
  - by left.
Defined.

(** ** The opening of a pass forgets the scheduling fields *)

Lemma prepass_pending_static layers g g' n n' :
  (∀ c, same_static (node_at g c) (node_at g' c)) →
  same_static n n' →
  prepass_pending layers g' n' = prepass_pending layers g n.
Proof.
  intros Hg Hn. unfold prepass_pending.
  rewrite (same_static_eligible _ _ _ Hn).
  destruct (eligible layers n); [|done].
  destruct Hn as (_ & _ & _ & <- & _). do 2 f_equal.
  apply list_filter_iff. intros r. by apply counted_relation_static.
Qed.

Lemma pass_start_forgets layers g g' order order' :
  order ≡ₚ seq 0 (length (operations g)) →
  order' ≡ₚ seq 0 (length (operations g')) →
  set_operations [] g' = set_operations [] g →
  length (operations g') = length (operations g) →
  (∀ c, same_static (node_at g c) (node_at g' c)) →
  pass_start layers g' order' = pass_start layers g order.
Proof.
  intros Hp Hp' Hf Hl Hst. apply graph_ext.
  - by rewrite !pass_start_fields.
  - by rewrite !pass_start_length.
  - intros c Hc. rewrite pass_start_length in Hc by done.
    rewrite !pass_start_node, Hl, !decide_True by done.
    apply node_ext; simpl.
    + eapply same_static_trans; [|eapply same_static_trans; [apply same_static_sym, Hst|]];
        by repeat split.
    + f_equal. by apply prepass_pending_static.
    + done.
    + done.
Qed.

(** X4: the opening of a pass (the pre-pass and the clearing of [done])
    forgets what an earlier pass left in [num_links_pending], [scheduled] and
    [done]: run again on the graph as a pass has left it at any point,
    drained or not, it gives the graph with which that pass began. *)
Theorem pass_start_again layers g order order' schedule st :
  order ≡ₚ seq 0 (length (operations g)) →
  order' ≡ₚ seq 0 (length (operations g)) →
  run_schedule layers schedule (schedule_graph (pass_start layers g order)) = Some st →
  pass_start layers (ps_graph st) order' = pass_start layers g order.
Proof.
  intros Hp Hp' Hrun.
  destruct (run_frame _ _ _ _ Hrun) as (Hf & Hl & _).
  cbn [ps_graph schedule_graph] in Hf, Hl.
  rewrite pass_start_length in Hl by done. rewrite pass_start_fields in Hf by done.
  apply pass_start_forgets; try done; [by rewrite Hl|].
  intros c. eapply same_static_trans; [apply (pass_start_static layers g order Hp c)|].
  apply (pass_basic layers g order schedule st Hp Hrun).
Qed.

Lemma pass_start_again_diamond :
  ∃ st,
    run_schedule 1
      (default_schedule 1 100 (schedule_graph (pass_start 1 diamond4 [3; 1; 0; 2])))
      (schedule_graph (pass_start 1 diamond4 [3; 1; 0; 2])) = Some st ∧
    pass_start 1 (ps_graph st) [0; 1; 2; 3] = pass_start 1 diamond4 [3; 1; 0; 2].
Proof.
  destruct (run_schedule 1 _ _) as [st|] eqn:Hrun; [|by vm_compute in Hrun].
  exists st. split; [done|].
  eapply (pass_start_again 1 diamond4 [3; 1; 0; 2] [0; 1; 2; 3]).
  - by apply (bool_decide_unpack _).
  - by apply (bool_decide_unpack _).
  - exact Hrun.
Defined.

(** ** The drivers *)

(** X5: [DEG_needs_eval] is the test [DEG_evaluate_on_refresh_ex] makes
    first: it answers false exactly when the driver returns at once, having
    touched neither the context nor the graph and called nothing. *)
Theorem needs_eval_gates_refresh order schedule eval_ctx g layers :
  DEG_needs_eval g = false ↔
  DEG_evaluate_on_refresh_ex order schedule eval_ctx g layers =
    Some (Returned eval_ctx g []).
Proof.
  unfold DEG_needs_eval, DEG_evaluate_on_refresh_ex.
  case_decide as H.
  - rewrite H. done.
  - apply Nat.eqb_neq in H. rewrite H. simpl. split; [done|].
    destruct (time_source g); [|done].
    by destruct (evaluate_pass _ _ _ _).
Qed.





(** ** The switch between the two dependency graphs *)

Lemma switches_snoc opts calls s :
  switches opts (calls ++ [s]) = switch opts (switches opts calls) s.
Proof. unfold switches. by rewrite fold_left_app. Qed.

(** X8: after any sequence of calls of [DEG_depsgraph_switch_to_legacy] and
    [DEG_depsgraph_switch_to_new], [DEG_depsgraph_use_legacy] answers true in
    a build with [DISABLE_NEW_DEPSGRAPH], what the last call asked for (true
    when there was none) in a build with [WITH_LEGACY_DEPSGRAPH] only, and
    false, on a failed assertion, in a build with neither; the switches fail
    their assertion exactly in the builds without
    [WITH_LEGACY_DEPSGRAPH]. *)
Theorem legacy_switch_last_call_wins opts calls :
  DEG_depsgraph_use_legacy opts (switches opts calls) =
    (if DISABLE_NEW_DEPSGRAPH opts then (true, false)
     else if WITH_LEGACY_DEPSGRAPH opts
     then (match last calls with Some ToNew => false | _ => true end, false)
     else (false, true)) ∧
  (DEG_depsgraph_switch_to_legacy opts (switches opts calls)).2 =
    negb (WITH_LEGACY_DEPSGRAPH opts) ∧
  (DEG_depsgraph_switch_to_new opts (switches opts calls)).2 =
    negb (WITH_LEGACY_DEPSGRAPH opts).
Proof.
  unfold DEG_depsgraph_use_legacy, DEG_depsgraph_switch_to_legacy,
    DEG_depsgraph_switch_to_new.
  destruct (DISABLE_NEW_DEPSGRAPH opts), (WITH_LEGACY_DEPSGRAPH opts) eqn:Hw;
    simpl; try done.
  split; [|done]. f_equal.
  induction calls as [|s calls _] using rev_ind; [done|].
  rewrite switches_snoc, last_snoc. unfold switch, DEG_depsgraph_switch_to_legacy,
    DEG_depsgraph_switch_to_new. rewrite Hw. by destruct s.
Qed.

(** ** Nodes that do not need update *)

(** X10: a node whose flag does not carry [DEPSOP_FLAG_NEEDS_UPDATE] is left
    alone, whatever its layers: it is never claimed, pushed or evaluated, it
    is neither in the pool nor in the hands of a worker, and its fields are
    those the opening of the pass left. *)
Theorem untagged_node_never_runs layers g order schedule st c :
  order ≡ₚ seq 0 (length (operations g)) →
  run_schedule layers schedule (schedule_graph (pass_start layers g order)) = Some st →
  needs_update (node_at g c) = false →
  sched (ps_graph st) c = false ∧
  (EvEvaluate c ∉ ps_trace st) ∧ (EvPush c ∉ ps_trace st) ∧
  (c ∉ ps_pool st) ∧
  (∀ k i, k ∈ ps_threads st → i ∈ k →
          i ≠ ITaskEntry c ∧ i ≠ ITaskLoop c ∧ i ≠ ITaskLinks c ∧
          i ≠ ITaskClaim c ∧ i ≠ INodeClaim c) ∧
  node_at (ps_graph st) c = node_at (pass_start layers g order) c.
Proof.
  intros Hp Hrun Hc.
  assert (eligible layers (node_at g c) = false) as He.
  { unfold eligible. by rewrite Hc. }
  pose proof (pass_basic layers g order schedule st Hp Hrun) as HI.
  assert (sched (ps_graph st) c = false) as Hs.
  { destruct (sched (ps_graph st) c) eqn:Hs; [|done].
    pose proof (pass_claimed_eligible layers g order Hp schedule st c Hrun Hs).
    congruence. }
  split; [done|]. split; [|split; [|split; [|split]]].
  - intros Hin. destruct (basic_evaluated _ _ _ _ _ HI c Hin) as [? _]. congruence.
  - intros Hin. destruct (basic_pushed _ _ _ _ _ HI c Hin) as [? _]. congruence.
  - intros Hin%pool_instr.
    pose proof (pass_instr_checked layers g order Hp schedule st _ Hrun Hin) as [? _].
    congruence.
  - intros k i Hk Hi.
    pose proof (pass_instr_checked layers g order Hp schedule st i Hrun
                  (thread_instr st k i Hk Hi)) as Hok.
    assert (eligible layers (node_at (pass_start layers g order) c) = false) as He'.
    { by rewrite (same_static_eligible _ _ _ (pass_start_static layers g order Hp c)). }
    repeat split; intros ->; simpl in Hok.
    + destruct Hok. congruence.
    + congruence.
    + congruence.
    + congruence.
    + congruence.
  - by eapply pass_idle.
Qed.

Lemma untagged_node_never_runs_example :
  ∃ st,
    run_schedule 1 (default_schedule 1 20 (schedule_graph (pass_start 1 (off_layer 0) [1; 0])))
      (schedule_graph (pass_start 1 (off_layer 0) [1; 0])) = Some st ∧
    sched (ps_graph st) 1 = false ∧
    (EvEvaluate 1 ∉ ps_trace st) ∧ (EvPush 1 ∉ ps_trace st) ∧
    (1 ∉ ps_pool st) ∧
    (∀ k i, k ∈ ps_threads st → i ∈ k →
            i ≠ ITaskEntry 1 ∧ i ≠ ITaskLoop 1 ∧ i ≠ ITaskLinks 1 ∧
            i ≠ ITaskClaim 1 ∧ i ≠ INodeClaim 1) ∧
    node_at (ps_graph st) 1 = node_at (pass_start 1 (off_layer 0) [1; 0]) 1.
Proof.
  destruct (run_schedule 1 _ _) as [st|] eqn:Hrun; [|by vm_compute in Hrun].
  exists st. split; [done|].
  eapply (untagged_node_never_runs 1 (off_layer 0) [1; 0]).
  - by apply (bool_decide_unpack _).
  - exact Hrun.
  - reflexivity.
Defined.

(** ** A pass that selects nothing *)

Section Quiet.
Context (layers : Z) (g1 : Depsgraph).
Hypothesis Hnone : ∀ c, eligible layers (node_at g1 c) = false.

Local Abbreviation walking :=
  (λ i, match i with
        | IScheduleGraph _ | IScheduleNode _ false => True
        | _ => False
        end).
Local Abbreviation left_to_walk :=
  (sum_list_with (λ i, match i with
                       | IScheduleGraph rest => 2 * length rest + 1
                       | _ => 1
                       end)).

Lemma quiet_step c k st' :
  Forall walking k →
  sched_step layers c
    {| ps_graph := g1; ps_pool := []; ps_threads := [k]; ps_trace := [] |} = Some st' →
  c = RunThread 0 ∧
  ∃ k', st' = {| ps_graph := g1; ps_pool := []; ps_threads := [k']; ps_trace := [] |} ∧
        Forall walking k' ∧ left_to_walk k = S (left_to_walk k').
Proof.
  intros Hk. destruct c as [[|tid]|slot]; simpl; [|done..].
  destruct k as [|i k]; [done|]. apply Forall_cons in Hk as [Hi Hk].
  intros [= <-]. split; [done|].
  destruct i as [[|c rest]|c [|]|c|c|[|r rest]|c|c|c|r|c|c]; try done;
    unfold instr_step.
  - exists k. split; [done|]. split; [done|]. simpl. lia.
  - exists (IScheduleNode c false :: IScheduleGraph rest :: k).
    split; [done|]. split; [by repeat constructor|]. simpl. lia.
  - fold (eligible layers (node_at g1 c)). rewrite Hnone.
    exists k. split; [done|]. split; [done|]. simpl. lia.
Qed.

Lemma quiet_run cs k st :
  Forall walking k →
  run_schedule layers cs
    {| ps_graph := g1; ps_pool := []; ps_threads := [k]; ps_trace := [] |} = Some st →
  cs = replicate (length cs) (RunThread 0) ∧
  ∃ k', st = {| ps_graph := g1; ps_pool := []; ps_threads := [k']; ps_trace := [] |} ∧
        left_to_walk k = length cs + left_to_walk k'.
Proof.
  revert k. induction cs as [|c cs IH]; intros k Hk; cbn [run_schedule].
  - intros [= <-]. split; [done|]. by exists k.
  - destruct (sched_step layers c _) as [st1|] eqn:E; [|done]. intros Hrun.
    destruct (quiet_step c k st1 Hk E) as (-> & k1 & -> & Hk1 & Hw).
    destruct (IH k1 Hk1 Hrun) as (Hcs & k' & -> & Hw').
    split; [simpl; by rewrite <-Hcs|]. exists k'. split; [done|].
    change (length (RunThread 0 :: cs)) with (S (length cs)). lia.
Qed.

Lemma quiet_walk k :
  Forall walking k →
  run_schedule layers (replicate (left_to_walk k) (RunThread 0))
    {| ps_graph := g1; ps_pool := []; ps_threads := [k]; ps_trace := [] |} =
  Some {| ps_graph := g1; ps_pool := []; ps_threads := [[]]; ps_trace := [] |}.
Proof.
  remember (left_to_walk k) as w eqn:Hw. revert k Hw.
  induction w as [|w IH]; intros k Hw Hk.
  - destruct k as [|i k]; [done|]. simpl in Hw. destruct i; lia.
  - destruct k as [|i k]; [done|].
    cbn [replicate run_schedule].
    destruct (sched_step layers (RunThread 0) _) as [st1|] eqn:E; [|done].
    destruct (quiet_step _ _ _ Hk E) as (_ & k1 & -> & Hk1 & Hw1).
    apply IH; [lia|done].
Qed.
End Quiet.

(** X11: when no node of the graph both needs update and is on the layers
    of the pass, the pass is the walk of [schedule_graph] over the
    operations on the calling thread and nothing else: two steps for each
    operation and one to leave the loop, no task, no worker, no event, and
    the graph is left as the opening of the pass made it. *)
Theorem pass_that_selects_nothing layers g order :
  Forall (λ n, eligible layers n = false) (operations g) →
  order ≡ₚ seq 0 (length (operations g)) →
  evaluate_pass order (replicate (2 * length (operations g) + 1) (RunThread 0)) g layers =
    Some {| ps_graph := pass_start layers g order; ps_pool := [];
            ps_threads := [[]]; ps_trace := [] |} ∧
  ∀ schedule st,
    evaluate_pass order schedule g layers = Some st →
    schedule = replicate (2 * length (operations g) + 1) (RunThread 0) ∧
    st = {| ps_graph := pass_start layers g order; ps_pool := [];
            ps_threads := [[]]; ps_trace := [] |}.
Proof.
  intros Hall Hp.
  assert (∀ c, eligible layers (node_at (pass_start layers g order) c) = false) as Hnone.
  { intros c. rewrite (same_static_eligible _ _ _ (pass_start_static layers g order Hp c)).
    unfold node_at. destruct (operations g !! c) as [n|] eqn:E; [|done]. simpl.
    rewrite Forall_forall in Hall. by eapply Hall, list_elem_of_lookup_2. }
  assert (Forall (λ i, match i with
                       | IScheduleGraph _ | IScheduleNode _ false => True
                       | _ => False
                       end) [IScheduleGraph (seq 0 (length (operations g)))]) as Hk
    by by repeat constructor.
  assert (schedule_graph (pass_start layers g order) =
          {| ps_graph := pass_start layers g order; ps_pool := [];
             ps_threads := [[IScheduleGraph (seq 0 (length (operations g)))]];
             ps_trace := [] |}) as Hstart.
  { unfold schedule_graph. by rewrite pass_start_length. }
  split.
  - unfold evaluate_pass. fold (pass_start layers g order). rewrite Hstart.
    pose proof (quiet_walk layers _ Hnone _ Hk) as Hw.
    cbn [sum_list_with] in Hw. rewrite length_seq, Nat.add_0_r in Hw.
    rewrite Hw. by rewrite decide_True by by repeat constructor.
  - intros schedule st [Hrun Hd]%evaluate_pass_inv. rewrite Hstart in Hrun.
    destruct (quiet_run layers _ Hnone _ _ _ Hk Hrun) as (Hcs & k' & -> & Hw).
    cbn [sum_list_with] in Hw. rewrite length_seq, Nat.add_0_r in Hw.
    destruct Hd as [_ Hd]. apply Forall_cons in Hd as [-> _].
    simpl in Hw. rewrite Hcs. split; [|done]. f_equal. lia.
Qed.

Lemma pass_that_selects_nothing_chain :
  evaluate_pass [2; 0; 3; 1] (replicate (2 * length (operations chain4) + 1) (RunThread 0))
    chain4 2 =
    Some {| ps_graph := pass_start 2 chain4 [2; 0; 3; 1]; ps_pool := [];
            ps_threads := [[]]; ps_trace := [] |} ∧
  ∀ schedule st,
    evaluate_pass [2; 0; 3; 1] schedule chain4 2 = Some st →
    schedule = replicate (2 * length (operations chain4) + 1) (RunThread 0) ∧
    st = {| ps_graph := pass_start 2 chain4 [2; 0; 3; 1]; ps_pool := [];
            ps_threads := [[]]; ps_trace := [] |}.
Proof.
  apply (pass_that_selects_nothing 2 chain4 [2; 0; 3; 1]).
  - by apply (bool_decide_unpack _).
  - by apply (bool_decide_unpack _).
Defined.

(** ** Two graphs with one skeleton *)

(** X12: the scheduler reads a graph through its skeleton only: whether a
    node needs update on the layers of the pass, whether it has a callback,
    and whether a relation carries [DEPSREL_FLAG_CYCLIC].  Two graphs with
    the same skeleton, under layers of their own, go through the same
    pushes and calls of callbacks under every schedule. *)
Theorem scheduling_reads_skeleton layers layers' g g' order order' schedule st :
  skel_graph layers g = skel_graph layers' g' →
  order ≡ₚ seq 0 (length (operations g)) →
  order' ≡ₚ seq 0 (length (operations g')) →
  run_schedule layers schedule (schedule_graph (pass_start layers g order)) = Some st →
  ∃ st',
    run_schedule layers' schedule (schedule_graph (pass_start layers' g' order')) =
      Some st' ∧
    ps_trace st' = ps_trace st ∧ ps_pool st' = ps_pool st ∧
    skel_state layers' st' = skel_state layers st.
Proof.
  intros Hskel Hp Hp' Hrun.
  assert (length (operations g') = length (operations g)) as Hl.
  { apply (f_equal (λ g, length (operations g))) in Hskel. simpl in Hskel.
    by rewrite !length_fmap in Hskel. }
  assert (skel_state layers' (schedule_graph (pass_start layers' g' order')) =
          skel_state layers (schedule_graph (pass_start layers g order))) as Hstart.
  { rewrite !schedule_graph_skel. f_equal.
    rewrite (pass_start_skel layers g order order), (pass_start_skel layers' g' order' order)
      by (done || by rewrite ?Hl).
    by rewrite Hskel. }
  apply (run_schedule_skel layers) in Hrun. rewrite <-Hstart in Hrun.
  rewrite run_schedule_skel_eq in Hrun.
  revert Hrun. destruct (run_schedule layers' schedule _) as [st'|]; [|done].
  simpl. intros Hst. assert (Hst' : skel_state layers' st' = skel_state layers st) by congruence.
  exists st'. split; [done|].
  split; [|split; [|done]].
  - by apply (f_equal ps_trace) in Hst'.
  - by apply (f_equal ps_pool) in Hst'.
Qed.

Lemma scheduling_reads_skeleton_chain :
  ∃ st st',
    run_schedule 1
      (default_schedule 1 100 (schedule_graph (pass_start 1 chain4 [0; 1; 2; 3])))
      (schedule_graph (pass_start 1 chain4 [0; 1; 2; 3])) = Some st ∧
    run_schedule 4
      (default_schedule 1 100 (schedule_graph (pass_start 1 chain4 [0; 1; 2; 3])))
      (schedule_graph (pass_start 4 chain4_other [3; 2; 1; 0])) = Some st' ∧
    ps_trace st' = ps_trace st ∧ ps_pool st' = ps_pool st ∧
    skel_state 4 st' = skel_state 1 st.
Proof.
  destruct (run_schedule 1 _ (schedule_graph (pass_start 1 chain4 _))) as [st|] eqn:Hrun;
    [|by vm_compute in Hrun].
  exists st.
  destruct (scheduling_reads_skeleton 1 4 chain4 chain4_other [0; 1; 2; 3] [3; 2; 1; 0]
              (default_schedule 1 100 (schedule_graph (pass_start 1 chain4 [0; 1; 2; 3])))
              st) as (st' & H); [| | |exact Hrun|exists st'; split; [reflexivity|exact H]].
  - reflexivity.
  - by apply (bool_decide_unpack _).
  - by apply (bool_decide_unpack _).
Defined.
